(** * Shared-ptr: a shallow embedding of [smart_pointers.h]

    The library is a single header: [SharedPtr<T>], [WeakPtr<T>],
    [EnableSharedFromThis<T>] and the factories [allocateShared] /
    [makeShared].  Control blocks live on a heap, handles are plain
    records of (nullable) addresses, and every member function is a
    computation in a small state-and-error monad.  Null dereferences and
    accesses to released storage are undefined behaviour in C++; the
    embedding makes them explicit faults so that theorems can say when
    they do not happen. *)

From stdpp Require Import base option list gmap.
From Stdlib Require Import ZArith Lia.

Open Scope Z_scope.

(** ** Machine integers and pointers *)

(** [size_t] on the targets of the library: 64 bits, wrapping. *)
Definition size_t_wrap (z : Z) : Z := z mod 2 ^ 64.
Definition pre_incr (z : Z) : Z := size_t_wrap (z + 1).   (* ++z *)
Definition pre_decr (z : Z) : Z := size_t_wrap (z - 1).   (* --z *)

(** A pointer is an address or [nullptr]. *)
Definition ptr : Type := option Z.
Definition nullptr : ptr := None.

(** [static_cast<T*>(p)] between related class types: the null pointer is
    kept, any other address is adjusted by the offset of the [T]
    sub-object.  [reinterpret_cast] leaves the address alone and is not
    written in the embedding. *)
Definition static_cast (delta : Z) (p : ptr) : ptr :=
  match p with
  | Some a => Some (a + delta)
  | None => None
  end.

(** ** Control blocks, handles and the store *)

(** The deleters a caller can pass: [std::default_delete] runs the
    pointee's destructor and releases it, a no-op deleter (legal for
    stack or static objects) leaves the object alone. *)
Inductive Deleter : Type :=
  | default_delete
  | noop_deleter.

(** The two final subclasses of [BaseControlBlock]. *)
Inductive BlockKind : Type :=
  | ControlBlockEmbeded
  | ControlBlockFromPointer (del : Deleter) (pobj : ptr).

Record BaseControlBlock : Type := mkBlock {
  shared_count : Z;
  weak_count : Z;
  variant : BlockKind
}.

(** Storage handed out by an allocator is raw until a block has been
    constructed in it. *)
Inductive Cell : Type :=
  | RawStorage
  | Block (blk : BaseControlBlock).

Record SharedPtr : Type := mkShared {
  control_block : ptr;
  pointer : ptr
}.

Record WeakPtr : Type := mkWeak {
  weak_block : ptr
}.

(** Ghost trace of the two irreversible actions.  [DestroyObject b n]
    records a call of [destroy_object] on block [b] together with the
    value of [shared_count] the pointee's destructor (or the deleter)
    can observe while it runs. *)
Inductive Event : Type :=
  | DestroyObject (b : Z) (seen_shared : Z)
  | Deallocate (b : Z).

(** [objects] holds, for every live pointee that carries the
    [EnableSharedFromThis] base, its private member [weak_this]. *)
Record State : Type := mkState {
  heap : gmap Z Cell;
  objects : gmap Z WeakPtr;
  trace : list Event
}.

Definition empty_state : State := mkState ∅ ∅ [].

(** ** Outcomes *)

Inductive Exn : Type :=
  | bad_weak_ptr
  | bad_alloc
  | constructor_failure.

Inductive Fault : Type :=
  | NullDeref          (* access through a null control block or pointee *)
  | DanglingBlock      (* access to a control block that is not there *)
  | DeadObject         (* access to a pointee outside its lifetime *)
  | AllocatorMisuse    (* the allocator handed out storage that is in use *)
  | NoSuchHandle       (* the program names a handle it never declared *)
  | IllFormed.         (* the call has no instantiation: it does not compile *)

Inductive Res (A : Type) : Type :=
  | Ok (a : A) (s : State)
  | Throw (e : Exn) (s : State)
  | Undefined (f : Fault).

Arguments Ok {A} a s.
Arguments Throw {A} e s.
Arguments Undefined {A} f.

Definition M (A : Type) : Type := State → Res A.

#[global] Instance M_ret : MRet M := λ A a s, Ok a s.

#[global] Instance M_bind : MBind M := λ A B f m s,
  match m s with
  | Ok a s' => f a s'
  | Throw e s' => Throw e s'
  | Undefined u => Undefined u
  end.

Definition throw {A} (e : Exn) : M A := λ s, Throw e s.
Definition undefined {A} (f : Fault) : M A := λ _, Undefined f.

(** ** Primitive accesses *)

Definition put_cell (b : Z) (c : Cell) (s : State) : State :=
  mkState (<[b := c]> (heap s)) (objects s) (trace s).

Definition drop_cell (b : Z) (s : State) : State :=
  mkState (delete b (heap s)) (objects s) (trace s).

Definition log (ev : Event) (s : State) : State :=
  mkState (heap s) (objects s) (ev :: trace s).

Definition put_object (p : Z) (w : WeakPtr) (s : State) : State :=
  mkState (heap s) (<[p := w]> (objects s)) (trace s).

Definition drop_object (p : Z) (s : State) : State :=
  mkState (heap s) (delete p (objects s)) (trace s).

Definition deref (p : ptr) : M Z :=
  match p with
  | Some a => mret a
  | None => undefined NullDeref
  end.

Definition read_block (b : Z) : M BaseControlBlock := λ s,
  match heap s !! b with
  | Some (Block blk) => Ok blk s
  | _ => Undefined DanglingBlock
  end.

Definition write_block (b : Z) (blk : BaseControlBlock) : M unit := λ s,
  Ok tt (put_cell b (Block blk) s).

Definition emit (ev : Event) : M unit := λ s, Ok tt (log ev s).

(** [++control_block->shared_count] and its three siblings. *)
Definition incr_shared (b : Z) : M unit :=
  blk ← read_block b;
  write_block b (mkBlock (pre_incr (shared_count blk)) (weak_count blk) (variant blk)).

Definition decr_shared (b : Z) : M unit :=
  blk ← read_block b;
  write_block b (mkBlock (pre_decr (shared_count blk)) (weak_count blk) (variant blk)).

Definition incr_weak (b : Z) : M unit :=
  blk ← read_block b;
  write_block b (mkBlock (shared_count blk) (pre_incr (weak_count blk)) (variant blk)).

Definition decr_weak (b : Z) : M unit :=
  blk ← read_block b;
  write_block b (mkBlock (shared_count blk) (pre_decr (weak_count blk)) (variant blk)).

(** [AllocTraits::allocate(alloc, 1)].  The allocator is a collaborator:
    its answer is an input, [None] for a failed allocation. *)
Definition allocate (answer : option Z) : M Z := λ s,
  match answer with
  | None => Throw bad_alloc s
  | Some a =>
      match heap s !! a with
      | None => Ok a (put_cell a RawStorage s)
      | Some _ => Undefined AllocatorMisuse
      end
  end.

(** [control_block->~BaseControlBlock()]: the virtual destructor of either
    subclass hands the block's storage back to its allocator. *)
Definition release_storage (b : Z) : M unit := λ s, Ok tt (drop_cell b s).

Definition destroy_block (b : Z) : M unit :=
  _ ← read_block b;
  _ ← emit (Deallocate b);
  release_storage b.

Definition read_weak_this (p : Z) : M WeakPtr := λ s,
  match objects s !! p with
  | Some w => Ok w s
  | None => Undefined DeadObject
  end.

Definition write_weak_this (p : Z) (w : WeakPtr) : M unit := λ s,
  match objects s !! p with
  | Some _ => Ok tt (put_object p w s)
  | None => Undefined DeadObject
  end.

Definition end_object (p : Z) : M unit := λ s, Ok tt (drop_object p s).

(** A pointee with the [EnableSharedFromThis] base starts its life with
    a default-constructed [weak_this]. *)
Definition begin_object (p : Z) : M unit := λ s, Ok tt (put_object p (mkWeak None) s).

(** A pointee built as a copy of another one starts with the
    [weak_this] its copy constructor made. *)
Definition copy_object (p : Z) (w : WeakPtr) : M unit := λ s, Ok tt (put_object p w s).

(** ** The library *)

Section Library.

(** [std::is_base_of_v<EnableSharedFromThis<T>, T>]. *)
Variable mixin : bool.

(** Offset of the member [obj] inside [ControlBlockEmbeded]. *)
Variable obj_offset : Z.

Definition empty_shared : SharedPtr := mkShared nullptr nullptr.   (* SharedPtr() *)
Definition empty_weak : WeakPtr := mkWeak nullptr.                 (* WeakPtr() *)

(** *** WeakPtr, part one *)

Definition unlink_weak_pointer_from_the_control_block (this : WeakPtr) : M WeakPtr :=
  match weak_block this with
  | None => mret this
  | Some b =>
      _ ← decr_weak b;
      blk ← read_block b;
      _ ← (if (shared_count blk =? 0) && (weak_count blk =? 0)
           then destroy_block b else mret tt);
      mret (mkWeak nullptr)
  end.

(** *** Control block virtuals *)

(** The pointee's destructor.  The only member the library knows of is
    [weak_this]. *)
Definition destroy_pointee (p : Z) : M unit :=
  if mixin then
    w ← read_weak_this p;
    _ ← unlink_weak_pointer_from_the_control_block w;
    end_object p
  else mret tt.

Definition embedded_obj (b : Z) : Z := b + obj_offset.

Definition run_deleter (del : Deleter) (pobj : ptr) : M unit :=
  match del with
  | default_delete =>
      match pobj with
      | Some p => destroy_pointee p
      | None => mret tt
      end
  | noop_deleter => mret tt
  end.

Definition destroy_object (b : Z) : M unit :=
  blk ← read_block b;
  _ ← emit (DestroyObject b (shared_count blk));
  match variant blk with
  | ControlBlockEmbeded => destroy_pointee (embedded_obj b)
  | ControlBlockFromPointer del pobj => run_deleter del pobj
  end.

Definition get_pointer (b : Z) : M ptr :=
  blk ← read_block b;
  match variant blk with
  | ControlBlockEmbeded => mret (Some (embedded_obj b))
  | ControlBlockFromPointer _ pobj => mret pobj
  end.

(** *** SharedPtr *)

Definition unlink_shared_pointer_from_the_control_block (this : SharedPtr) : M SharedPtr :=
  match control_block this with
  | None => mret this
  | Some b =>
      blk ← read_block b;
      if 1 <? shared_count blk then
        _ ← decr_shared b;
        mret (mkShared nullptr nullptr)
      else
        _ ← destroy_object b;
        _ ← decr_shared b;
        blk' ← read_block b;
        _ ← (if weak_count blk' =? 0 then destroy_block b else mret tt);
        mret (mkShared nullptr nullptr)
  end.

(** [SharedPtr(const SharedPtr& other)]. *)
Definition SharedPtr_copy (other : SharedPtr) : M SharedPtr :=
  _ ← match control_block other with
      | Some b => incr_shared b
      | None => mret tt
      end;
  mret (mkShared (control_block other) (pointer other)).

(** [template<Y> SharedPtr(const SharedPtr<Y>& other)]. *)
Definition SharedPtr_copy_conv (delta : Z) (other : SharedPtr) : M SharedPtr :=
  _ ← match control_block other with
      | Some b => incr_shared b
      | None => mret tt
      end;
  mret (mkShared (control_block other) (static_cast delta (pointer other))).

(** [SharedPtr(SharedPtr&& other)]: the new handle and what is left of
    [other]. *)
Definition SharedPtr_move (other : SharedPtr) : SharedPtr * SharedPtr :=
  (mkShared (control_block other) (pointer other), mkShared nullptr nullptr).

(** [template<Y> SharedPtr(SharedPtr<Y>&& other)]. *)
Definition SharedPtr_move_conv (delta : Z) (other : SharedPtr) : SharedPtr * SharedPtr :=
  (mkShared (control_block other) (static_cast delta (pointer other)),
   mkShared nullptr nullptr).

(** Overload resolution between a same-type constructor and its
    converting template: [conv] is [None] when source and target have
    the same type and [Some delta] otherwise, [delta] being the offset
    [static_cast] applies. *)
Definition copy_ctor (conv : option Z) : SharedPtr → M SharedPtr :=
  match conv with
  | None => SharedPtr_copy
  | Some delta => SharedPtr_copy_conv delta
  end.

Definition move_ctor (conv : option Z) : SharedPtr → SharedPtr * SharedPtr :=
  match conv with
  | None => SharedPtr_move
  | Some delta => SharedPtr_move_conv delta
  end.

(** [swap]: the new [*this] and the new [other]. *)
Definition SharedPtr_swap (this other : SharedPtr) : SharedPtr * SharedPtr :=
  (mkShared (control_block other) (pointer other),
   mkShared (control_block this) (pointer this)).

(** [WeakPtr(SharedPtr<T> pointer)].  The argument is taken by value: it
    is a copy of the caller's handle, destroyed when the call is over. *)
Definition WeakPtr_from_shared (arg : SharedPtr) : M WeakPtr :=
  param ← SharedPtr_copy arg;
  b ← deref (control_block param);
  _ ← incr_weak b;
  _ ← unlink_shared_pointer_from_the_control_block param;
  mret (mkWeak (control_block param)).

Definition WeakPtr_swap (this other : WeakPtr) : WeakPtr * WeakPtr :=
  (mkWeak (weak_block other), mkWeak (weak_block this)).

(** [WeakPtr& operator=(const SharedPtr<U>& other)]; the overload for
    [SharedPtr<T>] forwards to it.  Returns the new [*this]. *)
Definition WeakPtr_assign_shared (this : WeakPtr) (other : SharedPtr) : M WeakPtr :=
  copy ← WeakPtr_from_shared other;
  let '(this', copy') := WeakPtr_swap this copy in
  _ ← unlink_weak_pointer_from_the_control_block copy';
  mret this'.

(** The private constructor [SharedPtr(T* pointer, BaseControlBlock* control_block)]. *)
Definition SharedPtr_attach (p : ptr) (cb : ptr) : M SharedPtr :=
  let this := mkShared cb p in
  b ← deref cb;
  _ ← incr_shared b;
  _ ← (if mixin then
         o ← deref p;
         w ← read_weak_this o;
         w' ← WeakPtr_assign_shared w this;
         write_weak_this o w'
       else mret tt);
  mret this.

(** [template<Y, Deleter, Alloc> SharedPtr(Y* given_pointer, Deleter del, Alloc alloc)].
    The body hands the member [pointer], a [T*], to the constructor of
    [ControlBlockFromPointer<Y, ...>], which takes a [Y*], and that
    block's [get_pointer] returns its [Y*] as a [T*]: the constructor
    has an instantiation only for [Y = T], and [static_cast<T*>] leaves
    the address alone.  For a pointee with the mixin the statement
    [pointer->weak_this = control_block] is part of the body.  No
    assignment of [WeakPtr] takes a block pointer; the one candidate,
    from a [SharedPtr<T>], would convert the block pointer through this
    very constructor with [Y = BaseControlBlock], whose
    [static_cast<T*>] is ill-formed.  So for such a pointee the
    constructor has no instantiation at all. *)
Definition SharedPtr_from_raw (given_pointer : ptr) (del : Deleter)
    (answer : option Z) : M SharedPtr :=
  if mixin then undefined IllFormed
  else
    b ← allocate answer;
    _ ← write_block b (mkBlock 0 0 (ControlBlockFromPointer del given_pointer));
    _ ← incr_shared b;
    mret (mkShared (Some b) given_pointer).

(** [template<Y> SharedPtr(Y* pointer)]. *)
Definition SharedPtr_from_raw_default (given_pointer : ptr) (answer : option Z) : M SharedPtr :=
  SharedPtr_from_raw given_pointer default_delete answer.

(** [template<Y> SharedPtr& operator=(const SharedPtr<Y>& other)]; its
    local [copy] is built by the constructor overload resolution picks. *)
Definition SharedPtr_assign_conv (conv : option Z) (this other : SharedPtr) : M SharedPtr :=
  copy ← copy_ctor conv other;
  let '(this', copy') := SharedPtr_swap this copy in
  _ ← unlink_shared_pointer_from_the_control_block copy';
  mret this'.

(** [SharedPtr& operator=(const SharedPtr& other)], which forwards to
    [operator=<T>]; [same_object] is the test [&other == this]. *)
Definition SharedPtr_assign (same_object : bool) (this other : SharedPtr) : M SharedPtr :=
  if same_object then mret this else SharedPtr_assign_conv None this other.

Definition SharedPtr_use_count (this : SharedPtr) : M Z :=
  b ← deref (control_block this);
  blk ← read_block b;
  mret (shared_count blk).

Definition SharedPtr_reset (this : SharedPtr) : M SharedPtr :=
  unlink_shared_pointer_from_the_control_block this.

(** [operator->]; [operator*] dereferences the same address. *)
Definition SharedPtr_arrow (this : SharedPtr) : M ptr :=
  b ← deref (control_block this);
  get_pointer b.

Definition SharedPtr_get (this : SharedPtr) : ptr := pointer this.

(** *** Factories *)

(** [AllocTraits::construct] runs the constructor of
    [ControlBlockEmbeded], which builds the pointee in [obj];
    [ctor_ok] says whether the pointee's constructor returns. *)
Definition construct_embedded (b : Z) (ctor_ok : bool) : M unit :=
  if ctor_ok then
    _ ← write_block b (mkBlock 0 0 ControlBlockEmbeded);
    if mixin then begin_object (embedded_obj b) else mret tt
  else throw constructor_failure.

Definition allocateShared (answer : option Z) (ctor_ok : bool) : M SharedPtr :=
  b ← allocate answer;
  _ ← construct_embedded b ctor_ok;
  SharedPtr_attach (Some (embedded_obj b)) (Some b).

Definition makeShared (answer : option Z) (ctor_ok : bool) : M SharedPtr :=
  allocateShared answer ctor_ok.

(** *** WeakPtr, part two *)

(** [WeakPtr(const WeakPtr& other)] and its template twin. *)
Definition WeakPtr_copy (other : WeakPtr) : M WeakPtr :=
  b ← deref (weak_block other);
  _ ← incr_weak b;
  mret (mkWeak (weak_block other)).

Definition WeakPtr_move (other : WeakPtr) : WeakPtr * WeakPtr :=
  (mkWeak (weak_block other), mkWeak nullptr).

(** [template<U> WeakPtr& operator=(const WeakPtr<U>& other)]. *)
Definition WeakPtr_assign_conv (this other : WeakPtr) : M WeakPtr :=
  copy ← WeakPtr_copy other;
  let '(this', copy') := WeakPtr_swap this copy in
  _ ← unlink_weak_pointer_from_the_control_block copy';
  mret this'.

Definition WeakPtr_assign (same_object : bool) (this other : WeakPtr) : M WeakPtr :=
  if same_object then mret this else WeakPtr_assign_conv this other.

Definition WeakPtr_expired (this : WeakPtr) : M bool :=
  match weak_block this with
  | None => mret true
  | Some b =>
      blk ← read_block b;
      mret (shared_count blk =? 0)
  end.

Definition WeakPtr_lock (this : WeakPtr) : M SharedPtr :=
  e ← WeakPtr_expired this;
  if (e : bool) then mret empty_shared
  else
    b ← deref (weak_block this);
    p ← get_pointer b;
    SharedPtr_attach p (weak_block this).

Definition WeakPtr_use_count (this : WeakPtr) : M Z :=
  b ← deref (weak_block this);
  blk ← read_block b;
  mret (shared_count blk).

Definition WeakPtr_reset (this : WeakPtr) : M WeakPtr :=
  unlink_weak_pointer_from_the_control_block this.

(** [T* WeakPtr::operator->()]; [operator*] dereferences the same
    address.  Neither looks at [shared_count]. *)
Definition WeakPtr_arrow (this : WeakPtr) : M ptr :=
  b ← deref (weak_block this);
  get_pointer b.

(** *** EnableSharedFromThis *)

(** [shared_from_this()], called on the object at address [this]. *)
Definition shared_from_this (this : Z) : M SharedPtr :=
  weak_this ← read_weak_this this;
  e ← WeakPtr_expired weak_this;
  if (e : bool) then throw bad_weak_ptr
  else WeakPtr_lock weak_this.

(** [EnableSharedFromThis] declares no copy constructor, so the
    implicit one copies the member: a pointee built at [this] as a copy
    of the pointee at [other] starts with a copy of that one's
    [weak_this]. *)
Definition EnableSharedFromThis_copy (this other : Z) : M unit :=
  w ← read_weak_this other;
  w' ← WeakPtr_copy w;
  copy_object this w'.

(** ** Programs over named handles

    Assignment operators compare addresses of handles ([&other == this])
    and move operations write into their source, so a program is run
    over numbered handle variables: [owning] holds the [SharedPtr]
    variables declared so far and [weak] the [WeakPtr] ones.  A
    destroyed or moved-from variable keeps its number and holds the
    empty handle its destructor or the move left behind. *)

Record Machine : Type := mkMachine {
  store : State;
  owning : list SharedPtr;
  weak : list WeakPtr
}.

Inductive Outcome : Type :=
  | Done (m : Machine)
  | Raised (e : Exn) (m : Machine)
  | Stuck (f : Fault).

Definition exec {A} (f : M A) (m : Machine) (k : A → State → Outcome) : Outcome :=
  match f (store m) with
  | Ok a s => k a s
  | Throw e s => Raised e (mkMachine s (owning m) (weak m))
  | Undefined u => Stuck u
  end.

Definition with_owning (m : Machine) (i : nat) (k : SharedPtr → Outcome) : Outcome :=
  match owning m !! i with
  | Some h => k h
  | None => Stuck NoSuchHandle
  end.

Definition with_weak (m : Machine) (i : nat) (k : WeakPtr → Outcome) : Outcome :=
  match weak m !! i with
  | Some w => k w
  | None => Stuck NoSuchHandle
  end.

(** Operations on handles that exist already; [conv] selects the
    overload as in [copy_ctor]. *)
Inductive HandleOp : Type :=
  | Copy (i : nat) (conv : option Z)             (* SharedPtr h(hs[i]) *)
  | Move (i : nat) (conv : option Z)             (* SharedPtr h(std::move(hs[i])) *)
  | CopyAssign (i j : nat) (conv : option Z)     (* hs[i] = hs[j] *)
  | MoveAssign (i j : nat) (conv : option Z)     (* hs[i] = std::move(hs[j]) *)
  | Reset (i : nat)                              (* hs[i].reset() *)
  | Destroy (i : nat)                            (* hs[i].~SharedPtr() *)
  | Swap (i j : nat)                             (* hs[i].swap(hs[j]) *)
  | WeakFromShared (i : nat)                     (* WeakPtr w(hs[i]) *)
  | WeakCopy (j : nat)                           (* WeakPtr w(ws[j]) *)
  | WeakMove (j : nat)                           (* WeakPtr w(std::move(ws[j])) *)
  | WeakCopyAssign (i j : nat)                   (* ws[i] = ws[j] *)
  | WeakMoveAssign (i j : nat)                   (* ws[i] = std::move(ws[j]) *)
  | WeakAssignShared (j i : nat)                 (* ws[j] = hs[i] *)
  | WeakReset (j : nat)                          (* ws[j].reset() *)
  | WeakDestroy (j : nat)                        (* ws[j].~WeakPtr() *)
  | WeakSwap (i j : nat)                         (* ws[i].swap(ws[j]) *)
  | Lock (j : nat).                              (* SharedPtr h = ws[j].lock() *)

Inductive Op : Type :=
  | Handle (h : HandleOp)
  | NewObject (p : Z)                            (* a pointee built by the caller *)
  | MakeShared (answer : option Z) (ctor_ok : bool)
  | FromRaw (p : ptr) (del : Deleter) (answer : option Z)   (* SharedPtr h(p, del) *)
  | ResetTo (i : nat) (p : ptr) (answer : option Z)         (* hs[i].reset(p) *)
  | SharedFromThis (p : Z).                      (* SharedPtr h = p->shared_from_this() *)

Definition copy_assign (conv : option Z) (same_object : bool) : SharedPtr → SharedPtr → M SharedPtr :=
  match conv with
  | None => SharedPtr_assign same_object
  | Some delta => SharedPtr_assign_conv (Some delta)
  end.

(** [template<Y> SharedPtr& operator=(SharedPtr<Y>&& other)] with
    [*this] in variable [i] and [other] in variable [j]. *)
Definition move_assign_conv (conv : option Z) (i j : nat) (m : Machine) : Outcome :=
  with_owning m j (λ other,
    let '(moved_other, other') := move_ctor conv other in
    let m1 := mkMachine (store m) (<[j := other']> (owning m)) (weak m) in
    with_owning m1 i (λ this,
      let '(this', moved_other') := SharedPtr_swap this moved_other in
      let m2 := mkMachine (store m1) (<[i := this']> (owning m1)) (weak m1) in
      exec (unlink_shared_pointer_from_the_control_block moved_other') m2 (λ _ s,
        Done (mkMachine s (owning m2) (weak m2))))).

(** [SharedPtr& operator=(SharedPtr&& other)]. *)
Definition move_assign (conv : option Z) (i j : nat) (m : Machine) : Outcome :=
  match conv with
  | None =>
      if decide (i = j) then with_owning m i (λ _, Done m)
      else move_assign_conv None i j m
  | Some _ => move_assign_conv conv i j m
  end.

(** [template<U> WeakPtr& operator=(WeakPtr<U>&& other)]. *)
Definition weak_move_assign_conv (i j : nat) (m : Machine) : Outcome :=
  with_weak m j (λ other,
    let '(moved_copy, other') := WeakPtr_move other in
    let m1 := mkMachine (store m) (owning m) (<[j := other']> (weak m)) in
    with_weak m1 i (λ this,
      let '(this', moved_copy') := WeakPtr_swap this moved_copy in
      let m2 := mkMachine (store m1) (owning m1) (<[i := this']> (weak m1)) in
      exec (unlink_weak_pointer_from_the_control_block moved_copy') m2 (λ _ s,
        Done (mkMachine s (owning m2) (weak m2))))).

Definition step_handle (op : HandleOp) (m : Machine) : Outcome :=
  match op with
  | Copy i conv =>
      with_owning m i (λ other,
        exec (copy_ctor conv other) m (λ h s,
          Done (mkMachine s (owning m ++ [h]) (weak m))))
  | Move i conv =>
      with_owning m i (λ other,
        let '(h, other') := move_ctor conv other in
        Done (mkMachine (store m) (<[i := other']> (owning m) ++ [h]) (weak m)))
  | CopyAssign i j conv =>
      with_owning m i (λ this,
        with_owning m j (λ other,
          exec (copy_assign conv (bool_decide (i = j)) this other) m (λ this' s,
            Done (mkMachine s (<[i := this']> (owning m)) (weak m)))))
  | MoveAssign i j conv => move_assign conv i j m
  | Reset i =>
      with_owning m i (λ this,
        exec (SharedPtr_reset this) m (λ this' s,
          Done (mkMachine s (<[i := this']> (owning m)) (weak m))))
  | Destroy i =>
      with_owning m i (λ this,
        exec (unlink_shared_pointer_from_the_control_block this) m (λ this' s,
          Done (mkMachine s (<[i := this']> (owning m)) (weak m))))
  | Swap i j =>
      with_owning m i (λ this,
        with_owning m j (λ other,
          let '(this', other') := SharedPtr_swap this other in
          Done (mkMachine (store m) (<[i := this']> (<[j := other']> (owning m))) (weak m))))
  | WeakFromShared i =>
      with_owning m i (λ arg,
        exec (WeakPtr_from_shared arg) m (λ w s,
          Done (mkMachine s (owning m) (weak m ++ [w]))))
  | WeakCopy j =>
      with_weak m j (λ other,
        exec (WeakPtr_copy other) m (λ w s,
          Done (mkMachine s (owning m) (weak m ++ [w]))))
  | WeakMove j =>
      with_weak m j (λ other,
        let '(w, other') := WeakPtr_move other in
        Done (mkMachine (store m) (owning m) (<[j := other']> (weak m) ++ [w])))
  | WeakCopyAssign i j =>
      with_weak m i (λ this,
        with_weak m j (λ other,
          exec (WeakPtr_assign (bool_decide (i = j)) this other) m (λ this' s,
            Done (mkMachine s (owning m) (<[i := this']> (weak m))))))
  | WeakMoveAssign i j =>
      if decide (i = j) then with_weak m i (λ _, Done m)
      else weak_move_assign_conv i j m
  | WeakAssignShared j i =>
      with_weak m j (λ this,
        with_owning m i (λ other,
          exec (WeakPtr_assign_shared this other) m (λ this' s,
            Done (mkMachine s (owning m) (<[j := this']> (weak m))))))
  | WeakReset j =>
      with_weak m j (λ this,
        exec (WeakPtr_reset this) m (λ this' s,
          Done (mkMachine s (owning m) (<[j := this']> (weak m)))))
  | WeakDestroy j =>
      with_weak m j (λ this,
        exec (unlink_weak_pointer_from_the_control_block this) m (λ this' s,
          Done (mkMachine s (owning m) (<[j := this']> (weak m)))))
  | WeakSwap i j =>
      with_weak m i (λ this,
        with_weak m j (λ other,
          let '(this', other') := WeakPtr_swap this other in
          Done (mkMachine (store m) (owning m) (<[i := this']> (<[j := other']> (weak m))))))
  | Lock j =>
      with_weak m j (λ this,
        exec (WeakPtr_lock this) m (λ h s,
          Done (mkMachine s (owning m ++ [h]) (weak m))))
  end.

(** [reset(Y* new_pointer)] is [operator=(SharedPtr(new_pointer))]: the
    temporary is moved into [*this], what [*this] held is released, and
    the emptied temporary is destroyed. *)
Definition reset_to (i : nat) (p : ptr) (answer : option Z) (m : Machine) : Outcome :=
  with_owning m i (λ this,
    exec (SharedPtr_from_raw_default p answer) m (λ temp s,
      let '(moved_other, temp') := SharedPtr_move temp in
      let '(this', moved_other') := SharedPtr_swap this moved_other in
      let m1 := mkMachine s (<[i := this']> (owning m)) (weak m) in
      exec (unlink_shared_pointer_from_the_control_block moved_other') m1 (λ _ s1,
        let m2 := mkMachine s1 (owning m1) (weak m1) in
        exec (unlink_shared_pointer_from_the_control_block temp') m2 (λ _ s2,
          Done (mkMachine s2 (owning m2) (weak m2)))))).

Definition step (op : Op) (m : Machine) : Outcome :=
  match op with
  | Handle h => step_handle h m
  | NewObject p =>
      if mixin then exec (begin_object p) m (λ _ s, Done (mkMachine s (owning m) (weak m)))
      else Done m
  | MakeShared answer ctor_ok =>
      exec (makeShared answer ctor_ok) m (λ h s,
        Done (mkMachine s (owning m ++ [h]) (weak m)))
  | FromRaw p del answer =>
      exec (SharedPtr_from_raw p del answer) m (λ h s,
        Done (mkMachine s (owning m ++ [h]) (weak m)))
  | ResetTo i p answer => reset_to i p answer m
  | SharedFromThis p =>
      exec (shared_from_this p) m (λ h s,
        Done (mkMachine s (owning m ++ [h]) (weak m)))
  end.

(** A straight-line program; it stops at the first exception or fault. *)
Fixpoint run (ops : list Op) (m : Machine) : Outcome :=
  match ops with
  | [] => Done m
  | op :: rest =>
      match step op m with
      | Done m' => run rest m'
      | o => o
      end
  end.

Definition empty_machine : Machine := mkMachine empty_state [] [].

(** ** Observations on a run *)

(** How often the pointee of block [b] was destroyed, and how often the
    block's storage was released. *)
Fixpoint destroy_count (b : Z) (t : list Event) : Z :=
  match t with
  | [] => 0
  | DestroyObject b' _ :: t' => (if decide (b' = b) then 1 else 0) + destroy_count b t'
  | Deallocate _ :: t' => destroy_count b t'
  end.

Fixpoint free_count (b : Z) (t : list Event) : Z :=
  match t with
  | [] => 0
  | Deallocate b' :: t' => (if decide (b' = b) then 1 else 0) + free_count b t'
  | DestroyObject _ _ :: t' => free_count b t'
  end.

(** Number of entries of a list of block pointers that name block [b]. *)
Definition hit (b : Z) (p : ptr) : Z := if decide (p = Some b) then 1 else 0.

Fixpoint refs (b : Z) (l : list ptr) : Z :=
  match l with
  | [] => 0
  | p :: l' => hit b p + refs b l'
  end.

Definition owners (b : Z) (m : Machine) : Z := refs b (control_block <$> owning m).

Definition block_live (b : Z) (s : State) : bool :=
  match heap s !! b with
  | Some (Block _) => true
  | _ => false
  end.


(** ** Vocabulary of the properties *)

(** A live pointee whose type carries the mixin holds one more
    Non-owning Handle on its block, the member [weak_this]. *)
Definition mix : Z := if mixin then 1 else 0.

(** The store reached from the creation of one block of kind [k] at
    address [a] when [S] Owning Handles and [W] [WeakPtr] variables name
    the block: while an
    owner is left the block counts them and the pointee is alive; after
    the last owner the pointee has been destroyed, once, and the block
    is kept for the weak handles; after the last handle the block has
    been released, once. *)
Definition lifecycle_state (a : Z) (k : BlockKind) (S W : Z) : State :=
  if 0 <? S then
    mkState {[a := Block (mkBlock S (W + mix) k)]}
            (if mixin then {[embedded_obj a := mkWeak (Some a)]} else ∅)
            []
  else if 0 <? W then
    mkState {[a := Block (mkBlock 0 W k)]} ∅ [DestroyObject a 1]
  else
    mkState ∅ ∅ [Deallocate a; DestroyObject a 1].

(** A block pointer that is null or names block [a]. *)
Definition names (a : Z) (p : ptr) : Prop := p = None ∨ p = Some a.

(** The invariant of a program on the handles of the block at [a]: the
    store is the one the two counts determine, every handle is empty or
    on [a], and at most [n] handle variables exist. *)
Record lifecycle_inv (a : Z) (k : BlockKind) (n : Z) (m : Machine) : Prop := {
  inv_store : store m = lifecycle_state a k (owners a m) (refs a (weak_block <$> weak m));
  inv_owning : Forall (λ h, names a (control_block h)) (owning m);
  inv_weak : Forall (λ w, names a (weak_block w)) (weak m);
  inv_size : Z.of_nat (length (owning m)) + Z.of_nat (length (weak m)) ≤ n
}.

(** What [get_pointer] answers for a block. *)
Definition block_pointee (b : Z) (blk : BaseControlBlock) : ptr :=
  match variant blk with
  | ControlBlockEmbeded => Some (embedded_obj b)
  | ControlBlockFromPointer _ pobj => pobj
  end.

(** The store [unlink_weak_pointer_from_the_control_block] leaves when
    the handle named block [b] and the block read [blk]. *)
Definition after_unlink_weak (b : Z) (blk : BaseControlBlock) (s : State) : State :=
  let blk' := mkBlock (shared_count blk) (pre_decr (weak_count blk)) (variant blk) in
  if (shared_count blk =? 0) && (pre_decr (weak_count blk) =? 0)
  then drop_cell b (log (Deallocate b) (put_cell b (Block blk') s))
  else put_cell b (Block blk') s.

(** The pointee behind [p] can be wired by the private constructor:
    it is alive and its [weak_this] is unset or names a block that is
    still there. *)
Definition wired_ok (p : ptr) (s : State) : Prop :=
  mixin = true →
  ∃ o w, p = Some o ∧ objects s !! o = Some w ∧
         (weak_block w = None ∨ ∃ b0, weak_block w = Some b0 ∧ block_live b0 s = true).

(** The store an Owning Handle leaves behind when it was the last one:
    [s1] is the store after the pointee's destruction, [blk1] the block
    as it is then. *)
Definition after_last_owner (b : Z) (blk1 : BaseControlBlock) (s1 : State) : State :=
  let gone := mkBlock (pre_decr (shared_count blk1)) (weak_count blk1) (variant blk1) in
  if weak_count blk1 =? 0
  then drop_cell b (log (Deallocate b) (put_cell b (Block gone) s1))
  else put_cell b (Block gone) s1.

(** The exceptions a computation can raise all satisfy [P]. *)
Definition throws_only {A} (P : Exn → Prop) (f : M A) : Prop :=
  ∀ s e s', f s = Throw e s' → P e.

(** The operations that create a block. *)
Definition creates (op : Op) : Prop :=
  match op with
  | MakeShared _ _ | FromRaw _ _ _ | ResetTo _ _ _ => True
  | _ => False
  end.

(** The pointer a constructor stores, given the one of its source. *)
Definition convert (conv : option Z) (p : ptr) : ptr :=
  match conv with
  | None => p
  | Some delta => static_cast delta p
  end.

(** A handle after its destructor or [reset()]. *)
Definition released (this : SharedPtr) : SharedPtr :=
  match control_block this with
  | None => this
  | Some _ => empty_shared
  end.

Definition released_weak (this : WeakPtr) : WeakPtr :=
  match weak_block this with
  | None => this
  | Some _ => empty_weak
  end.

(** The [WeakPtr] variables on block [b], and all handle variables of
    the program on it.  The member [weak_this] of a pointee is the
    library's own and is not among them. *)
Definition weak_vars (b : Z) (m : Machine) : Z := refs b (weak_block <$> weak m).

Definition handles (b : Z) (m : Machine) : Z := owners b m + weak_vars b m.

(** What the trace and the heap must show for block [b]: the pointee
    destroyed once when no Owning Handle is left and not before, the
    block released once when no handle of either kind is left and not
    before, and nothing of the block or of its pointee left behind
    then. *)
Definition lifecycle_ok (b : Z) (m : Machine) : Prop :=
  destroy_count b (trace (store m)) = (if owners b m =? 0 then 1 else 0) ∧
  free_count b (trace (store m)) = (if handles b m =? 0 then 1 else 0) ∧
  block_live b (store m) = negb (handles b m =? 0) ∧
  (handles b m = 0 → heap (store m) = ∅ ∧ objects (store m) = ∅).

(** The address the first handle of a block of kind [k] stores. *)
Definition pointee_at (b : Z) (k : BlockKind) : ptr := block_pointee b (mkBlock 0 0 k).

(** The machine right after the creation of a block of kind [k] at
    address [b]. *)
Definition made (b : Z) (k : BlockKind) : Machine :=
  mkMachine (lifecycle_state b k 1 0) [mkShared (Some b) (pointee_at b k)] [].

(** The first operation of a program on one block at address [a]: the
    factory, or the raw-pointer constructor for a pointee without the
    mixin. *)
Definition creation (a : Z) (k : BlockKind) (op : Op) : Prop :=
  match k with
  | ControlBlockEmbeded => op = MakeShared (Some a) true
  | ControlBlockFromPointer del p => mixin = false ∧ op = FromRaw p del (Some a)
  end.

(** What one step must establish to keep [lifecycle_inv]. *)
Definition step_ok (a : Z) (k : BlockKind) (n : Z) (m : Machine) (o : Outcome) : Prop :=
  match o with
  | Done m' =>
      lifecycle_inv a k (n + 1) m' ∧
      (owners a m = 0 → owners a m' = 0) ∧
      (owners a m = 0 → weak_vars a m = 0 → weak_vars a m' = 0)
  | Raised _ _ => False
  | Stuck f => f = NullDeref ∨ f = NoSuchHandle
  end.

(** Nullness of the two fields of an Owning Handle.  [strict] is set
    when no External-Pointer block is ever built around a null raw
    pointer; only then does a null [pointer] force a null block. *)
Definition good (strict : bool) (h : SharedPtr) : Prop :=
  (control_block h = None → pointer h = None) ∧
  (strict = true → pointer h = None → control_block h = None).

(** Under [strict] no block answers a null address to [get_pointer]. *)
Definition heap_ok (strict : bool) (s : State) : Prop :=
  strict = true →
  ∀ b blk, heap s !! b = Some (Block blk) → block_pointee b blk ≠ None.

(** A computation that preserves [heap_ok]. *)
Definition keeps (strict : bool) {A} (f : M A) : Prop :=
  ∀ s a s', heap_ok strict s → f s = Ok a s' → heap_ok strict s'.

(** The raw pointers a program hands to the library are not null. *)
Definition raw_nonnull (op : Op) : Prop :=
  match op with
  | FromRaw p _ _ | ResetTo _ p _ => p ≠ None
  | _ => True
  end.

(** The invariant of a program with respect to nullness. *)
Definition null_inv (strict : bool) (m : Machine) : Prop :=
  heap_ok strict (store m) ∧ Forall (good strict) (owning m).

(** Following the spec's sentence instead of the source: decrement
    [shared_count]; if it is now 0, destroy the pointee; then, if
    [weak_count] is also 0, free the block.  Kept only to be compared
    with [unlink_shared_pointer_from_the_control_block]. *)
Definition unlink_decrement_first (this : SharedPtr) : M SharedPtr :=
  match control_block this with
  | None => mret this
  | Some b =>
      _ ← decr_shared b;
      blk ← read_block b;
      if shared_count blk =? 0 then
        _ ← destroy_object b;
        blk' ← read_block b;
        _ ← (if weak_count blk' =? 0 then destroy_block b else mret tt);
        mret (mkShared nullptr nullptr)
      else mret (mkShared nullptr nullptr)
  end.


(** *** Programs on many blocks *)

(** How often the pointee of the block at [b] has been destroyed
    without the block having been released since. *)
Definition balance (b : Z) (t : list Event) : Z := destroy_count b t - free_count b t.

(** A heap cell at address [b], together with the [weak_this] member
    [o] of the object embedded at [b], agrees with the numbers [S] of
    Owning Handles and [W] of [WeakPtr] variables that name [b] and with
    the balance [d] of the trace.  A block carries [S] as its
    [shared_count] and is named by some handle; its [weak_count] is [W],
    plus one for the [weak_this] of a live pointee with the mixin; its
    pointee has been destroyed exactly if it has no owner; and for a
    pointee with the mixin the block is an embedded one whose object,
    while it lives, names the block in its [weak_this].  An address
    without a block is named by no handle, and whatever was destroyed
    there has been released. *)
Definition cell_counts (b : Z) (c : option Cell) (o : option WeakPtr) (S W d : Z) : Prop :=
  match c with
  | Some (Block blk) =>
      shared_count blk = S ∧
      weak_count blk = W + (if S =? 0 then 0 else mix) ∧
      0 < S + W ∧
      d = (if S =? 0 then 1 else 0) ∧
      (mixin = true →
         variant blk = ControlBlockEmbeded ∧
         o = (if S =? 0 then None else Some (mkWeak (Some b))))
  | Some RawStorage => False
  | None => S = 0 ∧ W = 0 ∧ d = 0 ∧ (mixin = true → o = None)
  end.

Definition tally (s : State) (cs cw : Z → Z) : Prop :=
  ∀ b, cell_counts b (heap s !! b) (objects s !! embedded_obj b)
         (cs b) (cw b) (balance b (trace s)).

Definition in_range (n : Z) (f : Z → Z) : Prop := ∀ x, 0 ≤ f x ≤ n.

(** The invariant of a program on any number of blocks: every block
    counts the handle variables that name it, and at most [n] variables
    exist. *)
Definition counted (n : Z) (m : Machine) : Prop :=
  tally (store m) (λ b, owners b m) (λ b, weak_vars b m) ∧
  Z.of_nat (length (owning m)) + Z.of_nat (length (weak m)) ≤ n.

Definition step_counted (n : Z) (o : Outcome) : Prop :=
  match o with
  | Done m' => counted (n + 1) m'
  | Raised _ _ => True
  | Stuck f =>
      f = NullDeref ∨ f = NoSuchHandle ∨ f = AllocatorMisuse ∨
      (f = DeadObject ∧ mixin = true)
  end.

(** The programs the invariant is proved for.  [shared_from_this] is a
    member of the mixin, so a program on a pointee type without it has
    no such call.  For a pointee type with the mixin the blocks come
    from the factory: the raw-pointer constructor has no instantiation
    for it. *)
Definition supported (op : Op) : Prop :=
  match op with
  | Handle _ | MakeShared _ _ => True
  | NewObject _ | FromRaw _ _ _ | ResetTo _ _ _ => mixin = false
  | SharedFromThis _ => mixin = true
  end.
(** * Properties *)

(** ** Arithmetic of [size_t] *)

Lemma size_t_wrap_small z : 0 ≤ z < 2 ^ 64 → size_t_wrap z = z.
Proof. intros. unfold size_t_wrap. apply Z.mod_small. lia. Qed.

Lemma pre_incr_small z : 0 ≤ z < 2 ^ 64 - 1 → pre_incr z = z + 1.
Proof. intros. unfold pre_incr. apply size_t_wrap_small. lia. Qed.

Lemma pre_decr_small z : 0 < z < 2 ^ 64 + 1 → pre_decr z = z - 1.
Proof. intros. unfold pre_decr. apply size_t_wrap_small. lia. Qed.

(** ** Counting handles *)

Lemma hit_range b p : 0 ≤ hit b p ≤ 1.
Proof. unfold hit. case_decide; lia. Qed.

Lemma hit_same b : hit b (Some b) = 1.
Proof. unfold hit. by rewrite decide_True. Qed.

Lemma hit_null b : hit b None = 0.
Proof. unfold hit. by rewrite decide_False. Qed.

Lemma refs_nonneg b l : 0 ≤ refs b l.
Proof. induction l as [|p l IH]; simpl; [lia|]. pose proof (hit_range b p). lia. Qed.

Lemma refs_le_length b l : refs b l ≤ Z.of_nat (length l).
Proof.
  induction l as [|p l IH]; [simpl; lia|].
  cbn [refs length]. pose proof (hit_range b p). lia.
Qed.

Lemma refs_app b l1 l2 : refs b (l1 ++ l2) = refs b l1 + refs b l2.
Proof. induction l1 as [|p l1 IH]; cbn [refs app]; [lia|]. rewrite IH. lia. Qed.

Lemma refs_insert b (l : list ptr) i p q :
  l !! i = Some p →
  refs b (<[i := q]> l) = refs b l - hit b p + hit b q.
Proof.
  revert i. induction l as [|x l IH]; intros [|i] H; try done.
  - injection H as ->. cbn [refs]. simpl. lia.
  - cbn [refs]. simpl. simpl in H. rewrite (IH i H). lia.
Qed.

Lemma refs_lookup_pos b (l : list ptr) i : l !! i = Some (Some b) → 0 < refs b l.
Proof.
  revert i. induction l as [|x l IH]; intros [|i] H; try done.
  - injection H as ->. cbn [refs]. rewrite hit_same. pose proof (refs_nonneg b l). lia.
  - simpl in H. specialize (IH i H). cbn [refs]. pose proof (hit_range b x). lia.
Qed.

(** ** Running the primitives *)

Ltac mcbv :=
  cbv [mbind M_bind mret M_ret throw undefined deref read_block write_block emit
       incr_shared decr_shared incr_weak decr_weak allocate release_storage
       destroy_block read_weak_this write_weak_this end_object begin_object
       put_cell drop_cell log put_object drop_object
       WeakPtr_swap SharedPtr_swap SharedPtr_move SharedPtr_move_conv WeakPtr_move];
  cbn [heap objects trace shared_count weak_count variant control_block pointer
       weak_block].

Ltac mlookup :=
  first [ rewrite lookup_insert_eq
        | rewrite lookup_insert_ne by congruence
        | rewrite lookup_delete_eq
        | rewrite lookup_delete_ne by congruence
        | rewrite lookup_singleton_eq
        | rewrite lookup_empty
        | match goal with H : _ !! _ = _ |- _ => rewrite H end ].

Lemma bind_eq {A B} (f : M A) (g : A → M B) s :
  (f ≫= g) s = match f s with
               | Ok a s1 => g a s1
               | Throw e s1 => Throw e s1
               | Undefined u => Undefined u
               end.
Proof. reflexivity. Qed.

Ltac mrun := repeat (mcbv; try mlookup).

Ltac mcbv_in H :=
  cbv [mbind M_bind mret M_ret throw undefined deref read_block write_block emit
       incr_shared decr_shared incr_weak decr_weak allocate release_storage
       destroy_block read_weak_this write_weak_this end_object begin_object
       put_cell drop_cell log put_object drop_object
       WeakPtr_swap SharedPtr_swap SharedPtr_move SharedPtr_move_conv WeakPtr_move] in H;
  cbn [heap objects trace shared_count weak_count variant control_block pointer
       weak_block] in H.

Lemma unlink_weak_null w s :
  weak_block w = None → unlink_weak_pointer_from_the_control_block w s = Ok w s.
Proof. intros H. unfold unlink_weak_pointer_from_the_control_block. by rewrite H. Qed.

Lemma unlink_weak_live w s b blk :
  weak_block w = Some b → heap s !! b = Some (Block blk) →
  unlink_weak_pointer_from_the_control_block w s = Ok (mkWeak None) (after_unlink_weak b blk s).
Proof.
  intros Hw Hb. destruct s as [h o t]. cbn [heap] in Hb.
  unfold unlink_weak_pointer_from_the_control_block, after_unlink_weak. rewrite Hw.
  mrun. destruct (_ && _); mrun; done.
Qed.

Lemma unlink_weak_dangling w s b :
  weak_block w = Some b → block_live b s = false →
  unlink_weak_pointer_from_the_control_block w s = Undefined DanglingBlock.
Proof.
  intros Hw Hb. unfold block_live in Hb.
  unfold unlink_weak_pointer_from_the_control_block. rewrite Hw. mcbv.
  destruct (heap s !! b) as [[|?]|]; done.
Qed.

Lemma unlink_shared_null this s :
  control_block this = None →
  unlink_shared_pointer_from_the_control_block this s = Ok this s.
Proof. intros H. unfold unlink_shared_pointer_from_the_control_block. by rewrite H. Qed.

Lemma unlink_shared_many this s b blk :
  control_block this = Some b → heap s !! b = Some (Block blk) → 1 < shared_count blk →
  unlink_shared_pointer_from_the_control_block this s =
    Ok empty_shared
       (put_cell b (Block (mkBlock (pre_decr (shared_count blk)) (weak_count blk) (variant blk))) s).
Proof.
  intros Hc Hb Hn. destruct s as [h o t]. cbn [heap] in Hb.
  unfold unlink_shared_pointer_from_the_control_block. rewrite Hc. mrun.
  destruct (Z.ltb_spec 1 (shared_count blk)); [|lia]. mrun. done.
Qed.

Lemma copy_ctor_null conv other s :
  control_block other = None →
  copy_ctor conv other s = Ok (fst (move_ctor conv other)) s.
Proof.
  intros H. destruct other as [c p]. cbn [control_block] in H. subst c.
  destruct conv; reflexivity.
Qed.

Lemma copy_ctor_live conv other s b blk :
  control_block other = Some b → heap s !! b = Some (Block blk) →
  copy_ctor conv other s =
    Ok (fst (move_ctor conv other))
       (put_cell b (Block (mkBlock (pre_incr (shared_count blk)) (weak_count blk) (variant blk))) s).
Proof.
  intros Hc Hb. destruct s as [h o t], other as [c p]. cbn [heap control_block] in *. subst c.
  destruct conv; unfold copy_ctor, SharedPtr_copy, SharedPtr_copy_conv; mrun; done.
Qed.

Lemma weak_from_shared_null arg s :
  control_block arg = None → WeakPtr_from_shared arg s = Undefined NullDeref.
Proof.
  intros H. unfold WeakPtr_from_shared, SharedPtr_copy. rewrite H. reflexivity.
Qed.

Lemma weak_from_shared_live arg s b blk :
  control_block arg = Some b → heap s !! b = Some (Block blk) →
  1 ≤ shared_count blk < 2 ^ 64 - 1 →
  WeakPtr_from_shared arg s =
    Ok (mkWeak (Some b))
       (put_cell b (Block (mkBlock (shared_count blk) (pre_incr (weak_count blk)) (variant blk))) s).
Proof.
  intros Hc Hb Hn. destruct s as [h o t]. cbn [heap] in Hb.
  unfold WeakPtr_from_shared, SharedPtr_copy,
    unlink_shared_pointer_from_the_control_block. rewrite Hc. mrun.
  rewrite (pre_incr_small (shared_count blk)) by lia.
  destruct (Z.ltb_spec 1 (shared_count blk + 1)); [|lia]. mrun.
  rewrite pre_decr_small by lia. rewrite !insert_insert_eq.
  replace (shared_count blk + 1 - 1) with (shared_count blk) by lia. done.
Qed.

Lemma weak_copy_null other s :
  weak_block other = None → WeakPtr_copy other s = Undefined NullDeref.
Proof. intros H. unfold WeakPtr_copy. rewrite H. reflexivity. Qed.

Lemma weak_copy_live other s b blk :
  weak_block other = Some b → heap s !! b = Some (Block blk) →
  WeakPtr_copy other s =
    Ok (mkWeak (Some b))
       (put_cell b (Block (mkBlock (shared_count blk) (pre_incr (weak_count blk)) (variant blk))) s).
Proof.
  intros Hc Hb. destruct s as [h o t]. cbn [heap] in Hb.
  unfold WeakPtr_copy. rewrite Hc. mrun. done.
Qed.

Lemma expired_null this s : weak_block this = None → WeakPtr_expired this s = Ok true s.
Proof. intros H. unfold WeakPtr_expired. by rewrite H. Qed.

Lemma expired_live this s b blk :
  weak_block this = Some b → heap s !! b = Some (Block blk) →
  WeakPtr_expired this s = Ok (shared_count blk =? 0) s.
Proof. intros H Hb. unfold WeakPtr_expired. rewrite H. mrun. done. Qed.

Lemma get_pointer_live s b blk :
  heap s !! b = Some (Block blk) →
  get_pointer b s = Ok (block_pointee b blk) s.
Proof. intros Hb. unfold get_pointer, block_pointee. mrun. by destruct (variant blk). Qed.

(** ** The private constructor *)

Lemma block_live_true b s :
  block_live b s = true → ∃ blk, heap s !! b = Some (Block blk).
Proof. unfold block_live. destruct (heap s !! b) as [[|blk]|]; try done. eauto. Qed.

Lemma attach_plain p b s blk :
  mixin = false → heap s !! b = Some (Block blk) →
  SharedPtr_attach p (Some b) s =
    Ok (mkShared (Some b) p)
       (put_cell b (Block (mkBlock (pre_incr (shared_count blk)) (weak_count blk) (variant blk))) s).
Proof.
  intros Hm Hb. destruct s as [h o t]. cbn [heap] in Hb.
  unfold SharedPtr_attach. rewrite Hm. mrun. done.
Qed.

Lemma attach_spec p b s blk :
  heap s !! b = Some (Block blk) →
  0 ≤ shared_count blk < 2 ^ 64 - 2 →
  wired_ok p s →
  ∃ s' blk',
    SharedPtr_attach p (Some b) s = Ok (mkShared (Some b) p) s' ∧
    heap s' !! b = Some (Block blk') ∧
    shared_count blk' = shared_count blk + 1 ∧
    variant blk' = variant blk ∧
    (mixin = true → ∃ o, p = Some o ∧ objects s' !! o = Some (mkWeak (Some b))).
Proof.
  intros Hb Hn Hw. destruct mixin eqn:Hm.
  2:{ eexists _, _. rewrite (attach_plain p b s blk) by done.
      split; [done|]. cbn [put_cell heap]. rewrite lookup_insert_eq.
      split; [done|]. cbn [shared_count variant].
      rewrite pre_incr_small by lia. done. }
  destruct (Hw Hm) as (o & w & -> & Ho & Hwb). clear Hw.
  destruct s as [h ob t]. cbn [heap objects] in *.
  unfold SharedPtr_attach, WeakPtr_assign_shared. rewrite Hm. mrun.
  rewrite pre_incr_small by lia.
  erewrite weak_from_shared_live; [| reflexivity | cbn [heap]; apply lookup_insert_eq
                                   | cbn [shared_count]; lia].
  mrun.
  assert (Hfin : ∀ s' blk',
    heap s' !! b = Some (Block blk') → shared_count blk' = shared_count blk + 1 →
    variant blk' = variant blk → objects s' !! o = Some (mkWeak (Some b)) →
    ∃ s'' blk'', Ok (mkShared (Some b) (Some o)) s' = Ok (mkShared (Some b) (Some o)) s'' ∧
      heap s'' !! b = Some (Block blk'') ∧ shared_count blk'' = shared_count blk + 1 ∧
      variant blk'' = variant blk ∧
      (true = true → ∃ o0, Some o = Some o0 ∧ objects s'' !! o0 = Some (mkWeak (Some b)))).
  { intros s' blk' H1 H2 H3 H4. exists s', blk'. repeat split; try done. intros _. eauto. }
  destruct Hwb as [Hnull | (b0 & Hb0 & Hlive)].
  - rewrite unlink_weak_null by done. mrun.
    eapply Hfin; cbn [heap objects]; rewrite ?lookup_insert_eq; done.
  - apply block_live_true in Hlive as (blk0 & Hblk0). cbn [heap] in Hblk0.
    destruct (decide (b0 = b)) as [->|Hne].
    + erewrite unlink_weak_live; [| done | cbn [heap]; apply lookup_insert_eq].
      unfold after_unlink_weak. cbn [shared_count weak_count variant].
      destruct (Z.eqb_spec (shared_count blk + 1) 0); [lia|]. cbn [andb]. mrun.
      eapply Hfin; cbn [heap objects]; rewrite ?lookup_insert_eq; done.
    + erewrite unlink_weak_live; [| done | cbn [heap]; rewrite !lookup_insert_ne by done; done].
      unfold after_unlink_weak.
      destruct (_ && _); mrun.
      * eapply Hfin; cbn [heap objects];
          rewrite ?lookup_delete_ne, ?lookup_insert_ne, ?lookup_insert_eq by done; done.
      * eapply Hfin; cbn [heap objects];
          rewrite ?lookup_insert_ne, ?lookup_insert_eq by done; done.
Qed.

(** ** [lock] and [shared_from_this] *)

Lemma use_count_live h s b blk :
  control_block h = Some b → heap s !! b = Some (Block blk) →
  SharedPtr_use_count h s = Ok (shared_count blk) s.
Proof. intros Hc Hb. unfold SharedPtr_use_count. rewrite Hc. mrun. done. Qed.

Lemma weak_use_count_live w s b blk :
  weak_block w = Some b → heap s !! b = Some (Block blk) →
  WeakPtr_use_count w s = Ok (shared_count blk) s.
Proof. intros Hc Hb. unfold WeakPtr_use_count. rewrite Hc. mrun. done. Qed.

Lemma lock_expired this s :
  WeakPtr_expired this s = Ok true s → WeakPtr_lock this s = Ok empty_shared s.
Proof. intros H. unfold WeakPtr_lock. mcbv. rewrite H. done. Qed.

Lemma lock_live this s b blk :
  weak_block this = Some b → heap s !! b = Some (Block blk) →
  0 < shared_count blk < 2 ^ 64 - 2 →
  wired_ok (block_pointee b blk) s →
  ∃ s' blk',
    WeakPtr_lock this s = Ok (mkShared (Some b) (block_pointee b blk)) s' ∧
    heap s' !! b = Some (Block blk') ∧
    shared_count blk' = shared_count blk + 1 ∧
    variant blk' = variant blk ∧
    (mixin = true →
       ∃ o, block_pointee b blk = Some o ∧ objects s' !! o = Some (mkWeak (Some b))).
Proof.
  intros Hw Hb Hn Hp.
  destruct (attach_spec (block_pointee b blk) b s blk) as (s' & blk' & Ha & Hrest);
    [done | lia | done |].
  exists s', blk'. split; [|done].
  unfold WeakPtr_lock. mcbv. rewrite (expired_live this s b blk) by done.
  destruct (Z.eqb_spec (shared_count blk) 0); [lia|].
  rewrite Hw. rewrite (get_pointer_live s b blk) by done. exact Ha.
Qed.

Lemma shared_from_this_live p s b blk :
  objects s !! p = Some (mkWeak (Some b)) →
  heap s !! b = Some (Block blk) →
  0 < shared_count blk < 2 ^ 64 - 2 →
  block_pointee b blk = Some p →
  ∃ s' blk',
    shared_from_this p s = Ok (mkShared (Some b) (Some p)) s' ∧
    heap s' !! b = Some (Block blk') ∧
    shared_count blk' = shared_count blk + 1 ∧
    variant blk' = variant blk.
Proof.
  intros Ho Hb Hn Hp.
  destruct (lock_live (mkWeak (Some b)) s b blk) as (s' & blk' & Hl & H1 & H2 & H3 & _);
    [done | done | lia | |].
  { intros _. exists p, (mkWeak (Some b)). split; [done|]. split; [done|].
    right. exists b. split; [done|]. unfold block_live. by rewrite Hb. }
  exists s', blk'. split; [|done].
  unfold shared_from_this. mcbv. rewrite Ho.
  rewrite (expired_live (mkWeak (Some b)) s b blk) by done.
  destruct (Z.eqb_spec (shared_count blk) 0); [lia|].
  rewrite Hl, Hp. done.
Qed.

(** C5.  [lock()] on a Non-owning Handle whose block still has owners
    returns an Owning Handle on the same block and [use_count] is one
    more than just before the call; on an empty handle, or on one whose
    block has no owner left, it returns the empty Owning Handle and
    leaves the store, hence every counter, as it was. *)
Theorem lock_spec (this : WeakPtr) (s : State) :
  (∀ b blk,
     weak_block this = Some b → heap s !! b = Some (Block blk) →
     0 < shared_count blk < 2 ^ 64 - 2 →
     wired_ok (block_pointee b blk) s →
     ∃ h s',
       WeakPtr_lock this s = Ok h s' ∧
       control_block h = weak_block this ∧
       WeakPtr_use_count this s = Ok (shared_count blk) s ∧
       SharedPtr_use_count h s' = Ok (shared_count blk + 1) s' ∧
       WeakPtr_use_count this s' = Ok (shared_count blk + 1) s') ∧
  (weak_block this = None → WeakPtr_lock this s = Ok empty_shared s) ∧
  (∀ b blk,
     weak_block this = Some b → heap s !! b = Some (Block blk) →
     shared_count blk = 0 →
     WeakPtr_lock this s = Ok empty_shared s).
Proof.
  split; [|split].
  - intros b blk Hw Hb Hn Hp.
    destruct (lock_live this s b blk) as (s' & blk' & Hl & H1 & H2 & _); try done.
    eexists _, s'. split; [exact Hl|]. split; [by rewrite Hw|].
    split; [by apply (weak_use_count_live this s b blk)|].
    rewrite <- H2. split.
    + by apply (use_count_live _ s' b blk').
    + by apply (weak_use_count_live this s' b blk').
  - intros Hw. apply lock_expired. by apply expired_null.
  - intros b blk Hw Hb Hz. apply lock_expired.
    rewrite (expired_live this s b blk) by done. by rewrite Hz.
Qed.

(** ** Who throws *)

Lemma throws_only_ret {A} P (a : A) : throws_only P (mret a).
Proof. intros s e s' H. discriminate. Qed.

Lemma throws_only_bind {A B} P (f : M A) (g : A → M B) :
  throws_only P f → (∀ a, throws_only P (g a)) → throws_only P (f ≫= g).
Proof.
  intros Hf Hg s e s' H. unfold mbind, M_bind in H.
  destruct (f s) as [a s1|e1 s1|u] eqn:E; try discriminate.
  - by eapply Hg.
  - injection H as -> ->. by eapply Hf.
Qed.

Lemma throws_only_prim {A} P (f : M A) :
  (∀ s, match f s with Throw _ _ => False | _ => True end) → throws_only P f.
Proof. intros Hf s e s' H. specialize (Hf s). by rewrite H in Hf. Qed.

Lemma throws_deref P p : throws_only P (deref p).
Proof. apply throws_only_prim. intros s. by destruct p. Qed.

Lemma throws_read_block P b : throws_only P (read_block b).
Proof.
  apply throws_only_prim. intros s. unfold read_block.
  by destruct (heap s !! b) as [[|?]|].
Qed.

Lemma throws_write_block P b blk : throws_only P (write_block b blk).
Proof. by apply throws_only_prim. Qed.

Lemma throws_emit P ev : throws_only P (emit ev).
Proof. by apply throws_only_prim. Qed.

Lemma throws_release_storage P b : throws_only P (release_storage b).
Proof. by apply throws_only_prim. Qed.

Lemma throws_read_weak_this P p : throws_only P (read_weak_this p).
Proof.
  apply throws_only_prim. intros s. unfold read_weak_this. by destruct (objects s !! p).
Qed.

Lemma throws_write_weak_this P p w : throws_only P (write_weak_this p w).
Proof.
  apply throws_only_prim. intros s. unfold write_weak_this. by destruct (objects s !! p).
Qed.

Lemma throws_end_object P p : throws_only P (end_object p).
Proof. by apply throws_only_prim. Qed.

Lemma throws_begin_object P p : throws_only P (begin_object p).
Proof. by apply throws_only_prim. Qed.

Lemma throws_undefined {A} P u : throws_only P (@undefined A u).
Proof. by apply throws_only_prim. Qed.

Lemma throws_throw {A} (P : Exn → Prop) e : P e → throws_only P (@throw A e).
Proof. intros HP s e' s' H. by injection H as <- _. Qed.

Lemma throws_allocate (P : Exn → Prop) answer : P bad_alloc → throws_only P (allocate answer).
Proof.
  intros HP s e s' H. unfold allocate in H. destruct answer as [a|].
  - by destruct (heap s !! a).
  - by injection H as <- _.
Qed.

Create HintDb throws.

#[local] Hint Resolve throws_deref throws_read_block throws_write_block throws_emit
  throws_release_storage throws_read_weak_this throws_write_weak_this
  throws_end_object throws_begin_object throws_undefined throws_throw
  throws_allocate : throws.

Ltac throws_step :=
  match goal with
  | |- throws_only _ (mret _) => apply throws_only_ret
  | |- throws_only _ (_ ≫= _) => apply throws_only_bind; [|intros ?]
  | |- throws_only _ (if ?b then _ else _) => destruct b
  | |- throws_only _ (match ?x with _ => _ end) => destruct x
  | |- throws_only _ _ => solve [eauto with throws]
  end.

Ltac throws_auto := repeat throws_step.

Lemma throws_incr_shared P b : throws_only P (incr_shared b).
Proof. unfold incr_shared. throws_auto. Qed.

Lemma throws_decr_shared P b : throws_only P (decr_shared b).
Proof. unfold decr_shared. throws_auto. Qed.

Lemma throws_incr_weak P b : throws_only P (incr_weak b).
Proof. unfold incr_weak. throws_auto. Qed.

Lemma throws_decr_weak P b : throws_only P (decr_weak b).
Proof. unfold decr_weak. throws_auto. Qed.

Lemma throws_destroy_block P b : throws_only P (destroy_block b).
Proof. unfold destroy_block. throws_auto. Qed.

#[local] Hint Resolve throws_incr_shared throws_decr_shared throws_incr_weak
  throws_decr_weak throws_destroy_block : throws.

Lemma throws_unlink_weak P w :
  throws_only P (unlink_weak_pointer_from_the_control_block w).
Proof. unfold unlink_weak_pointer_from_the_control_block. throws_auto. Qed.
#[local] Hint Resolve throws_unlink_weak : throws.

Lemma throws_destroy_pointee P p : throws_only P (destroy_pointee p).
Proof. unfold destroy_pointee. throws_auto. Qed.
#[local] Hint Resolve throws_destroy_pointee : throws.

Lemma throws_destroy_object P b : throws_only P (destroy_object b).
Proof. unfold destroy_object, run_deleter. throws_auto. Qed.
#[local] Hint Resolve throws_destroy_object : throws.

Lemma throws_get_pointer P b : throws_only P (get_pointer b).
Proof. unfold get_pointer. throws_auto. Qed.
#[local] Hint Resolve throws_get_pointer : throws.

Lemma throws_unlink_shared P h :
  throws_only P (unlink_shared_pointer_from_the_control_block h).
Proof. unfold unlink_shared_pointer_from_the_control_block. throws_auto. Qed.
#[local] Hint Resolve throws_unlink_shared : throws.

Lemma throws_copy_ctor P conv h : throws_only P (copy_ctor conv h).
Proof.
  destruct conv; cbn [copy_ctor]; unfold SharedPtr_copy, SharedPtr_copy_conv; throws_auto.
Qed.
#[local] Hint Resolve throws_copy_ctor : throws.

Lemma throws_weak_from_shared P h : throws_only P (WeakPtr_from_shared h).
Proof.
  unfold WeakPtr_from_shared. throws_auto. apply (throws_copy_ctor P None).
Qed.
#[local] Hint Resolve throws_weak_from_shared : throws.

Lemma throws_weak_assign_shared P w h : throws_only P (WeakPtr_assign_shared w h).
Proof. unfold WeakPtr_assign_shared, WeakPtr_swap. throws_auto. Qed.
#[local] Hint Resolve throws_weak_assign_shared : throws.

Lemma throws_attach P p cb : throws_only P (SharedPtr_attach p cb).
Proof. unfold SharedPtr_attach. throws_auto. Qed.
#[local] Hint Resolve throws_attach : throws.

Lemma throws_copy_assign P conv same this other :
  throws_only P (copy_assign conv same this other).
Proof.
  destruct conv; cbn [copy_assign];
    unfold SharedPtr_assign, SharedPtr_assign_conv, SharedPtr_swap;
    throws_auto.
Qed.
#[local] Hint Resolve throws_copy_assign : throws.

Lemma throws_weak_copy P w : throws_only P (WeakPtr_copy w).
Proof. unfold WeakPtr_copy. throws_auto. Qed.
#[local] Hint Resolve throws_weak_copy : throws.

Lemma throws_weak_assign P same this other : throws_only P (WeakPtr_assign same this other).
Proof. unfold WeakPtr_assign, WeakPtr_assign_conv, WeakPtr_swap. throws_auto. Qed.
#[local] Hint Resolve throws_weak_assign : throws.

Lemma throws_expired P w : throws_only P (WeakPtr_expired w).
Proof. unfold WeakPtr_expired. throws_auto. Qed.
#[local] Hint Resolve throws_expired : throws.

Lemma throws_lock P w : throws_only P (WeakPtr_lock w).
Proof. unfold WeakPtr_lock. throws_auto. Qed.
#[local] Hint Resolve throws_lock : throws.

Lemma throws_shared_from_this p : throws_only (λ e, e = bad_weak_ptr) (shared_from_this p).
Proof. unfold shared_from_this. throws_auto. Qed.

Lemma throws_from_raw gp del answer :
  throws_only (λ e, e = bad_alloc) (SharedPtr_from_raw gp del answer).
Proof. unfold SharedPtr_from_raw. destruct mixin; throws_auto. Qed.

Lemma throws_make_shared answer ctor_ok :
  throws_only (λ e, e = bad_alloc ∨ e = constructor_failure) (makeShared answer ctor_ok).
Proof.
  unfold makeShared, allocateShared, construct_embedded. throws_auto.
Qed.

Lemma exec_raised {A} (f : M A) m k e m' :
  exec f m k = Raised e m' →
  (∃ s', f (store m) = Throw e s') ∨ (∃ a s', f (store m) = Ok a s' ∧ k a s' = Raised e m').
Proof.
  unfold exec. destruct (f (store m)) as [a s|e0 s|u]; intros H; try discriminate.
  - right. eauto.
  - left. injection H as -> _. eauto.
Qed.

Ltac no_raise :=
  repeat match goal with
  | H : with_owning _ _ _ = Raised _ _ |- _ =>
      unfold with_owning in H; cbn [owning weak store] in H
  | H : with_weak _ _ _ = Raised _ _ |- _ =>
      unfold with_weak in H; cbn [owning weak store] in H
  | H : match ?x with _ => _ end = Raised _ _ |- _ => destruct x eqn:?; try discriminate
  | H : exec _ _ _ = Raised _ _ |- _ =>
      apply exec_raised in H as [[? H]|(? & ? & _ & H)];
      [ exfalso; revert H;
        first [ apply (throws_unlink_shared (λ _, False))
              | apply (throws_unlink_weak (λ _, False))
              | apply (throws_copy_ctor (λ _, False))
              | apply (throws_copy_assign (λ _, False))
              | apply (throws_weak_from_shared (λ _, False))
              | apply (throws_weak_copy (λ _, False))
              | apply (throws_weak_assign (λ _, False))
              | apply (throws_weak_assign_shared (λ _, False))
              | apply (throws_lock (λ _, False)) ]
      | ]
  | H : Done _ = Raised _ _ |- _ => discriminate
  end.

Lemma step_handle_no_raise op m e m' : step_handle op m ≠ Raised e m'.
Proof.
  intros H. destruct op; cbn [step_handle] in H;
    unfold move_assign, move_assign_conv, weak_move_assign_conv in H;
    no_raise.
Qed.

Lemma step_raised op m e m' :
  step op m = Raised e m' →
  (e = bad_weak_ptr ∧ ∃ p, op = SharedFromThis p) ∨
  ((e = bad_alloc ∨ e = constructor_failure) ∧ creates op).
Proof.
  intros H. destruct op as [h|p|answer ok|p del answer|i p answer|p];
    cbn [step] in H.
  - by apply step_handle_no_raise in H.
  - destruct mixin; [|discriminate].
    apply exec_raised in H as [[s' H]|(? & ? & _ & H)]; [|discriminate].
    exfalso. revert H. apply (throws_begin_object (λ _, False)).
  - apply exec_raised in H as [[s' H]|(? & ? & _ & H)]; [|discriminate].
    right. split; [|done]. revert H. apply throws_make_shared.
  - apply exec_raised in H as [[s' H]|(? & ? & _ & H)]; [|discriminate].
    right. split; [|done]. left. revert H. apply throws_from_raw.
  - unfold reset_to, with_owning in H. destruct (owning m !! i); [|discriminate].
    apply exec_raised in H as [[s' H]|(? & ? & _ & H)].
    + right. split; [|done]. left. revert H. apply throws_from_raw.
    + mcbv_in H. exfalso.
      apply exec_raised in H as [[s' H]|(? & ? & _ & H)].
      { revert H. apply (throws_unlink_shared (λ _, False)). }
      apply exec_raised in H as [[s' H]|(? & ? & _ & H)]; [|discriminate].
      revert H. apply (throws_unlink_shared (λ _, False)).
  - apply exec_raised in H as [[s' H]|(? & ? & _ & H)]; [|discriminate].
    left. split; [|eauto]. revert H. apply throws_shared_from_this.
Qed.

Lemma from_raw_plain gp del a s :
  mixin = false → heap s !! a = None →
  SharedPtr_from_raw gp del (Some a) s =
    Ok (mkShared (Some a) gp)
       (put_cell a (Block (mkBlock 1 0 (ControlBlockFromPointer del gp))) s).
Proof.
  intros Hm Ha. destruct s as [h o t]. cbn [heap] in Ha.
  assert (H1 : pre_incr 0 = 1) by (apply (pre_incr_small 0); lia).
  unfold SharedPtr_from_raw. rewrite Hm. mrun. rewrite H1.
  by rewrite !insert_insert_eq.
Qed.

Lemma from_raw_mixin gp del answer s :
  mixin = true → SharedPtr_from_raw gp del answer s = Undefined IllFormed.
Proof. intros Hm. unfold SharedPtr_from_raw. by rewrite Hm. Qed.

(** C3.  For a pointee without the mixin, construction from a raw
    pointer makes an External-Pointer block in the storage the allocator
    hands out, around the given pointer and deleter, with [shared_count]
    one and [weak_count] zero when the constructor returns, and touches
    nothing else.  For a pointee with the mixin there is no such
    constructor: its body holds [pointer->weak_this = control_block],
    and a [WeakPtr] cannot be assigned a block pointer, so neither the
    constructor nor [reset(p)] can be called and no self-handle is ever
    bound to an External-Pointer block. *)
Theorem from_raw_spec (given_pointer : ptr) (del : Deleter) :
  (mixin = false →
   ∀ a s, heap s !! a = None →
     ∃ h s' blk,
       SharedPtr_from_raw given_pointer del (Some a) s = Ok h s' ∧
       control_block h = Some a ∧
       pointer h = given_pointer ∧
       heap s' = <[a := Block blk]> (heap s) ∧
       objects s' = objects s ∧
       trace s' = trace s ∧
       variant blk = ControlBlockFromPointer del given_pointer ∧
       shared_count blk = 1 ∧
       weak_count blk = 0 ∧
       SharedPtr_use_count h s' = Ok 1 s' ∧
       SharedPtr_arrow h s' = Ok given_pointer s') ∧
  (mixin = true →
   (∀ answer s, SharedPtr_from_raw given_pointer del answer s = Undefined IllFormed) ∧
   (∀ answer m, step (FromRaw given_pointer del answer) m = Stuck IllFormed) ∧
   (∀ i answer m,
      is_Some (owning m !! i) →
      step (ResetTo i given_pointer answer) m = Stuck IllFormed)).
Proof.
  split.
  - intros Hm a s Ha. rewrite (from_raw_plain given_pointer del a s Hm Ha).
    eexists _, _, _. split; [reflexivity|]. cbn [control_block pointer put_cell heap objects trace].
    split; [done|]. split; [done|]. split; [done|]. split; [done|]. split; [done|].
    cbn [variant shared_count weak_count]. split; [done|]. split; [done|]. split; [done|].
    split.
    + unfold SharedPtr_use_count. mcbv. by rewrite lookup_insert_eq.
    + unfold SharedPtr_arrow, get_pointer. mcbv. by rewrite lookup_insert_eq.
  - intros Hm. split; [|split].
    + intros answer s. by apply from_raw_mixin.
    + intros answer m. cbn [step]. unfold exec. by rewrite from_raw_mixin.
    + intros i answer m [this Hi]. cbn [step]. unfold reset_to, with_owning. rewrite Hi.
      unfold exec, SharedPtr_from_raw_default. by rewrite from_raw_mixin.
Qed.

(** ** Failing allocations *)

Lemma make_shared_throw answer ok s e s' :
  makeShared answer ok s = Throw e s' →
  (e = bad_alloc ∧ answer = None ∧ s' = s) ∨
  (e = constructor_failure ∧ ok = false ∧
   ∃ a, answer = Some a ∧ heap s !! a = None ∧ s' = put_cell a RawStorage s).
Proof.
  unfold makeShared, allocateShared. intros H.
  destruct answer as [a|]; [|left; by injection H as <- <-].
  right. rewrite bind_eq in H. unfold allocate in H.
  destruct (heap s !! a) eqn:Ha; [discriminate|].
  rewrite bind_eq in H. unfold construct_embedded in H. destruct ok.
  - exfalso.
    match type of H with
    | match ?c with _ => _ end = _ => destruct c as [x s1|e1 s1|u] eqn:Hc
    end; try discriminate.
    + revert H. apply (throws_attach (λ _, False)).
    + revert Hc. apply (throws_only_bind (λ _, False)); [throws_auto|intros; throws_auto].
  - injection H as <- <-. eauto 10.
Qed.

Lemma from_raw_throw gp del answer s e s' :
  SharedPtr_from_raw gp del answer s = Throw e s' →
  e = bad_alloc ∧ answer = None ∧ s' = s.
Proof.
  unfold SharedPtr_from_raw. destruct mixin; [discriminate|]. intros H.
  destruct answer as [a|]; [|by injection H as <- <-].
  exfalso. rewrite bind_eq in H. unfold allocate in H.
  destruct (heap s !! a) eqn:Ha; [discriminate|].
  revert H. generalize (put_cell a RawStorage s). intros s1.
  apply (throws_only_bind (λ _, False)); [throws_auto|intros].
  apply (throws_only_bind (λ _, False)); [throws_auto|intros]. throws_auto.
Qed.

(** C7, amended.  A failed allocation surfaces as [bad_alloc] and leaves
    the store and the program's handles exactly as they were, for the
    factories and for the raw-pointer constructor (which exists for a
    pointee without the mixin).  When the pointee's
    constructor fails after the allocation, the exception surfaces too
    and no block, object or handle comes into being, but the storage the
    allocator handed out stays allocated. *)
Theorem allocation_failure_spec :
  (∀ ok s, allocateShared None ok s = Throw bad_alloc s) ∧
  (∀ ok s, makeShared None ok s = Throw bad_alloc s) ∧
  (mixin = false → ∀ gp del s, SharedPtr_from_raw gp del None s = Throw bad_alloc s) ∧
  (∀ ok m, step (MakeShared None ok) m = Raised bad_alloc m) ∧
  (mixin = false → ∀ gp del m, step (FromRaw gp del None) m = Raised bad_alloc m) ∧
  (∀ gp del answer s e s',
     SharedPtr_from_raw gp del answer s = Throw e s' →
     e = bad_alloc ∧ answer = None ∧ s' = s) ∧
  (∀ answer ok s e s',
     makeShared answer ok s = Throw e s' →
     (e = bad_alloc ∧ answer = None ∧ s' = s) ∨
     (e = constructor_failure ∧ ok = false ∧
      ∃ a, answer = Some a ∧ heap s !! a = None ∧ s' = put_cell a RawStorage s)) ∧
  (∀ a s,
     heap s !! a = None →
     makeShared (Some a) false s = Throw constructor_failure (put_cell a RawStorage s)).
Proof.
  split; [|split; [|split; [|split; [|split; [|split; [|split]]]]]].
  - reflexivity.
  - reflexivity.
  - intros Hm gp del s. unfold SharedPtr_from_raw. by rewrite Hm.
  - by intros ok [s o w].
  - intros Hm gp del [s o w]. cbn [step]. unfold exec, SharedPtr_from_raw. by rewrite Hm.
  - apply from_raw_throw.
  - apply make_shared_throw.
  - intros a s Ha. unfold makeShared, allocateShared. rewrite bind_eq.
    unfold allocate. rewrite Ha. reflexivity.
Qed.

(** ** Moving *)

Lemma move_ctor_eq conv other :
  move_ctor conv other =
    (mkShared (control_block other) (convert conv (pointer other)), empty_shared).
Proof. by destruct conv. Qed.

(** C9, amended.  Move construction leaves the store untouched, gives
    the new handle the source's block and (converted) pointer and empties
    the source.  Move assignment between two different handles does the
    same for the target and then releases what the target held before:
    the resulting store is the one [unlink] of the old target produces,
    so it is the initial store when the target was empty.  Assigning a
    handle to itself changes nothing: the handle keeps what it holds. *)
Theorem move_spec :
  (∀ i conv m other,
     owning m !! i = Some other →
     step_handle (Move i conv) m =
       Done (mkMachine (store m)
               (<[i := empty_shared]> (owning m) ++
                  [mkShared (control_block other) (convert conv (pointer other))])
               (weak m))) ∧
  (∀ i j conv m this other,
     i ≠ j → owning m !! i = Some this → owning m !! j = Some other →
     step_handle (MoveAssign i j conv) m =
       exec (unlink_shared_pointer_from_the_control_block this) m (λ _ s',
         Done (mkMachine s'
                 (<[i := mkShared (control_block other) (convert conv (pointer other))]>
                    (<[j := empty_shared]> (owning m)))
                 (weak m)))) ∧
  (∀ this s e s', unlink_shared_pointer_from_the_control_block this s ≠ Throw e s') ∧
  (∀ this s,
     control_block this = None →
     unlink_shared_pointer_from_the_control_block this s = Ok this s) ∧
  (∀ i m this,
     owning m !! i = Some this → step_handle (MoveAssign i i None) m = Done m).
Proof.
  split; [|split; [|split; [|split]]].
  - intros i conv m other Hi. cbn [step_handle]. unfold with_owning. rewrite Hi.
    by rewrite move_ctor_eq.
  - intros i j conv m this other Hne Hi Hj. cbn [step_handle].
    assert (Hbody : move_assign_conv conv i j m =
      exec (unlink_shared_pointer_from_the_control_block this) m (λ _ s',
        Done (mkMachine s'
                (<[i := mkShared (control_block other) (convert conv (pointer other))]>
                   (<[j := empty_shared]> (owning m)))
                (weak m)))).
    { unfold move_assign_conv, with_owning. rewrite Hj, move_ctor_eq.
      cbn [owning store weak]. rewrite list_lookup_insert_ne by done. rewrite Hi.
      unfold SharedPtr_swap, exec. cbn [store owning weak control_block pointer].
      destruct this as [c p]. cbn [control_block pointer].
      destruct (unlink_shared_pointer_from_the_control_block _ _) as [x s1|e s1|u] eqn:E;
        try done.
      exfalso. revert E. apply (throws_unlink_shared (λ _, False)). }
    unfold move_assign. destruct conv; [done|]. by rewrite decide_False.
  - intros this s e s' H. revert H. apply (throws_unlink_shared (λ _, False)).
  - apply unlink_shared_null.
  - intros i m this Hi. cbn [step_handle]. unfold move_assign.
    rewrite decide_True by done. unfold with_owning. by rewrite Hi.
Qed.

(** ** Dereferencing *)

(** C10.  [operator->] (and [operator*]) of a handle with a block answer
    what the block's [get_pointer] answers, [get] answers the stored
    pointer; after a converting copy or move with a non-zero base offset
    the two differ. *)
Theorem arrow_spec :
  (∀ this s b,
     control_block this = Some b →
     SharedPtr_arrow this s = get_pointer b s ∧ SharedPtr_get this = pointer this) ∧
  (∀ this s b blk,
     control_block this = Some b → heap s !! b = Some (Block blk) →
     SharedPtr_arrow this s = Ok (block_pointee b blk) s) ∧
  (∀ other s b blk o delta,
     control_block other = Some b → heap s !! b = Some (Block blk) →
     block_pointee b blk = Some o → pointer other = Some o → delta ≠ 0 →
     (∃ h s', SharedPtr_copy_conv delta other s = Ok h s' ∧
              SharedPtr_arrow h s' = Ok (Some o) s' ∧
              SharedPtr_get h = Some (o + delta) ∧
              SharedPtr_get h ≠ Some o) ∧
     (let h := fst (SharedPtr_move_conv delta other) in
      SharedPtr_arrow h s = Ok (Some o) s ∧
      SharedPtr_get h = Some (o + delta) ∧
      SharedPtr_get h ≠ Some o)).
Proof.
  split; [|split].
  - intros this s b Hc. unfold SharedPtr_arrow, SharedPtr_get. rewrite Hc. done.
  - intros this s b blk Hc Hb. unfold SharedPtr_arrow. rewrite Hc. mcbv.
    by apply get_pointer_live.
  - intros other s b blk o delta Hc Hb Hp Ho Hd.
    assert (Hne : Some (o + delta) ≠ Some o) by (intros [=]; lia).
    split.
    + change (SharedPtr_copy_conv delta other s) with (copy_ctor (Some delta) other s).
      rewrite (copy_ctor_live (Some delta) other s b blk) by done.
      eexists _, _. split; [reflexivity|].
      cbn [move_ctor SharedPtr_move_conv fst]. unfold SharedPtr_arrow, SharedPtr_get.
      cbn [control_block pointer]. rewrite Ho. cbn [static_cast].
      split; [|done]. rewrite Hc. mcbv.
      erewrite get_pointer_live by (cbn [heap]; apply lookup_insert_eq).
      unfold block_pointee in *. cbn [variant]. by rewrite Hp.
    + cbn [SharedPtr_move_conv fst]. unfold SharedPtr_arrow, SharedPtr_get.
      cbn [control_block pointer]. rewrite Hc, Ho. cbn [static_cast].
      split; [|done]. mcbv. rewrite (get_pointer_live s b blk) by done. by rewrite Hp.
Qed.

(** ** Releasing an Owning Handle *)

Lemma destroy_pointee_spec p s b blk :
  heap s !! b = Some (Block blk) → shared_count blk ≠ 0 →
  match destroy_pointee p s with
  | Ok _ s1 =>
      ∃ blk1 pre,
        heap s1 !! b = Some (Block blk1) ∧
        shared_count blk1 = shared_count blk ∧
        variant blk1 = variant blk ∧
        trace s1 = pre ++ trace s ∧
        destroy_count b pre = 0 ∧ free_count b pre = 0
  | Throw _ _ => False
  | Undefined _ => True
  end.
Proof.
  intros Hb Hn. unfold destroy_pointee. destruct mixin.
  2:{ exists blk, []. done. }
  rewrite bind_eq. unfold read_weak_this. destruct (objects s !! p) as [w|]; [|done].
  rewrite bind_eq. destruct (weak_block w) as [b0|] eqn:Hw.
  - destruct (block_live b0 s) eqn:Hl.
    + apply block_live_true in Hl as (blk0 & Hb0).
      rewrite (unlink_weak_live w s b0 blk0) by done.
      unfold after_unlink_weak, end_object.
      destruct (decide (b0 = b)) as [->|Hne].
      * assert (blk0 = blk) as -> by congruence.
        destruct (Z.eqb_spec (shared_count blk) 0); [done|]. cbn [andb].
        eexists _, []. cbn [drop_object put_cell heap trace].
        rewrite lookup_insert_eq. done.
      * destruct (_ && _).
        -- exists blk, [Deallocate b0].
           cbn [drop_object drop_cell log put_cell heap trace].
           rewrite lookup_delete_ne, lookup_insert_ne by done.
           cbn [destroy_count free_count]. rewrite decide_False by done. done.
        -- exists blk, []. cbn [drop_object put_cell heap trace].
           rewrite lookup_insert_ne by done. done.
    + by rewrite (unlink_weak_dangling w s b0).
  - rewrite (unlink_weak_null w s) by done. exists blk, []. done.
Qed.

Lemma destroy_object_spec b s blk :
  heap s !! b = Some (Block blk) → shared_count blk ≠ 0 →
  match destroy_object b s with
  | Ok _ s1 =>
      ∃ blk1 pre,
        heap s1 !! b = Some (Block blk1) ∧
        shared_count blk1 = shared_count blk ∧
        variant blk1 = variant blk ∧
        trace s1 = pre ++ DestroyObject b (shared_count blk) :: trace s ∧
        destroy_count b pre = 0 ∧ free_count b pre = 0
  | Throw _ _ => False
  | Undefined _ => True
  end.
Proof.
  intros Hb Hn. unfold destroy_object. rewrite bind_eq.
  unfold read_block. rewrite Hb. rewrite bind_eq. unfold emit.
  set (s0 := log (DestroyObject b (shared_count blk)) s).
  assert (Hb0 : heap s0 !! b = Some (Block blk)) by done.
  assert (Hdone : ∃ blk1 pre,
            heap s0 !! b = Some (Block blk1) ∧ shared_count blk1 = shared_count blk ∧
            variant blk1 = variant blk ∧
            trace s0 = pre ++ DestroyObject b (shared_count blk) :: trace s ∧
            destroy_count b pre = 0 ∧ free_count b pre = 0).
  { exists blk, []. done. }
  destruct (variant blk) as [|del pobj] eqn:Hv.
  - pose proof (destroy_pointee_spec (embedded_obj b) s0 b blk Hb0 Hn) as H.
    rewrite Hv in H. exact H.
  - unfold run_deleter. destruct del; [|exact Hdone].
    destruct pobj as [p|]; [|exact Hdone].
    pose proof (destroy_pointee_spec p s0 b blk Hb0 Hn) as H.
    rewrite Hv in H. exact H.
Qed.

Lemma destroy_object_plain b s blk :
  mixin = false → heap s !! b = Some (Block blk) →
  destroy_object b s = Ok tt (log (DestroyObject b (shared_count blk)) s).
Proof.
  intros Hm Hb. unfold destroy_object, run_deleter, destroy_pointee. rewrite Hm.
  rewrite bind_eq. unfold read_block. rewrite Hb.
  destruct (variant blk) as [|[|] [p|]]; reflexivity.
Qed.

Lemma unlink_shared_last this s b blk :
  control_block this = Some b → heap s !! b = Some (Block blk) → shared_count blk ≤ 1 →
  unlink_shared_pointer_from_the_control_block this s =
    match destroy_object b s with
    | Ok _ s1 =>
        match heap s1 !! b with
        | Some (Block blk1) => Ok empty_shared (after_last_owner b blk1 s1)
        | _ => Undefined DanglingBlock
        end
    | Throw e s1 => Throw e s1
    | Undefined u => Undefined u
    end.
Proof.
  intros Hc Hb Hn. unfold unlink_shared_pointer_from_the_control_block. rewrite Hc.
  rewrite bind_eq. unfold read_block at 1. rewrite Hb.
  destruct (Z.ltb_spec 1 (shared_count blk)); [lia|].
  rewrite bind_eq. destruct (destroy_object b s) as [[] s1|e s1|u]; try done.
  destruct s1 as [h1 o1 t1]. unfold after_last_owner. mcbv.
  destruct (h1 !! b) as [[|blk1]|]; try done. mrun.
  destruct (weak_count blk1 =? 0); mrun; done.
Qed.

(** C2, amended.  Releasing an Owning Handle that is not the last one
    only decrements [shared_count].  Releasing the last one destroys the
    pointee first, while [shared_count] still reads 1, then sets
    [shared_count] to 0, then frees the block if [weak_count] is 0 and
    otherwise leaves it in the store with [shared_count] 0. *)
Theorem unlink_shared_spec (this : SharedPtr) (s : State) (b : Z) (blk : BaseControlBlock) :
  control_block this = Some b →
  heap s !! b = Some (Block blk) →
  0 < shared_count blk < 2 ^ 64 →
  (1 < shared_count blk →
     unlink_shared_pointer_from_the_control_block this s =
       Ok empty_shared
          (put_cell b (Block (mkBlock (shared_count blk - 1) (weak_count blk) (variant blk))) s)) ∧
  (shared_count blk = 1 →
     match destroy_object b s with
     | Ok _ s1 =>
         ∃ blk1 pre,
           heap s1 !! b = Some (Block blk1) ∧
           shared_count blk1 = 1 ∧
           trace s1 = pre ++ DestroyObject b 1 :: trace s ∧
           destroy_count b pre = 0 ∧ free_count b pre = 0 ∧
           unlink_shared_pointer_from_the_control_block this s =
             Ok empty_shared
                (if weak_count blk1 =? 0
                 then drop_cell b (log (Deallocate b) s1)
                 else put_cell b (Block (mkBlock 0 (weak_count blk1) (variant blk1))) s1)
     | Throw _ _ => False
     | Undefined u => unlink_shared_pointer_from_the_control_block this s = Undefined u
     end) ∧
  (shared_count blk = 1 → mixin = false →
     destroy_object b s = Ok tt (log (DestroyObject b 1) s)).
Proof.
  intros Hc Hb Hn. split; [|split].
  - intros Hmany. rewrite (unlink_shared_many this s b blk) by done.
    by rewrite pre_decr_small by lia.
  - intros Hone. rewrite (unlink_shared_last this s b blk) by (done || lia).
    pose proof (destroy_object_spec b s blk Hb ltac:(lia)) as Hd.
    destruct (destroy_object b s) as [[] s1|e s1|u]; try done.
    destruct Hd as (blk1 & pre & Hb1 & Hs1 & Hv1 & Ht & Hd0 & Hf0).
    exists blk1, pre. rewrite Hb1, <- Hone, <- Hs1.
    split; [done|]. split; [done|]. split; [by rewrite Hs1|].
    split; [done|]. split; [done|].
    unfold after_last_owner. rewrite Hs1, Hone.
    assert (Hz : pre_decr 1 = 0) by (apply (pre_decr_small 1); lia). rewrite Hz.
    destruct (weak_count blk1 =? 0); [|done].
    f_equal. destruct s1 as [h1 o1 t1].
    unfold drop_cell, log, put_cell. cbn [heap objects trace].
    by rewrite delete_insert_eq.
  - intros Hone Hm. rewrite (destroy_object_plain b s blk) by done. by rewrite Hone.
Qed.

(** ** One block from the factory to its release *)

Lemma mix_range : 0 ≤ mix ≤ 1.
Proof. unfold mix. destruct mixin; lia. Qed.

Lemma lifecycle_owned a k S W :
  0 < S →
  lifecycle_state a k S W =
    mkState {[a := Block (mkBlock S (W + mix) k)]}
            (if mixin then {[embedded_obj a := mkWeak (Some a)]} else ∅) [].
Proof. intros H. unfold lifecycle_state. destruct (Z.ltb_spec 0 S); [done|lia]. Qed.

Lemma lifecycle_expired a k W :
  0 < W →
  lifecycle_state a k 0 W =
    mkState {[a := Block (mkBlock 0 W k)]} ∅ [DestroyObject a 1].
Proof. intros H. unfold lifecycle_state. cbn. destruct (Z.ltb_spec 0 W); [done|lia]. Qed.

Ltac msingle :=
  rewrite ?insert_insert_eq, ?insert_singleton_eq, ?delete_insert_eq,
    ?delete_singleton_eq, ?delete_empty.

Lemma lifecycle_copy a k S W conv other :
  control_block other = Some a → 0 < S < 2 ^ 64 - 1 →
  copy_ctor conv other (lifecycle_state a k S W) =
    Ok (fst (move_ctor conv other)) (lifecycle_state a k (S + 1) W).
Proof.
  intros Hc Hs. rewrite !lifecycle_owned by lia.
  erewrite copy_ctor_live; [| done | cbn [heap]; apply lookup_singleton_eq].
  unfold put_cell. cbn [heap objects trace shared_count weak_count variant].
  msingle. by rewrite pre_incr_small by lia.
Qed.

Lemma lifecycle_weak_from_shared a k S W arg :
  control_block arg = Some a → 0 < S < 2 ^ 64 - 1 → 0 ≤ W < 2 ^ 64 - 2 →
  WeakPtr_from_shared arg (lifecycle_state a k S W) =
    Ok (mkWeak (Some a)) (lifecycle_state a k S (W + 1)).
Proof.
  intros Hc Hs Hw. pose proof mix_range. rewrite !lifecycle_owned by lia.
  erewrite weak_from_shared_live;
    [| done | cbn [heap]; apply lookup_singleton_eq | cbn [shared_count]; lia].
  unfold put_cell. cbn [heap objects trace shared_count weak_count variant].
  msingle. rewrite pre_incr_small by lia.
  by replace (W + mix + 1) with (W + 1 + mix) by lia.
Qed.

Lemma lifecycle_block_live a k S W :
  0 ≤ S → 0 ≤ W → 0 < S + W →
  ∃ blk, heap (lifecycle_state a k S W) !! a = Some (Block blk) ∧
         shared_count blk = S ∧
         weak_count blk = W + (if 0 <? S then mix else 0) ∧
         variant blk = k.
Proof.
  intros HS HW H. destruct (Z.ltb_spec 0 S).
  - rewrite lifecycle_owned by done. eexists. cbn [heap].
    rewrite lookup_singleton_eq. done.
  - assert (S = 0) as -> by lia. rewrite lifecycle_expired by lia. eexists. cbn [heap].
    rewrite lookup_singleton_eq. split; [done|]. cbn. split; [done|]. split; [lia|done].
Qed.

Lemma lifecycle_weak_copy a k S W other :
  weak_block other = Some a → 0 ≤ S → 0 < W < 2 ^ 64 - 2 →
  WeakPtr_copy other (lifecycle_state a k S W) =
    Ok (mkWeak (Some a)) (lifecycle_state a k S (W + 1)).
Proof.
  intros Hc Hs Hw. pose proof mix_range. destruct (Z.ltb_spec 0 S).
  - rewrite !lifecycle_owned by lia.
    erewrite weak_copy_live; [| done | cbn [heap]; apply lookup_singleton_eq].
    unfold put_cell. cbn [heap objects trace shared_count weak_count variant].
    msingle. rewrite pre_incr_small by lia.
    by replace (W + mix + 1) with (W + 1 + mix) by lia.
  - assert (S = 0) as -> by lia. rewrite !lifecycle_expired by lia.
    erewrite weak_copy_live; [| done | cbn [heap]; apply lookup_singleton_eq].
    unfold put_cell. cbn [heap objects trace shared_count weak_count variant].
    msingle. by rewrite pre_incr_small by lia.
Qed.

Lemma lifecycle_unlink_weak a k S W this :
  weak_block this = Some a → 0 ≤ S → 0 < W < 2 ^ 64 - 1 →
  unlink_weak_pointer_from_the_control_block this (lifecycle_state a k S W) =
    Ok (mkWeak None) (lifecycle_state a k S (W - 1)).
Proof.
  intros Hc Hs Hw. pose proof mix_range. destruct (Z.ltb_spec 0 S).
  - rewrite !lifecycle_owned by lia.
    erewrite unlink_weak_live; [| done | cbn [heap]; apply lookup_singleton_eq].
    unfold after_unlink_weak, put_cell.
    cbn [heap objects trace shared_count weak_count variant].
    destruct (Z.eqb_spec S 0); [lia|]. cbn [andb].
    msingle. rewrite pre_decr_small by lia.
    by replace (W + mix - 1) with (W - 1 + mix) by lia.
  - assert (S = 0) as -> by lia. rewrite lifecycle_expired by lia.
    erewrite unlink_weak_live; [| done | cbn [heap]; apply lookup_singleton_eq].
    unfold after_unlink_weak, put_cell, drop_cell, log.
    cbn [heap objects trace shared_count weak_count variant].
    rewrite pre_decr_small by lia. cbn [Z.eqb andb].
    destruct (Z.eqb_spec (W - 1) 0) as [Hz|Hz].
    + rewrite Hz. msingle. done.
    + rewrite lifecycle_expired by lia. msingle. done.
Qed.

Lemma lifecycle_unlink_shared a k S W this :
  (mixin = true → k = ControlBlockEmbeded) →
  control_block this = Some a → 0 < S < 2 ^ 64 → 0 ≤ W < 2 ^ 64 - 1 →
  unlink_shared_pointer_from_the_control_block this (lifecycle_state a k S W) =
    Ok empty_shared (lifecycle_state a k (S - 1) W).
Proof.
  intros Hk Hc Hs Hw. pose proof mix_range as Hmix.
  destruct (Z.ltb_spec 1 S).
  - rewrite !lifecycle_owned by lia.
    erewrite unlink_shared_many;
      [| done | cbn [heap]; apply lookup_singleton_eq | cbn [shared_count]; lia].
    unfold put_cell. cbn [heap objects trace shared_count weak_count variant].
    msingle. by rewrite pre_decr_small by lia.
  - assert (S = 1) as -> by lia. rewrite lifecycle_owned by lia.
    erewrite unlink_shared_last;
      [| done | cbn [heap]; apply lookup_singleton_eq | cbn [shared_count]; lia].
    unfold destroy_object, run_deleter, destroy_pointee, mix in *. destruct mixin.
    + rewrite (Hk eq_refl). mrun.
      erewrite unlink_weak_live; [| done | cbn [heap]; apply lookup_singleton_eq].
      unfold after_unlink_weak. cbn [shared_count weak_count variant Z.eqb andb].
      mrun. msingle.
      rewrite (pre_decr_small (W + 1)) by lia.
      replace (W + 1 - 1) with W by lia.
      unfold after_last_owner. mrun.
      assert (Hz : pre_decr 1 = 0) by (apply (pre_decr_small 1); lia). rewrite Hz.
      change (1 - 1) with 0.
      destruct (Z.eqb_spec W 0) as [->|].
      * msingle. done.
      * rewrite lifecycle_expired by lia. msingle. done.
    + assert (Hz : pre_decr 1 = 0) by (apply (pre_decr_small 1); lia).
      destruct k as [|[|] [p|]]; mrun; unfold after_last_owner; mrun; rewrite Hz;
        change (1 - 1) with 0; replace (W + 0) with W by lia;
        (destruct (Z.eqb_spec W 0) as [->|];
         [msingle; done | rewrite lifecycle_expired by lia; msingle; done]).
Qed.

Lemma lifecycle_lock_expired a k W this :
  weak_block this = Some a → 0 < W →
  WeakPtr_lock this (lifecycle_state a k 0 W) = Ok empty_shared (lifecycle_state a k 0 W).
Proof.
  intros Hc Hw. apply lock_expired. rewrite lifecycle_expired by lia.
  erewrite expired_live; [| done | cbn [heap]; apply lookup_singleton_eq]. done.
Qed.

Lemma lifecycle_lock_live a k S W this :
  (mixin = true → k = ControlBlockEmbeded) →
  weak_block this = Some a → 0 < S < 2 ^ 64 - 2 → 0 ≤ W < 2 ^ 64 - 3 →
  WeakPtr_lock this (lifecycle_state a k S W) =
    Ok (mkShared (Some a) (pointee_at a k)) (lifecycle_state a k (S + 1) W).
Proof.
  intros Hk Hc Hs Hw. pose proof mix_range as Hmix. rewrite !lifecycle_owned by lia.
  unfold WeakPtr_lock. rewrite bind_eq.
  erewrite expired_live; [| done | cbn [heap]; apply lookup_singleton_eq].
  cbn [shared_count]. destruct (Z.eqb_spec S 0); [lia|].
  rewrite Hc. mcbv.
  erewrite get_pointer_live by (cbn [heap]; apply lookup_singleton_eq).
  change (block_pointee a (mkBlock S (W + mix) k)) with (pointee_at a k).
  unfold SharedPtr_attach, WeakPtr_assign_shared, mix in *. destruct mixin.
  - rewrite (Hk eq_refl). unfold pointee_at, block_pointee. cbn [variant].
    mrun. rewrite pre_incr_small by lia.
    erewrite weak_from_shared_live;
      [| done | cbn [heap]; msingle; apply lookup_singleton_eq | cbn [shared_count]; lia].
    mrun.
    erewrite unlink_weak_live; [| done | cbn [heap]; msingle; apply lookup_singleton_eq].
    unfold after_unlink_weak. mrun. msingle.
    destruct (Z.eqb_spec (S + 1) 0); [lia|]. cbn [andb]. mrun. msingle.
    rewrite pre_incr_small by lia. rewrite pre_decr_small by lia.
    by replace (W + 1 + 1 - 1) with (W + 1) by lia.
  - mrun. msingle. by rewrite pre_incr_small by lia.
Qed.

(** ** The invariant of a run *)

Lemma refs_fmap_snoc {A} (f : A → ptr) b l x :
  refs b (f <$> (l ++ [x])) = refs b (f <$> l) + hit b (f x).
Proof. rewrite fmap_app, refs_app. cbn [fmap list_fmap refs]. lia. Qed.

Lemma refs_fmap_insert {A} (f : A → ptr) b (l : list A) i x y :
  l !! i = Some y →
  refs b (f <$> <[i := x]> l) = refs b (f <$> l) - hit b (f y) + hit b (f x).
Proof.
  intros H. rewrite list_fmap_insert. apply refs_insert.
  by rewrite list_lookup_fmap, H.
Qed.

Lemma refs_fmap_pos {A} (f : A → ptr) b (l : list A) i x :
  l !! i = Some x → f x = Some b → 0 < refs b (f <$> l).
Proof.
  intros H Hf. apply (refs_lookup_pos b _ i). by rewrite list_lookup_fmap, H, <- Hf.
Qed.

Lemma names_null a : names a None.
Proof. by left. Qed.

Lemma names_same a : names a (Some a).
Proof. by right. Qed.

Lemma control_block_move conv h :
  control_block (fst (move_ctor conv h)) = control_block h.
Proof. by destruct conv. Qed.

Lemma copy_assign_unfold conv same this other s :
  copy_assign conv same this other s =
    if (match conv with None => same | Some _ => false end) then Ok this s
    else match copy_ctor conv other s with
         | Ok copy s1 =>
             match unlink_shared_pointer_from_the_control_block this s1 with
             | Ok _ s2 => Ok copy s2
             | Throw e s2 => Throw e s2
             | Undefined u => Undefined u
             end
         | Throw e s1 => Throw e s1
         | Undefined u => Undefined u
         end.
Proof.
  assert (Hbody : SharedPtr_assign_conv conv this other s =
    match copy_ctor conv other s with
    | Ok copy s1 =>
        match unlink_shared_pointer_from_the_control_block this s1 with
        | Ok _ s2 => Ok copy s2
        | Throw e s2 => Throw e s2
        | Undefined u => Undefined u
        end
    | Throw e s1 => Throw e s1
    | Undefined u => Undefined u
    end).
  { unfold SharedPtr_assign_conv. rewrite bind_eq.
    destruct (copy_ctor conv other s) as [c s1|e s1|u]; try done.
    destruct this as [tc tp], c as [cc cp]. unfold SharedPtr_swap.
    cbn [control_block pointer]. rewrite bind_eq.
    by destruct (unlink_shared_pointer_from_the_control_block _ s1). }
  destruct conv as [d|]; cbn [copy_assign]; [done|].
  unfold SharedPtr_assign. by destruct same.
Qed.

Lemma control_block_released this : control_block (released this) = None.
Proof. unfold released. by destruct (control_block this) eqn:E. Qed.

Lemma weak_block_released this : weak_block (released_weak this) = None.
Proof. unfold released_weak. by destruct (weak_block this) eqn:E. Qed.

Lemma refs_fmap_hit_le {A} (f : A → ptr) b (l : list A) i x :
  l !! i = Some x → hit b (f x) ≤ refs b (f <$> l).
Proof.
  intros H. pose proof (refs_nonneg b (f <$> l)). unfold hit. case_decide; [|lia].
  assert (0 < refs b (f <$> l)) by (by eapply refs_fmap_pos). lia.
Qed.

Section Run.

Variable a : Z.
Variable k : BlockKind.
Hypothesis Hk : mixin = true → k = ControlBlockEmbeded.

Lemma inv_intro n s os ws :
  s = lifecycle_state a k (refs a (control_block <$> os)) (refs a (weak_block <$> ws)) →
  Forall (λ h, names a (control_block h)) os →
  Forall (λ w, names a (weak_block w)) ws →
  Z.of_nat (length os) + Z.of_nat (length ws) ≤ n →
  lifecycle_inv a k n (mkMachine s os ws).
Proof. intros. by constructor. Qed.

Lemma ls_copy S W conv other :
  names a (control_block other) → hit a (control_block other) ≤ S →
  0 ≤ S < 2 ^ 64 - 1 →
  copy_ctor conv other (lifecycle_state a k S W) =
    Ok (fst (move_ctor conv other)) (lifecycle_state a k (S + hit a (control_block other)) W).
Proof.
  intros [Hc|Hc] Hh Hs; rewrite Hc in *.
  - rewrite hit_null, Z.add_0_r. by apply copy_ctor_null.
  - rewrite hit_same in *. apply lifecycle_copy; [done|lia].
Qed.

Lemma ls_unlink S W this :
  names a (control_block this) → hit a (control_block this) ≤ S →
  0 ≤ S < 2 ^ 64 → 0 ≤ W < 2 ^ 64 - 1 →
  unlink_shared_pointer_from_the_control_block this (lifecycle_state a k S W) =
    Ok (released this) (lifecycle_state a k (S - hit a (control_block this)) W).
Proof.
  intros [Hc|Hc] Hh Hs Hw; unfold released; rewrite Hc in *.
  - rewrite hit_null, Z.sub_0_r. by apply unlink_shared_null.
  - rewrite hit_same in *. apply lifecycle_unlink_shared; [exact Hk|done|lia|lia].
Qed.

Lemma ls_unlink_weak S W this :
  names a (weak_block this) → hit a (weak_block this) ≤ W →
  0 ≤ S → 0 ≤ W < 2 ^ 64 - 1 →
  unlink_weak_pointer_from_the_control_block this (lifecycle_state a k S W) =
    Ok (released_weak this) (lifecycle_state a k S (W - hit a (weak_block this))).
Proof.
  intros [Hc|Hc] Hh Hs Hw; unfold released_weak; rewrite Hc in *.
  - rewrite hit_null, Z.sub_0_r. by apply unlink_weak_null.
  - rewrite hit_same in *. apply lifecycle_unlink_weak; [done|lia|lia].
Qed.

Lemma ls_lock S W this :
  names a (weak_block this) → hit a (weak_block this) ≤ W →
  0 ≤ S < 2 ^ 64 - 2 → 0 ≤ W < 2 ^ 64 - 3 →
  ∃ h, WeakPtr_lock this (lifecycle_state a k S W) =
         Ok h (lifecycle_state a k (S + hit a (control_block h)) W) ∧
       names a (control_block h) ∧
       (S = 0 → hit a (control_block h) = 0).
Proof.
  intros [Hc|Hc] Hh Hs Hw; rewrite Hc in *.
  - exists empty_shared. cbn [control_block empty_shared]. rewrite hit_null, Z.add_0_r.
    split; [|split; [by left|done]].
    apply lock_expired. by apply expired_null.
  - rewrite hit_same in *. destruct (decide (S = 0)) as [->|].
    + exists empty_shared. cbn [control_block empty_shared]. rewrite hit_null.
      split; [|split; [by left|done]]. apply lifecycle_lock_expired; [done|lia].
    + exists (mkShared (Some a) (pointee_at a k)). cbn [control_block].
      rewrite hit_same. split; [|split; [by right|lia]].
      apply lifecycle_lock_live; [exact Hk|done|lia|lia].
Qed.

Ltac inv_start :=
  match goal with
  | Hinv : lifecycle_inv _ _ _ ?m |- _ =>
      destruct m as [s os ws]; destruct Hinv as [Hst Hos Hws Hsz];
      unfold owners, weak_vars in *; cbn [store owning weak] in *;
      pose proof (refs_nonneg a (control_block <$> os)) as HS0;
      pose proof (refs_nonneg a (weak_block <$> ws)) as HW0;
      pose proof (refs_le_length a (control_block <$> os)) as HS1;
      pose proof (refs_le_length a (weak_block <$> ws)) as HW1;
      rewrite length_fmap in HS1; rewrite length_fmap in HW1;
      subst s
  end.

Ltac take_owning i h Hi :=
  unfold with_owning; cbn [store owning weak];
  match goal with
  | Hos : Forall _ ?os |- context [?os !! i] =>
      destruct (os !! i) as [h|] eqn:Hi; [|by right];
      let Hc := fresh "Hc" in
      pose proof (Forall_lookup_1 _ _ _ _ Hos Hi) as Hc; cbn beta in Hc;
      let Hh := fresh "Hh" in
      pose proof (refs_fmap_hit_le control_block a os i h Hi) as Hh;
      let Hr := fresh "Hr" in
      pose proof (hit_range a (control_block h)) as Hr
  end.

Ltac take_weak i w Hi :=
  unfold with_weak; cbn [store owning weak];
  match goal with
  | Hws : Forall _ ?ws |- context [?ws !! i] =>
      destruct (ws !! i) as [w|] eqn:Hi; [|by right];
      let Hc := fresh "Hc" in
      pose proof (Forall_lookup_1 _ _ _ _ Hws Hi) as Hc; cbn beta in Hc;
      let Hh := fresh "Hh" in
      pose proof (refs_fmap_hit_le weak_block a ws i w Hi) as Hh;
      let Hr := fresh "Hr" in
      pose proof (hit_range a (weak_block w)) as Hr
  end.

Ltac refs_simpl :=
  repeat first
    [ rewrite refs_fmap_snoc
    | erewrite refs_fmap_insert by eassumption
    | rewrite control_block_move
    | rewrite control_block_released
    | rewrite weak_block_released ];
  cbn [control_block pointer weak_block empty_shared empty_weak nullptr];
  rewrite ?hit_null, ?hit_same.

Ltac names_solve :=
  repeat first [ apply Forall_app_2 | apply Forall_insert | apply Forall_cons_2
               | apply Forall_nil_2 | assumption
               | rewrite control_block_move
               | rewrite control_block_released
               | rewrite weak_block_released
               | apply names_null | apply names_same ];
  try (cbn [control_block weak_block]; by (left + right)).

Ltac inv_finish :=
  cbv [mret M_ret];
  cbn [step_ok]; unfold owners, weak_vars; cbn [store owning weak];
  split;
    [ apply inv_intro;
        [ refs_simpl; f_equal; lia
        | names_solve
        | names_solve
        | rewrite ?length_app, ?length_insert; cbn [length]; lia ]
    | refs_simpl; split; intros; lia ].

Ltac run_exec := unfold exec; cbn [store owning weak].

Lemma step_handle_ok n m op :
  lifecycle_inv a k n m → n + 4 < 2 ^ 64 → step_ok a k n m (step_handle op m).
Proof.
  intros Hinv Hn. inv_start.
  destruct op as [i conv|i conv|i j conv|i j conv|i|i|i j|i|j|j|i j|i j|j i|j|j|i j|j];
    cbn [step_handle].
  - (* Copy *)
    take_owning i h Hi. run_exec. rewrite ls_copy by (done || lia). inv_finish.
  - (* Move *)
    take_owning i h Hi. rewrite move_ctor_eq. inv_finish.
  - (* CopyAssign *)
    take_owning i this Hi. take_owning j other Hj. run_exec.
    rewrite copy_assign_unfold.
    destruct (match conv with None => bool_decide (i = j) | Some _ => false end).
    + inv_finish.
    + rewrite ls_copy by (done || lia).
      rewrite ls_unlink by (done || lia). inv_finish.
  - (* MoveAssign *)
    unfold move_assign.
    assert (Hbody : step_ok a k n
              (mkMachine (lifecycle_state a k (refs a (control_block <$> os))
                            (refs a (weak_block <$> ws))) os ws)
              (move_assign_conv conv i j
                 (mkMachine (lifecycle_state a k (refs a (control_block <$> os))
                               (refs a (weak_block <$> ws))) os ws))).
    { unfold move_assign_conv. take_owning j other Hj. rewrite move_ctor_eq.
      unfold with_owning. cbn [store owning weak].
      destruct (decide (i = j)) as [->|Hne].
      - assert (Hi' : <[j:=empty_shared]> os !! j = Some empty_shared)
          by (apply list_lookup_insert_eq; by eapply lookup_lt_Some).
        rewrite Hi'. unfold SharedPtr_swap. cbn [control_block pointer empty_shared].
        run_exec. rewrite unlink_shared_null by done. inv_finish.
      - assert (Hi' : <[j:=empty_shared]> os !! i = os !! i)
          by (by apply list_lookup_insert_ne).
        rewrite Hi'. take_owning i this Hi. rewrite <- Hi' in Hi.
        unfold SharedPtr_swap. cbn [control_block pointer]. run_exec.
        rewrite ls_unlink by (cbn [control_block]; done || lia).
        cbn [control_block]. inv_finish. }
    destruct conv as [d|]; [exact Hbody|].
    destruct (decide (i = j)) as [->|Hne]; [|exact Hbody].
    take_owning j h Hj. inv_finish.
  - (* Reset *)
    take_owning i this Hi. run_exec. unfold SharedPtr_reset.
    rewrite ls_unlink by (done || lia). inv_finish.
  - (* Destroy *)
    take_owning i this Hi. run_exec. rewrite ls_unlink by (done || lia). inv_finish.
  - (* Swap *)
    take_owning i this Hi. take_owning j other Hj.
    unfold SharedPtr_swap.
    destruct (decide (i = j)) as [->|Hne].
    + assert (Hi' : <[j:=mkShared (control_block this) (pointer this)]> os !! j =
                    Some (mkShared (control_block this) (pointer this)))
        by (apply list_lookup_insert_eq; by eapply lookup_lt_Some).
      assert (this = other) as -> by congruence. inv_finish.
    + assert (Hi' : <[j:=mkShared (control_block this) (pointer this)]> os !! i = Some this)
        by (by rewrite list_lookup_insert_ne).
      inv_finish.
  - (* WeakFromShared *)
    take_owning i arg Hi. run_exec. destruct Hc as [Hc|Hc].
    + rewrite weak_from_shared_null by done. by left.
    + rewrite Hc, hit_same in *.
      rewrite lifecycle_weak_from_shared by (done || lia). inv_finish.
  - (* WeakCopy *)
    take_weak j other Hj. run_exec. destruct Hc as [Hc|Hc].
    + rewrite weak_copy_null by done. by left.
    + rewrite Hc, hit_same in *.
      rewrite lifecycle_weak_copy by (done || lia). inv_finish.
  - (* WeakMove *)
    take_weak j other Hj. unfold WeakPtr_move. inv_finish.
  - (* WeakCopyAssign *)
    take_weak i this Hi. take_weak j other Hj. run_exec.
    unfold WeakPtr_assign. destruct (bool_decide (i = j)).
    + inv_finish.
    + unfold WeakPtr_assign_conv. rewrite bind_eq.
      destruct Hc0 as [Hc0|Hc0].
      * rewrite weak_copy_null by done. by left.
      * rewrite Hc0, hit_same in *.
        rewrite lifecycle_weak_copy by (done || lia).
        unfold WeakPtr_swap. cbn [weak_block]. rewrite bind_eq.
        rewrite ls_unlink_weak by (cbn [weak_block]; done || lia).
        cbn [weak_block]. inv_finish.
  - (* WeakMoveAssign *)
    destruct (decide (i = j)) as [->|Hne].
    + take_weak j w Hj. inv_finish.
    + unfold weak_move_assign_conv. take_weak j other Hj. unfold WeakPtr_move.
      unfold with_weak. cbn [store owning weak].
      assert (Hi' : <[j:=mkWeak nullptr]> ws !! i = ws !! i)
        by (by apply list_lookup_insert_ne).
      rewrite Hi'. take_weak i this Hi. rewrite <- Hi' in Hi.
      unfold WeakPtr_swap. cbn [weak_block]. run_exec.
      rewrite ls_unlink_weak by (cbn [weak_block]; done || lia).
      cbn [weak_block]. inv_finish.
  - (* WeakAssignShared *)
    take_weak j this Hj. take_owning i other Hi. run_exec.
    unfold WeakPtr_assign_shared. rewrite bind_eq. destruct Hc0 as [Hc0|Hc0].
    + rewrite weak_from_shared_null by done. by left.
    + rewrite Hc0, hit_same in *.
      rewrite lifecycle_weak_from_shared by (done || lia).
      unfold WeakPtr_swap. cbn [weak_block]. rewrite bind_eq.
      rewrite ls_unlink_weak by (cbn [weak_block]; done || lia).
      cbn [weak_block]. inv_finish.
  - (* WeakReset *)
    take_weak j this Hj. run_exec. unfold WeakPtr_reset.
    rewrite ls_unlink_weak by (done || lia). inv_finish.
  - (* WeakDestroy *)
    take_weak j this Hj. run_exec. rewrite ls_unlink_weak by (done || lia). inv_finish.
  - (* WeakSwap *)
    take_weak i this Hi. take_weak j other Hj.
    unfold WeakPtr_swap.
    destruct (decide (i = j)) as [->|Hne].
    + assert (Hi' : <[j:=mkWeak (weak_block this)]> ws !! j = Some (mkWeak (weak_block this)))
        by (apply list_lookup_insert_eq; by eapply lookup_lt_Some).
      assert (this = other) as -> by congruence. inv_finish.
    + assert (Hi' : <[j:=mkWeak (weak_block this)]> ws !! i = Some this)
        by (by rewrite list_lookup_insert_ne).
      inv_finish.
  - (* Lock *)
    take_weak j this Hj. run_exec.
    destruct (ls_lock (refs a (control_block <$> os)) (refs a (weak_block <$> ws)) this)
      as (h & -> & Hnh & Hz); [done|lia|lia|lia|].
    pose proof (hit_range a (control_block h)). inv_finish.
Qed.

End Run.
Section Lifecycle.

Variable a : Z.

Lemma make_shared_fresh :
  makeShared (Some a) true empty_state =
    Ok (mkShared (Some a) (Some (embedded_obj a)))
       (lifecycle_state a ControlBlockEmbeded 1 0).
Proof.
  rewrite lifecycle_owned by lia.
  unfold makeShared, allocateShared, construct_embedded, SharedPtr_attach,
    WeakPtr_assign_shared, empty_state, mix.
  assert (H1 : pre_incr 0 = 1) by (apply (pre_incr_small 0); lia).
  destruct mixin.
  - mrun. rewrite H1. msingle.
    erewrite weak_from_shared_live;
      [| done | cbn [heap]; rewrite insert_empty; apply lookup_singleton_eq
       | cbn [shared_count]; lia].
    mrun. rewrite unlink_weak_null by done. mrun. msingle.
    rewrite !insert_empty. msingle. by rewrite H1.
  - mrun. rewrite H1. msingle. by rewrite !insert_empty.
Qed.

Lemma step_make_shared :
  step (MakeShared (Some a) true) empty_machine = Done (made a ControlBlockEmbeded).
Proof.
  cbn [step]. unfold exec, empty_machine. cbn [store owning weak].
  by rewrite make_shared_fresh.
Qed.

Lemma step_from_raw gp del :
  mixin = false →
  step (FromRaw gp del (Some a)) empty_machine =
    Done (made a (ControlBlockFromPointer del gp)).
Proof.
  intros Hm. cbn [step]. unfold exec, empty_machine. cbn [store owning weak].
  rewrite (from_raw_plain gp del a empty_state Hm) by apply lookup_empty.
  unfold made, pointee_at, block_pointee. cbn [variant].
  rewrite lifecycle_owned by lia. unfold mix. rewrite Hm.
  unfold put_cell, empty_state. cbn [heap objects trace].
  by rewrite insert_empty.
Qed.

Lemma creation_kind k op : creation a k op → mixin = true → k = ControlBlockEmbeded.
Proof. destruct k; [done|]. intros [Hm _] H. congruence. Qed.

Lemma step_creation k op : creation a k op → step op empty_machine = Done (made a k).
Proof.
  destruct k as [|del p]; cbn [creation].
  - intros ->. apply step_make_shared.
  - intros (Hm & ->). by apply step_from_raw.
Qed.

Variable k : BlockKind.
Hypothesis Hk : mixin = true → k = ControlBlockEmbeded.

Lemma made_inv : lifecycle_inv a k 1 (made a k).
Proof.
  unfold made. apply inv_intro.
  - cbn [fmap list_fmap refs control_block]. rewrite hit_same. done.
  - constructor; [by right|constructor].
  - constructor.
  - cbn [length]. lia.
Qed.

Lemma run_handles_inv ops n m :
  lifecycle_inv a k n m → n + Z.of_nat (length ops) + 3 < 2 ^ 64 →
  match run (Handle <$> ops) m with
  | Done m' => lifecycle_inv a k (n + Z.of_nat (length ops)) m'
  | Raised _ _ => False
  | Stuck f => f = NullDeref ∨ f = NoSuchHandle
  end.
Proof.
  revert n m. induction ops as [|op ops IH]; intros n m Hinv Hn.
  - cbn [fmap list_fmap run length]. by rewrite Z.add_0_r.
  - cbn [fmap list_fmap run step]. cbn [length] in Hn.
    pose proof (step_handle_ok a k Hk n m op Hinv ltac:(lia)) as Hstep.
    destruct (step_handle op m) as [m1|e m1|f]; cbn [step_ok] in Hstep; try done.
    destruct Hstep as (Hinv1 & _).
    specialize (IH (n + 1) m1 Hinv1 ltac:(lia)).
    destruct (run (Handle <$> ops) m1); try done.
    replace (n + Z.of_nat (length (op :: ops))) with (n + 1 + Z.of_nat (length ops))
      by (cbn [length]; lia).
    done.
Qed.

Lemma inv_handles n m :
  lifecycle_inv a k n m → 0 ≤ owners a m ∧ 0 ≤ weak_vars a m.
Proof. intros _. split; apply refs_nonneg. Qed.

Lemma inv_observe n m : lifecycle_inv a k n m → lifecycle_ok a m.
Proof.
  intros Hinv. destruct (inv_handles n m Hinv) as (HS & HW).
  pose proof mix_range. destruct Hinv as [Hst _ _ _].
  unfold lifecycle_ok, handles. unfold owners, weak_vars in *.
  rewrite Hst. set (S := refs a (control_block <$> owning m)) in *.
  set (W := refs a (weak_block <$> weak m)) in *.
  unfold lifecycle_state, block_live.
  destruct (Z.ltb_spec 0 S).
  - cbn [heap trace destroy_count free_count]. rewrite lookup_singleton_eq.
    destruct (Z.eqb_spec S 0); [lia|].
    destruct (Z.eqb_spec (S + W) 0); [lia|]. split_and!; try done; intros; lia.
  - assert (S = 0) as -> by lia. cbn [Z.eqb]. destruct (Z.ltb_spec 0 W).
    + cbn [heap trace destroy_count free_count]. rewrite lookup_singleton_eq.
      rewrite decide_True by done.
      destruct (Z.eqb_spec (0 + W) 0); [lia|]. split_and!; try done; intros; lia.
    + assert (W = 0) as -> by lia.
      cbn [heap objects trace destroy_count free_count]. rewrite lookup_empty.
      rewrite !decide_True by done. done.
Qed.

End Lifecycle.


Lemma expired_nothrow this s e s' : WeakPtr_expired this s ≠ Throw e s'.
Proof. intros H. revert H. apply (throws_expired (λ _, False)). Qed.

(** C6.  [expired()] answers [true] exactly when the handle has no
    block or the block's [shared_count] is 0, and it never throws.  Along
    any program on the handles of one created block, a [WeakPtr] variable
    on the block reports [false] as long as an Owning Handle is left and
    [true] once none is, the block being still in the heap; in
    particular dropping the last Owning Handle flips the answer from
    [false] to [true] without freeing the block. *)
Theorem expired_spec :
  (∀ this s, weak_block this = None → WeakPtr_expired this s = Ok true s) ∧
  (∀ this s b blk,
     weak_block this = Some b → heap s !! b = Some (Block blk) →
     WeakPtr_expired this s = Ok (shared_count blk =? 0) s) ∧
  (∀ this s e s', WeakPtr_expired this s ≠ Throw e s') ∧
  (∀ a k init ops m j w,
     creation a k init →
     Z.of_nat (length ops) + 5 < 2 ^ 64 →
     run (init :: (Handle <$> ops)) empty_machine = Done m →
     weak m !! j = Some w → weak_block w = Some a →
     WeakPtr_expired w (store m) = Ok (owners a m =? 0) (store m) ∧
     block_live a (store m) = true ∧
     ∀ i h,
       owning m !! i = Some h → control_block h = Some a → owners a m = 1 →
       ∃ m',
         step_handle (Destroy i) m = Done m' ∧
         weak m' !! j = Some w ∧
         WeakPtr_expired w (store m) = Ok false (store m) ∧
         WeakPtr_expired w (store m') = Ok true (store m') ∧
         block_live a (store m') = true ∧
         free_count a (trace (store m')) = 0).
Proof.
  split; [apply expired_null|]. split; [apply expired_live|].
  split; [apply expired_nothrow|].
  intros a k init ops m j w Hinit Hn Hrun Hj Hw.
  cbn [run] in Hrun. rewrite (step_creation a k init Hinit) in Hrun.
  pose proof (creation_kind a k init Hinit) as Hk.
  pose proof (run_handles_inv a k Hk ops 1 (made a k) (made_inv a k) ltac:(lia)) as Hinv.
  rewrite Hrun in Hinv. clear Hrun.
  destruct m as [s os ws]. destruct Hinv as [Hst Hos Hws Hsz].
  unfold owners in *. cbn [store owning weak] in *.
  pose proof (refs_nonneg a (control_block <$> os)) as HS.
  pose proof (refs_fmap_pos weak_block a ws j w Hj Hw) as HW.
  set (S := refs a (control_block <$> os)) in *.
  set (W := refs a (weak_block <$> ws)) in *.
  destruct (lifecycle_block_live a k S W) as (blk & Hb & Hsc & _); [lia|lia|lia|].
  subst s. split; [|split].
  - rewrite (expired_live w _ a blk) by done. by rewrite Hsc.
  - unfold block_live. by rewrite Hb.
  - intros i h Hi Hc Hone.
    pose proof (refs_le_length a (control_block <$> os)) as HS1.
    pose proof (refs_le_length a (weak_block <$> ws)) as HW1.
    rewrite length_fmap in HS1. rewrite length_fmap in HW1.
    fold S in HS1. fold W in HW1.
    eexists. cbn [step_handle]. unfold with_owning, exec. cbn [store owning weak].
    rewrite Hi.
    rewrite lifecycle_unlink_shared by first [exact Hk | done | lia].
    split; [reflexivity|]. cbn [store owning weak]. split; [done|].
    rewrite Hone in Hb, Hsc |- *. change (1 - 1) with 0.
    rewrite (expired_live w (lifecycle_state a k 1 W) a blk) by done. rewrite Hsc.
    split; [done|].
    destruct (lifecycle_block_live a k 0 W) as (blk0 & Hb0 & Hsc0 & _); [lia|lia|lia|].
    rewrite (expired_live w _ a blk0) by done. rewrite Hsc0.
    split; [done|]. split.
    + unfold block_live. by rewrite Hb0.
    + by rewrite lifecycle_expired by lia.
Qed.

(** ** Null block, null pointer *)

Section Nullness.

Variable strict : bool.

Lemma bind_ok_inv {A B} (f : M A) (g : A → M B) s b s' :
  (f ≫= g) s = Ok b s' → ∃ a s1, f s = Ok a s1 ∧ g a s1 = Ok b s'.
Proof.
  rewrite bind_eq. destruct (f s) as [a s1|e s1|u]; intros H; try discriminate. eauto.
Qed.

Lemma keeps_ret {A} (a : A) : keeps strict (mret a).
Proof. intros s x s' Hs H. by injection H as _ <-. Qed.

Lemma keeps_bind {A B} (f : M A) (g : A → M B) :
  keeps strict f → (∀ a, keeps strict (g a)) → keeps strict (f ≫= g).
Proof.
  intros Hf Hg s b s' Hs H. apply bind_ok_inv in H as (x & s1 & H1 & H2).
  eapply Hg; [|exact H2]. eapply Hf; eauto.
Qed.

Lemma keeps_pure {A} (f : M A) :
  (∀ s a s', f s = Ok a s' → heap s' = heap s) → keeps strict f.
Proof.
  intros Hf s x s' Hs H Hstrict b blk Hb. apply (Hs Hstrict b blk).
  by rewrite <- (Hf s x s' H).
Qed.

Lemma keeps_deref p : keeps strict (deref p).
Proof. apply keeps_pure. intros s x s' H. destruct p; [by injection H as _ <-|done]. Qed.

Lemma keeps_undefined {A} u : keeps strict (@undefined A u).
Proof. by apply keeps_pure. Qed.

Lemma keeps_throw {A} e : keeps strict (@throw A e).
Proof. by apply keeps_pure. Qed.

Lemma keeps_read_block b : keeps strict (read_block b).
Proof.
  apply keeps_pure. intros s x s' H. unfold read_block in H.
  destruct (heap s !! b) as [[|?]|]; try done. by injection H as _ <-.
Qed.

Lemma keeps_emit ev : keeps strict (emit ev).
Proof. apply keeps_pure. intros s x s' H. by injection H as _ <-. Qed.

Lemma keeps_read_weak_this p : keeps strict (read_weak_this p).
Proof.
  apply keeps_pure. intros s x s' H. unfold read_weak_this in H.
  destruct (objects s !! p); try done. by injection H as _ <-.
Qed.

Lemma keeps_write_weak_this p w : keeps strict (write_weak_this p w).
Proof.
  apply keeps_pure. intros s x s' H. unfold write_weak_this in H.
  destruct (objects s !! p); try done. by injection H as _ <-.
Qed.

Lemma keeps_end_object p : keeps strict (end_object p).
Proof. apply keeps_pure. intros s x s' H. by injection H as _ <-. Qed.

Lemma keeps_begin_object p : keeps strict (begin_object p).
Proof. apply keeps_pure. intros s x s' H. by injection H as _ <-. Qed.

Lemma keeps_release_storage b : keeps strict (release_storage b).
Proof.
  intros s x s' Hs H Hstrict b' blk Hb. injection H as _ <-.
  cbn [drop_cell heap] in Hb. apply lookup_delete_Some in Hb as [_ Hb].
  by apply (Hs Hstrict b' blk).
Qed.

Lemma keeps_allocate answer : keeps strict (allocate answer).
Proof.
  intros s x s' Hs H Hstrict b blk Hb. unfold allocate in H.
  destruct answer as [a|]; [|done]. destruct (heap s !! a) eqn:Ha; [done|].
  injection H as _ <-. cbn [put_cell heap] in Hb.
  apply lookup_insert_Some in Hb as [[_ ?]|[_ Hb]]; [done|].
  by apply (Hs Hstrict b blk).
Qed.

Lemma heap_ok_put s b blk :
  heap_ok strict s → (strict = true → block_pointee b blk ≠ None) →
  heap_ok strict (put_cell b (Block blk) s).
Proof.
  intros Hs Hp Hstrict b' blk' Hb. cbn [put_cell heap] in Hb.
  apply lookup_insert_Some in Hb as [[<- [= <-]]|[_ Hb]]; [by apply Hp|].
  by apply (Hs Hstrict b' blk').
Qed.

Lemma keeps_update b (f : BaseControlBlock → BaseControlBlock) :
  (∀ blk, variant (f blk) = variant blk) →
  keeps strict (blk ← read_block b; write_block b (f blk)).
Proof.
  intros Hf s x s' Hs H. apply bind_ok_inv in H as (blk & s1 & H1 & H2).
  unfold read_block in H1. destruct (heap s !! b) as [[|blk0]|] eqn:Hb; try done.
  injection H1 as <- <-. injection H2 as _ <-.
  apply heap_ok_put; [done|]. intros Hstrict.
  unfold block_pointee. rewrite Hf. by apply (Hs Hstrict b blk0).
Qed.

Lemma keeps_incr_shared b : keeps strict (incr_shared b).
Proof. by apply (keeps_update b (λ blk, mkBlock _ _ _)). Qed.

Lemma keeps_decr_shared b : keeps strict (decr_shared b).
Proof. by apply (keeps_update b (λ blk, mkBlock _ _ _)). Qed.

Lemma keeps_incr_weak b : keeps strict (incr_weak b).
Proof. by apply (keeps_update b (λ blk, mkBlock _ _ _)). Qed.

Lemma keeps_decr_weak b : keeps strict (decr_weak b).
Proof. by apply (keeps_update b (λ blk, mkBlock _ _ _)). Qed.

Create HintDb keeps.

#[local] Hint Resolve keeps_deref keeps_undefined keeps_throw keeps_read_block
  keeps_emit keeps_read_weak_this keeps_write_weak_this keeps_end_object
  keeps_begin_object keeps_release_storage keeps_allocate keeps_incr_shared
  keeps_decr_shared keeps_incr_weak keeps_decr_weak : keeps.

Ltac keeps_step :=
  match goal with
  | |- keeps strict (mret _) => apply keeps_ret
  | |- keeps strict (_ ≫= _) => apply keeps_bind; [|intros ?]
  | |- keeps strict (if ?b then _ else _) => destruct b
  | |- keeps strict (match ?x with _ => _ end) => destruct x
  | |- keeps strict _ => solve [eauto with keeps]
  end.

Ltac keeps_auto := repeat keeps_step.

Lemma keeps_destroy_block b : keeps strict (destroy_block b).
Proof. unfold destroy_block. keeps_auto. Qed.
#[local] Hint Resolve keeps_destroy_block : keeps.

Lemma keeps_unlink_weak w : keeps strict (unlink_weak_pointer_from_the_control_block w).
Proof. unfold unlink_weak_pointer_from_the_control_block. keeps_auto. Qed.
#[local] Hint Resolve keeps_unlink_weak : keeps.

Lemma keeps_destroy_object b : keeps strict (destroy_object b).
Proof. unfold destroy_object, run_deleter, destroy_pointee. keeps_auto. Qed.
#[local] Hint Resolve keeps_destroy_object : keeps.

Lemma keeps_unlink_shared h : keeps strict (unlink_shared_pointer_from_the_control_block h).
Proof. unfold unlink_shared_pointer_from_the_control_block. keeps_auto. Qed.
#[local] Hint Resolve keeps_unlink_shared : keeps.

Lemma keeps_copy_ctor conv h : keeps strict (copy_ctor conv h).
Proof.
  destruct conv; cbn [copy_ctor]; unfold SharedPtr_copy, SharedPtr_copy_conv; keeps_auto.
Qed.
#[local] Hint Resolve keeps_copy_ctor : keeps.

Lemma keeps_weak_from_shared h : keeps strict (WeakPtr_from_shared h).
Proof. unfold WeakPtr_from_shared. keeps_auto. apply (keeps_copy_ctor None). Qed.
#[local] Hint Resolve keeps_weak_from_shared : keeps.

Lemma keeps_weak_assign_shared w h : keeps strict (WeakPtr_assign_shared w h).
Proof. unfold WeakPtr_assign_shared, WeakPtr_swap. keeps_auto. Qed.
#[local] Hint Resolve keeps_weak_assign_shared : keeps.

Lemma keeps_attach p cb : keeps strict (SharedPtr_attach p cb).
Proof. unfold SharedPtr_attach. keeps_auto. Qed.
#[local] Hint Resolve keeps_attach : keeps.

Lemma keeps_copy_assign conv same this other : keeps strict (copy_assign conv same this other).
Proof.
  destruct conv; cbn [copy_assign];
    unfold SharedPtr_assign, SharedPtr_assign_conv, SharedPtr_swap;
    keeps_auto.
Qed.
#[local] Hint Resolve keeps_copy_assign : keeps.

Lemma keeps_weak_copy w : keeps strict (WeakPtr_copy w).
Proof. unfold WeakPtr_copy. keeps_auto. Qed.
#[local] Hint Resolve keeps_weak_copy : keeps.

Lemma keeps_weak_assign same this other : keeps strict (WeakPtr_assign same this other).
Proof. unfold WeakPtr_assign, WeakPtr_assign_conv, WeakPtr_swap. keeps_auto. Qed.
#[local] Hint Resolve keeps_weak_assign : keeps.

Lemma keeps_get_pointer b : keeps strict (get_pointer b).
Proof. unfold get_pointer. keeps_auto. Qed.
#[local] Hint Resolve keeps_get_pointer : keeps.

Lemma keeps_expired w : keeps strict (WeakPtr_expired w).
Proof. unfold WeakPtr_expired. keeps_auto. Qed.
#[local] Hint Resolve keeps_expired : keeps.

Lemma keeps_lock w : keeps strict (WeakPtr_lock w).
Proof. unfold WeakPtr_lock. keeps_auto. Qed.
#[local] Hint Resolve keeps_lock : keeps.

Lemma keeps_shared_from_this p : keeps strict (shared_from_this p).
Proof. unfold shared_from_this. keeps_auto. Qed.

Lemma keeps_write_block b blk :
  (strict = true → block_pointee b blk ≠ None) → keeps strict (write_block b blk).
Proof. intros Hp s x s' Hs H. injection H as _ <-. by apply heap_ok_put. Qed.

Lemma keeps_make_shared answer ok : keeps strict (makeShared answer ok).
Proof.
  unfold makeShared, allocateShared, construct_embedded. keeps_auto.
  all: by apply keeps_write_block.
Qed.

Lemma keeps_from_raw gp del answer :
  (strict = true → gp ≠ None) → keeps strict (SharedPtr_from_raw gp del answer).
Proof.
  intros Hgp. unfold SharedPtr_from_raw.
  destruct mixin; [apply keeps_undefined|].
  apply keeps_bind; [eauto with keeps|intros b].
  apply keeps_bind; [by apply keeps_write_block|intros _].
  keeps_auto.
Qed.

Lemma good_empty : good strict empty_shared.
Proof. by split. Qed.

Lemma good_move conv h : good strict h → good strict (fst (move_ctor conv h)).
Proof.
  intros [H1 H2]. destruct h as [c p], conv as [d|]; cbn in *; [|by split].
  split.
  - intros Hc. by rewrite (H1 Hc).
  - intros Hs Hp. apply (H2 Hs). by destruct p.
Qed.

Lemma good_converted conv h :
  good strict h → good strict (mkShared (control_block h) (convert conv (pointer h))).
Proof. intros H. pose proof (good_move conv h H) as Hg. by rewrite move_ctor_eq in Hg. Qed.

Lemma good_released h : good strict h → good strict (released h).
Proof. intros H. unfold released. destruct (control_block h); [apply good_empty|done]. Qed.

Lemma good_attached b p : (strict = true → p ≠ None) → good strict (mkShared (Some b) p).
Proof. intros H. split; [done|]. cbn. intros Hs Hp. by destruct (H Hs). Qed.

Ltac ok_inv H :=
  repeat match type of H with
         | (_ ≫= _) _ = Ok _ _ =>
             let H1 := fresh "H" in
             apply bind_ok_inv in H as (? & ? & H1 & H)
         | (let '(_, _) := ?x in _) _ = Ok _ _ => destruct x
         | (if ?b then _ else _) _ = Ok _ _ => destruct b
         | mret _ _ = Ok _ _ => injection H as <- <-
         end.

Lemma unlink_result this s h s' :
  unlink_shared_pointer_from_the_control_block this s = Ok h s' → h = released this.
Proof.
  unfold unlink_shared_pointer_from_the_control_block, released.
  destruct (control_block this); intros H; ok_inv H; done.
Qed.

Lemma copy_result conv other s h s' :
  copy_ctor conv other s = Ok h s' → h = fst (move_ctor conv other).
Proof.
  destruct conv; cbn [copy_ctor]; unfold SharedPtr_copy, SharedPtr_copy_conv;
    intros H; ok_inv H; done.
Qed.

Lemma copy_assign_good conv same this other s h s' :
  good strict this → good strict other → copy_assign conv same this other s = Ok h s' → good strict h.
Proof.
  intros Ht Ho H. rewrite copy_assign_unfold in H.
  destruct (match conv with None => same | Some _ => false end).
  - by injection H as <- _.
  - destruct (copy_ctor _ other s) as [c s1|?|?] eqn:Hc; try done.
    destruct (unlink_shared_pointer_from_the_control_block this s1); try done.
    injection H as <- _. apply copy_result in Hc as ->. by apply good_move.
Qed.

Lemma attach_result p cb s h s' :
  SharedPtr_attach p cb s = Ok h s' → ∃ b, cb = Some b ∧ h = mkShared (Some b) p.
Proof.
  unfold SharedPtr_attach. intros H. destruct cb as [b|]; [|done].
  ok_inv H. eauto.
Qed.

Lemma get_pointer_result b s p s' :
  heap_ok strict s → get_pointer b s = Ok p s' → strict = true → p ≠ None.
Proof.
  intros Hs H Hstrict. unfold get_pointer in H. apply bind_ok_inv in H as (blk & s1 & H1 & H).
  unfold read_block in H1. destruct (heap s !! b) as [[|blk0]|] eqn:Hb; try done.
  injection H1 as Hblk Hs1. subst blk s1.
  specialize (Hs Hstrict b blk0 Hb). unfold block_pointee in Hs.
  destruct (variant blk0); by injection H as <- _.
Qed.

Lemma lock_good w s h s' : heap_ok strict s → WeakPtr_lock w s = Ok h s' → good strict h.
Proof.
  intros Hs H. unfold WeakPtr_lock in H. apply bind_ok_inv in H as (e & s1 & H1 & H).
  assert (Hs1 : heap_ok strict s1) by (eapply keeps_expired; eauto).
  destruct e; [injection H as <- _; apply good_empty|].
  apply bind_ok_inv in H as (b & s2 & H2 & H).
  assert (Hs2 : heap_ok strict s2) by (eapply keeps_deref; eauto).
  apply bind_ok_inv in H as (p & s3 & H3 & H).
  apply attach_result in H as (b' & _ & ->). apply good_attached.
  by eapply get_pointer_result.
Qed.

Lemma shared_from_this_good p s h s' : heap_ok strict s → shared_from_this p s = Ok h s' → good strict h.
Proof.
  intros Hs H. unfold shared_from_this in H. apply bind_ok_inv in H as (w & s1 & H1 & H).
  assert (Hs1 : heap_ok strict s1) by (eapply keeps_read_weak_this; eauto).
  apply bind_ok_inv in H as (e & s2 & H2 & H).
  assert (Hs2 : heap_ok strict s2) by (eapply keeps_expired; eauto).
  destruct e; [done|]. by eapply lock_good.
Qed.

Lemma make_shared_good answer ok s h s' : makeShared answer ok s = Ok h s' → good strict h.
Proof.
  unfold makeShared, allocateShared. intros H.
  apply bind_ok_inv in H as (b & s1 & H1 & H).
  apply bind_ok_inv in H as (x & s2 & H2 & H).
  apply attach_result in H as (b' & _ & ->). by apply good_attached.
Qed.

Lemma from_raw_good gp del answer s h s' :
  (strict = true → gp ≠ None) →
  SharedPtr_from_raw gp del answer s = Ok h s' → good strict h.
Proof.
  intros Hgp H. unfold SharedPtr_from_raw in H.
  destruct mixin; [discriminate|].
  apply bind_ok_inv in H as (b & s1 & H1 & H).
  apply bind_ok_inv in H as (x & s2 & H2 & H).
  apply bind_ok_inv in H as (y & s3 & H3 & H).
  injection H as <- _. by apply good_attached.
Qed.

Lemma exec_done {A} (f : M A) m k m' :
  exec f m k = Done m' → ∃ x s', f (store m) = Ok x s' ∧ k x s' = Done m'.
Proof. unfold exec. destruct (f (store m)); intros H; try done. eauto. Qed.

Lemma with_owning_done m i k m' :
  with_owning m i k = Done m' → ∃ h, owning m !! i = Some h ∧ k h = Done m'.
Proof. unfold with_owning. destruct (owning m !! i); intros H; try done. eauto. Qed.

Lemma with_weak_done m i k m' :
  with_weak m i k = Done m' → ∃ w, weak m !! i = Some w ∧ k w = Done m'.
Proof. unfold with_weak. destruct (weak m !! i); intros H; try done. eauto. Qed.

Ltac done_inv H :=
  repeat first
    [ apply with_owning_done in H as (? & ? & H)
    | apply with_weak_done in H as (? & ? & H)
    | let H1 := fresh "Hrun" in apply exec_done in H as (? & ? & H1 & H)
    | progress cbn [store owning weak] in H
    | match type of H with (let '(_, _) := ?x in _) = _ => rewrite ?move_ctor_eq in H end
    | match type of H with Done _ = Done _ => injection H as <- end ];
  cbn [store owning weak] in *.

Ltac good_solve :=
  cbn [store owning weak];
  repeat first
    [ apply Forall_app_2 | apply Forall_insert | apply Forall_cons_2 | apply Forall_nil_2
    | assumption | apply good_empty
    | match goal with
      | H : ?l !! ?k = Some ?h |- good strict ?h => apply (Forall_lookup_1 (good strict) l k h); [|exact H]
      | |- good strict (fst (move_ctor _ _)) => apply good_move
      | |- good strict (released _) => apply good_released
      | |- good strict (mkShared (control_block ?h) (convert ?c (pointer ?h))) =>
          apply (good_converted c h)
      | |- good strict (mkShared (control_block ?h) (pointer ?h)) =>
          apply (good_converted None h)
      end ].

Ltac heap_solve :=
  cbn [store owning weak];
  first
    [ assumption
    | (eapply keeps_unlink_shared; [|eassumption]); heap_solve
    | (eapply keeps_unlink_weak; [|eassumption]); heap_solve
    | (eapply keeps_copy_ctor; [|eassumption]); heap_solve
    | (eapply keeps_copy_assign; [|eassumption]); heap_solve
    | (eapply keeps_weak_from_shared; [|eassumption]); heap_solve
    | (eapply keeps_weak_copy; [|eassumption]); heap_solve
    | (eapply keeps_weak_assign; [|eassumption]); heap_solve
    | (eapply keeps_weak_assign_shared; [|eassumption]); heap_solve
    | (eapply keeps_lock; [|eassumption]); heap_solve
    | (eapply keeps_begin_object; [|eassumption]); heap_solve
    | (eapply keeps_make_shared; [|eassumption]); heap_solve
    | (eapply keeps_shared_from_this; [|eassumption]); heap_solve ].

Lemma step_handle_null op m m' :
  null_inv strict m → step_handle op m = Done m' → null_inv strict m'.
Proof.
  intros [Hs Ho] H. destruct m as [s os ws]. cbn [store owning weak] in *.
  destruct op as [i conv|i conv|i j conv|i j conv|i|i|i j|i|j|j|i j|i j|j i|j|j|i j|j];
    cbn [step_handle] in H.
  - (* Copy *)
    done_inv H. apply copy_result in Hrun as Hx. subst.
    split; [heap_solve|good_solve].
  - (* Move *)
    done_inv H. split; [heap_solve|good_solve].
  - (* CopyAssign *)
    done_inv H. split; [heap_solve|].
    cbn [owning]. apply Forall_insert; [done|].
    eapply copy_assign_good; [| |eassumption]; good_solve.
  - (* MoveAssign *)
    unfold move_assign in H.
    assert (Hbody : move_assign_conv conv i j (mkMachine s os ws) = Done m' → null_inv strict m').
    { clear H. intros H. unfold move_assign_conv, SharedPtr_swap in H. done_inv H.
      split; [heap_solve|good_solve]. }
    destruct conv; [by apply Hbody|].
    destruct (decide (i = j)); [|by apply Hbody]. by done_inv H.
  - (* Reset *)
    done_inv H. apply unlink_result in Hrun as Hx. subst. split; [heap_solve|good_solve].
  - (* Destroy *)
    done_inv H. apply unlink_result in Hrun as Hx. subst. split; [heap_solve|good_solve].
  - (* Swap *)
    unfold SharedPtr_swap in H. done_inv H. split; [heap_solve|good_solve].
  - (* WeakFromShared *)
    done_inv H. split; [heap_solve|good_solve].
  - (* WeakCopy *)
    done_inv H. split; [heap_solve|good_solve].
  - (* WeakMove *)
    unfold WeakPtr_move in H. done_inv H. split; [heap_solve|good_solve].
  - (* WeakCopyAssign *)
    done_inv H. split; [heap_solve|good_solve].
  - (* WeakMoveAssign *)
    destruct (decide (i = j)); [by done_inv H|].
    unfold weak_move_assign_conv, WeakPtr_move, WeakPtr_swap in H. done_inv H.
    split; [heap_solve|good_solve].
  - (* WeakAssignShared *)
    done_inv H. split; [heap_solve|good_solve].
  - (* WeakReset *)
    done_inv H. split; [heap_solve|good_solve].
  - (* WeakDestroy *)
    done_inv H. split; [heap_solve|good_solve].
  - (* WeakSwap *)
    unfold WeakPtr_swap in H. done_inv H. split; [heap_solve|good_solve].
  - (* Lock *)
    done_inv H. split; [heap_solve|].
    cbn [owning]. apply Forall_app_2; [done|]. constructor; [|constructor].
    by eapply lock_good.
Qed.

Lemma step_null op m m' :
  (strict = true → raw_nonnull op) →
  null_inv strict m → step op m = Done m' → null_inv strict m'.
Proof.
  intros Hop Hinv H.
  destruct op as [h|p|answer ok|p del answer|i p answer|p]; cbn [step] in H.
  - by eapply step_handle_null.
  - destruct Hinv as [Hs Ho]. destruct mixin.
    + done_inv H. split; [heap_solve|good_solve].
    + by injection H as <-.
  - destruct Hinv as [Hs Ho]. done_inv H. split; [heap_solve|].
    cbn [owning]. apply Forall_app_2; [done|]. constructor; [|constructor].
    by eapply make_shared_good.
  - destruct Hinv as [Hs Ho]. done_inv H. split.
    + cbn [store]. eapply keeps_from_raw; [exact Hop|exact Hs|eassumption].
    + cbn [owning]. apply Forall_app_2; [done|]. constructor; [|constructor].
      eapply from_raw_good; [exact Hop|eassumption].
  - destruct Hinv as [Hs Ho].
    unfold reset_to, SharedPtr_from_raw_default, SharedPtr_move, SharedPtr_swap in H.
    done_inv H.
    match goal with
    | Hx : SharedPtr_from_raw _ _ _ _ = Ok _ ?s1 |- _ =>
        assert (Hs1 : heap_ok strict s1)
          by (eapply keeps_from_raw; [exact Hop|exact Hs|exact Hx])
    end.
    split; [heap_solve|].
    cbn [owning]. apply Forall_insert; [done|].
    match goal with Hx : SharedPtr_from_raw _ _ _ _ = Ok ?h _ |- _ =>
      pose proof (from_raw_good _ _ _ _ _ _ Hop Hx) as Hg; by destruct h end.
  - destruct Hinv as [Hs Ho]. done_inv H. split; [heap_solve|].
    cbn [owning]. apply Forall_app_2; [done|]. constructor; [|constructor].
    by eapply shared_from_this_good.
Qed.

Lemma run_null ops m m' :
  (strict = true → Forall raw_nonnull ops) →
  null_inv strict m → run ops m = Done m' → null_inv strict m'.
Proof.
  revert m. induction ops as [|op ops IH]; intros m Hops Hinv H.
  - by injection H as <-.
  - cbn [run] in H. destruct (step op m) as [m1|?|?] eqn:Hstep; try done.
    apply (IH m1); [|by eapply step_null; [|exact Hinv|exact Hstep];
                       intros Hs; specialize (Hops Hs); by inversion Hops|done].
    intros Hs. specialize (Hops Hs). by inversion Hops.
Qed.

Lemma null_inv_empty : null_inv strict empty_machine.
Proof. split; [|constructor]. intros _ b blk Hb. cbn in Hb. by rewrite lookup_empty in Hb. Qed.

End Nullness.

(** C8, amended.  In every state a program reaches from the empty
    store, an Owning Handle whose [control_block] is null has a null
    [pointer].  The converse holds as well when no raw pointer given to
    a constructor or to [reset] is null; a handle built around a null
    raw pointer owns a block and stores a null pointer. *)
Theorem null_invariant (ops : list Op) (m : Machine) :
  run ops empty_machine = Done m →
  Forall (λ h, control_block h = None → pointer h = None) (owning m) ∧
  (Forall raw_nonnull ops →
   Forall (λ h, control_block h = None ↔ pointer h = None) (owning m)) ∧
  (∀ del a,
     heap (store m) !! a = None → mixin = false →
     ∃ h s',
       SharedPtr_from_raw None del (Some a) (store m) = Ok h s' ∧
       control_block h = Some a ∧ pointer h = None).
Proof.
  intros Hrun. split; [|split].
  - pose proof (run_null false ops empty_machine m ltac:(done)
                  (null_inv_empty false) Hrun) as [_ Hg].
    eapply Forall_impl; [exact Hg|]. by intros h [H _].
  - intros Hops.
    pose proof (run_null true ops empty_machine m ltac:(done)
                  (null_inv_empty true) Hrun) as [_ Hg].
    eapply Forall_impl; [exact Hg|]. intros h [H1 H2]. split; [done|by apply H2].
  - intros del a Ha Hm. eexists _, _.
    rewrite (from_raw_plain None del a (store m)) by done. done.
Qed.

(** * Further properties of the Owning Handle *)

(** ** Copying *)

Lemma put_cell_same b blk s :
  heap s !! b = Some (Block blk) →
  put_cell b (Block (mkBlock (shared_count blk) (weak_count blk) (variant blk))) s = s.
Proof.
  intros Hb. destruct s as [h o t], blk as [S W v]. unfold put_cell.
  cbn [heap objects trace shared_count weak_count variant] in *.
  by rewrite insert_id.
Qed.

Lemma put_cell_put_cell b c1 c2 s : put_cell b c1 (put_cell b c2 s) = put_cell b c1 s.
Proof. unfold put_cell. cbn [heap objects trace]. by rewrite insert_insert_eq. Qed.

Lemma heap_put_cell b c s : heap (put_cell b c s) !! b = Some c.
Proof. unfold put_cell. cbn [heap]. apply lookup_insert_eq. Qed.

Lemma convert_move conv other :
  fst (move_ctor conv other) = mkShared (control_block other) (convert conv (pointer other)).
Proof. by destruct conv. Qed.

(** X1.  The copy constructors, [SharedPtr(const SharedPtr&)] and its
    converting template. Copying an empty handle gives an empty handle
    and leaves the store alone. Copying a handle on a live block adds
    one to [shared_count] and to nothing else, both handles then report
    the new [use_count], and destroying the copy gives back the store
    the copy was made in. *)
Theorem copy_ctor_spec (conv : option Z) (other : SharedPtr) (s : State) :
  (control_block other = None →
     copy_ctor conv other s = Ok (mkShared None (convert conv (pointer other))) s) ∧
  (∀ b blk,
     control_block other = Some b → heap s !! b = Some (Block blk) →
     0 < shared_count blk < 2 ^ 64 - 1 →
     ∃ h s',
       copy_ctor conv other s = Ok h s' ∧
       control_block h = Some b ∧ pointer h = convert conv (pointer other) ∧
       s' = put_cell b (Block (mkBlock (shared_count blk + 1) (weak_count blk)
                                       (variant blk))) s ∧
       SharedPtr_use_count other s' = Ok (shared_count blk + 1) s' ∧
       SharedPtr_use_count h s' = Ok (shared_count blk + 1) s' ∧
       unlink_shared_pointer_from_the_control_block h s' = Ok empty_shared s).
Proof.
  split.
  - intros Hc. rewrite copy_ctor_null by done. by rewrite convert_move, Hc.
  - intros b blk Hc Hb Hn. rewrite (copy_ctor_live conv other s b blk) by done.
    rewrite pre_incr_small by lia. rewrite convert_move, Hc.
    eexists _, _. split; [reflexivity|].
    split; [done|]. split; [done|]. split; [done|].
    set (blk' := mkBlock (shared_count blk + 1) (weak_count blk) (variant blk)).
    pose proof (heap_put_cell b (Block blk') s) as Hb'.
    split; [by rewrite (use_count_live other _ b blk')|].
    split; [by rewrite (use_count_live _ _ b blk')|].
    rewrite (unlink_shared_many _ _ b blk'); [| done | done | cbn [shared_count blk']; lia].
    cbn [shared_count weak_count variant blk'].
    rewrite pre_decr_small by lia. rewrite put_cell_put_cell.
    replace (shared_count blk + 1 - 1) with (shared_count blk) by lia.
    by rewrite put_cell_same.
Qed.

(** ** Copy assignment *)

Lemma assign_conv_eq conv this other s :
  SharedPtr_assign_conv conv this other s = copy_assign conv false this other s.
Proof. by destruct conv. Qed.

(** X2.  [operator=] from an lvalue. Assigning a handle to itself goes
    through the guard and changes nothing. Otherwise the operator copies
    the source and then releases what the target held: between two
    handles of one block the store does not change, onto an empty target
    it is the copy constructor, and from an empty source it is the
    destructor of the target. *)
Theorem copy_assign_spec :
  (∀ this other s, SharedPtr_assign true this other s = Ok this s) ∧
  (∀ i m this,
     owning m !! i = Some this → step_handle (CopyAssign i i None) m = Done m) ∧
  (∀ conv this other s b blk,
     control_block this = Some b → control_block other = Some b →
     heap s !! b = Some (Block blk) → 0 < shared_count blk < 2 ^ 64 - 1 →
     SharedPtr_assign_conv conv this other s =
       Ok (mkShared (Some b) (convert conv (pointer other))) s) ∧
  (∀ conv this other s,
     control_block this = None →
     SharedPtr_assign_conv conv this other s = copy_ctor conv other s) ∧
  (∀ conv this other s,
     control_block other = None →
     SharedPtr_assign_conv conv this other s =
       match unlink_shared_pointer_from_the_control_block this s with
       | Ok _ s' => Ok (mkShared None (convert conv (pointer other))) s'
       | Throw e s' => Throw e s'
       | Undefined u => Undefined u
       end).
Proof.
  split; [done|]. split; [|split; [|split]].
  - intros i m this Hi. cbn [step_handle]. unfold with_owning. rewrite Hi.
    rewrite bool_decide_eq_true_2 by done. unfold exec. cbn [copy_assign SharedPtr_assign].
    cbv [mret M_ret]. rewrite list_insert_id by done. by destruct m.
  - intros conv this other s b blk Ht Ho Hb Hn.
    rewrite assign_conv_eq, copy_assign_unfold.
    replace (match conv with None => false | Some _ => false end) with false
      by (by destruct conv).
    rewrite (copy_ctor_live conv other s b blk) by done.
    rewrite pre_incr_small by lia.
    set (blk' := mkBlock (shared_count blk + 1) (weak_count blk) (variant blk)).
    rewrite (unlink_shared_many this _ b blk');
      [| done | apply heap_put_cell | cbn [shared_count blk']; lia].
    cbn [shared_count weak_count variant blk'].
    rewrite pre_decr_small by lia. rewrite put_cell_put_cell.
    replace (shared_count blk + 1 - 1) with (shared_count blk) by lia.
    by rewrite put_cell_same, convert_move, Ho.
  - intros conv this other s Ht. rewrite assign_conv_eq, copy_assign_unfold.
    replace (match conv with None => false | Some _ => false end) with false
      by (by destruct conv).
    destruct (copy_ctor conv other s) as [c s1|e s1|u]; try done.
    by rewrite unlink_shared_null.
  - intros conv this other s Ho. rewrite assign_conv_eq, copy_assign_unfold.
    replace (match conv with None => false | Some _ => false end) with false
      by (by destruct conv).
    rewrite copy_ctor_null by done. by rewrite convert_move, Ho.
Qed.

(** ** Empty handles *)

(** X3.  What an empty Owning Handle allows. [use_count()], [operator->]
    and [operator*] go through the null block pointer; so does the
    construction of a [WeakPtr] from the handle. [get()], copying,
    [reset()] and the destructor are harmless and leave the store alone. *)
Theorem empty_shared_access (h : SharedPtr) (s : State) :
  control_block h = None →
  SharedPtr_use_count h s = Undefined NullDeref ∧
  SharedPtr_arrow h s = Undefined NullDeref ∧
  WeakPtr_from_shared h s = Undefined NullDeref ∧
  (∀ w, WeakPtr_assign_shared w h s = Undefined NullDeref) ∧
  SharedPtr_get h = pointer h ∧
  (∀ conv, ∃ h', copy_ctor conv h s = Ok h' s ∧ control_block h' = None) ∧
  SharedPtr_reset h s = Ok h s ∧
  unlink_shared_pointer_from_the_control_block h s = Ok h s.
Proof.
  intros Hc.
  split; [by unfold SharedPtr_use_count; rewrite Hc|].
  split; [by unfold SharedPtr_arrow; rewrite Hc|].
  split; [by apply weak_from_shared_null|].
  split.
  { intros w. unfold WeakPtr_assign_shared. rewrite bind_eq.
    by rewrite weak_from_shared_null. }
  split; [done|].
  split.
  { intros conv. eexists. rewrite copy_ctor_null by done. split; [done|].
    by rewrite control_block_move. }
  split; by apply unlink_shared_null.
Qed.

(** ** Releasing twice *)

Lemma unlink_shared_result this s h s' :
  unlink_shared_pointer_from_the_control_block this s = Ok h s' → control_block h = None.
Proof.
  unfold unlink_shared_pointer_from_the_control_block.
  destruct (control_block this) as [b|] eqn:Hc; [|by intros [= <- <-]].
  rewrite bind_eq. destruct (read_block b s) as [blk s0|e s0|u]; try done.
  destruct (1 <? shared_count blk).
  - rewrite bind_eq. destruct (decr_shared b s0); try done. by intros [= <- <-].
  - rewrite bind_eq. destruct (destroy_object b s0) as [x s1|e s1|u]; try done.
    rewrite bind_eq. destruct (decr_shared b s1) as [y s2|e s2|u]; try done.
    rewrite bind_eq. destruct (read_block b s2) as [blk' s3|e s3|u]; try done.
    rewrite bind_eq.
    destruct ((if weak_count blk' =? 0 then destroy_block b else mret tt) s3); try done.
    by intros [= <- <-].
Qed.

Lemma unlink_weak_result this s w s' :
  unlink_weak_pointer_from_the_control_block this s = Ok w s' → weak_block w = None.
Proof.
  unfold unlink_weak_pointer_from_the_control_block.
  destruct (weak_block this) as [b|] eqn:Hc; [|by intros [= <- <-]].
  rewrite bind_eq. destruct (decr_weak b s) as [x s0|e s0|u]; try done.
  rewrite bind_eq. destruct (read_block b s0) as [blk s1|e s1|u]; try done.
  rewrite bind_eq.
  destruct ((if (shared_count blk =? 0) && (weak_count blk =? 0)
             then destroy_block b else mret tt) s1); try done.
  by intros [= <- <-].
Qed.

(** X4.  The destructor and [reset()] null both fields of the handle, so
    a handle that was released can be released again, or destroyed after
    a [reset()]: the second call returns at once and changes nothing.
    The same holds for a Non-owning Handle. *)
Theorem release_twice :
  (∀ this s h s',
     unlink_shared_pointer_from_the_control_block this s = Ok h s' →
     control_block h = None ∧
     unlink_shared_pointer_from_the_control_block h s' = Ok h s' ∧
     SharedPtr_reset h s' = Ok h s') ∧
  (∀ this s w s',
     unlink_weak_pointer_from_the_control_block this s = Ok w s' →
     weak_block w = None ∧
     unlink_weak_pointer_from_the_control_block w s' = Ok w s' ∧
     WeakPtr_reset w s' = Ok w s').
Proof.
  split.
  - intros this s h s' H. apply unlink_shared_result in H.
    split; [done|]. split; by apply unlink_shared_null.
  - intros this s w s' H. apply unlink_weak_result in H.
    split; [done|]. split; by apply unlink_weak_null.
Qed.

(** ** Swapping *)

Lemma insert_swap_back {A} (l : list A) i j x y :
  l !! i = Some x → l !! j = Some y →
  <[i := x]> (<[j := y]> (<[i := y]> (<[j := x]> l))) = l.
Proof.
  intros Hi Hj. apply list_eq. intros n.
  pose proof (lookup_lt_Some _ _ _ Hi) as Hli.
  pose proof (lookup_lt_Some _ _ _ Hj) as Hlj.
  destruct (decide (n = i)) as [->|Hni].
  - rewrite list_lookup_insert_eq by (by rewrite !length_insert). done.
  - rewrite list_lookup_insert_ne by done.
    destruct (decide (n = j)) as [->|Hnj].
    + rewrite list_lookup_insert_eq by (by rewrite !length_insert). done.
    + by rewrite !list_lookup_insert_ne by done.
Qed.

Lemma lookup_swapped {A} (l : list A) i j x y :
  l !! i = Some x → l !! j = Some y →
  <[i := y]> (<[j := x]> l) !! i = Some y ∧ <[i := y]> (<[j := x]> l) !! j = Some x.
Proof.
  intros Hi Hj.
  pose proof (lookup_lt_Some _ _ _ Hi) as Hli.
  pose proof (lookup_lt_Some _ _ _ Hj) as Hlj.
  split.
  - by rewrite list_lookup_insert_eq by (by rewrite length_insert).
  - destruct (decide (i = j)) as [->|Hne].
    + rewrite list_lookup_insert_eq by (by rewrite length_insert). congruence.
    + rewrite list_lookup_insert_ne by done. by rewrite list_lookup_insert_eq.
Qed.

Lemma refs_swapped {A} (f : A → ptr) b (l : list A) i j x y :
  l !! i = Some x → l !! j = Some y →
  refs b (f <$> <[i := y]> (<[j := x]> l)) = refs b (f <$> l).
Proof.
  intros Hi Hj.
  assert (Hi' : <[j := x]> l !! i = Some x).
  { destruct (decide (i = j)) as [->|Hne].
    - apply list_lookup_insert_eq. by eapply lookup_lt_Some.
    - by rewrite list_lookup_insert_ne. }
  rewrite (refs_fmap_insert f b _ i y x Hi'), (refs_fmap_insert f b l j x y Hj). lia.
Qed.

(** X5.  [swap] exchanges the contents of two Owning Handles and touches
    neither the store nor any counter: every block keeps its number of
    owners, the other handles stay as they are, and swapping again gives
    back the machine. A handle swapped with itself is unchanged. *)
Theorem swap_spec (i j : nat) (m : Machine) (hi hj : SharedPtr) :
  owning m !! i = Some hi → owning m !! j = Some hj →
  ∃ m',
    step_handle (Swap i j) m = Done m' ∧
    store m' = store m ∧ weak m' = weak m ∧
    owning m' !! i = Some hj ∧ owning m' !! j = Some hi ∧
    (∀ n, n ≠ i → n ≠ j → owning m' !! n = owning m !! n) ∧
    (∀ b, owners b m' = owners b m) ∧
    step_handle (Swap i j) m' = Done m.
Proof.
  intros Hi Hj.
  exists (mkMachine (store m) (<[i := hj]> (<[j := hi]> (owning m))) (weak m)).
  destruct (lookup_swapped (owning m) i j hi hj Hi Hj) as [Hi' Hj'].
  split.
  { cbn [step_handle]. unfold with_owning. rewrite Hi, Hj. unfold SharedPtr_swap.
    by destruct hi, hj. }
  split; [done|]. split; [done|]. split; [done|]. split; [done|].
  split.
  { intros n Hni Hnj. cbn [owning]. by rewrite !list_lookup_insert_ne by done. }
  split.
  { intros b. unfold owners. cbn [owning]. by apply refs_swapped. }
  cbn [step_handle]. unfold with_owning. cbn [owning store weak].
  rewrite Hi', Hj'. unfold SharedPtr_swap.
  destruct hi as [ci pi], hj as [cj pj]. cbn [control_block pointer].
  rewrite insert_swap_back by done. by destruct m.
Qed.

(** ** [reset] to a new pointee *)

(** X6.  [reset(p)], which exists for a pointee without the mixin,
    builds a temporary Owning Handle around [p] and move-assigns it. When the allocation of the new block fails the
    exception leaves handle and store as they were. Otherwise the new
    block, with one owner and the default deleter, exists before the old
    contents of the handle are released, and that release is the
    destructor's; on an empty handle nothing else happens. *)
Theorem reset_to_spec (i : nat) (p : ptr) (m : Machine) (this : SharedPtr) :
  owning m !! i = Some this →
  (mixin = false → step (ResetTo i p None) m = Raised bad_alloc m) ∧
  (∀ a,
     mixin = false → heap (store m) !! a = None →
     ∃ h s1,
       h = mkShared (Some a) p ∧
       s1 = put_cell a (Block (mkBlock 1 0 (ControlBlockFromPointer default_delete p))) (store m) ∧
       SharedPtr_use_count h s1 = Ok 1 s1 ∧
       step (ResetTo i p (Some a)) m =
         exec (unlink_shared_pointer_from_the_control_block this)
              (mkMachine s1 (<[i := h]> (owning m)) (weak m))
              (λ _ s2, Done (mkMachine s2 (<[i := h]> (owning m)) (weak m))) ∧
       (control_block this = None →
        step (ResetTo i p (Some a)) m =
          Done (mkMachine s1 (<[i := h]> (owning m)) (weak m)))).
Proof.
  intros Hi. split.
  { intros Hm. cbn [step]. unfold reset_to, with_owning. rewrite Hi.
    unfold exec, SharedPtr_from_raw_default, SharedPtr_from_raw. rewrite Hm. by destruct m. }
  intros a Hm Ha. eexists _, _. split; [reflexivity|]. split; [reflexivity|].
  split.
  { by rewrite (use_count_live (mkShared (Some a) _) _ a _ eq_refl (heap_put_cell _ _ _)). }
  assert (Hstep : step (ResetTo i p (Some a)) m =
    exec (unlink_shared_pointer_from_the_control_block this)
      (mkMachine (put_cell a (Block (mkBlock 1 0 (ControlBlockFromPointer default_delete p))) (store m))
         (<[i := mkShared (Some a) p]> (owning m)) (weak m))
      (λ _ s2, Done (mkMachine s2
         (<[i := mkShared (Some a) p]> (owning m)) (weak m)))).
  { cbn [step]. unfold reset_to, with_owning. rewrite Hi. unfold exec at 1.
    unfold SharedPtr_from_raw_default. rewrite (from_raw_plain p _ a _ Hm Ha).
    unfold SharedPtr_move, SharedPtr_swap. cbn [control_block pointer].
    destruct this as [c q]. cbn [control_block pointer].
    unfold exec. cbn [store owning weak].
    destruct (unlink_shared_pointer_from_the_control_block _ _) as [x s2|e s2|u]; try done. }
  split; [exact Hstep|].
  intros Hc. rewrite Hstep. unfold exec. cbn [store owning weak].
  by rewrite unlink_shared_null.
Qed.

(** ** The factory *)

Lemma make_shared_state a s :
  heap s !! a = None →
  makeShared (Some a) true s =
    Ok (mkShared (Some a) (Some (embedded_obj a)))
       (mkState (<[a := Block (mkBlock 1 mix ControlBlockEmbeded)]> (heap s))
                (if mixin then <[embedded_obj a := mkWeak (Some a)]> (objects s)
                 else objects s)
                (trace s)).
Proof.
  intros Ha. destruct s as [h o t]. cbn [heap objects trace] in *.
  unfold makeShared, allocateShared, construct_embedded, SharedPtr_attach,
    WeakPtr_assign_shared, mix.
  assert (H1 : pre_incr 0 = 1) by (apply (pre_incr_small 0); lia).
  destruct mixin.
  - mrun. rewrite H1. rewrite !insert_insert_eq.
    erewrite weak_from_shared_live;
      [| done | cbn [heap]; apply lookup_insert_eq | cbn [shared_count]; lia].
    mrun. rewrite unlink_weak_null by done. mrun.
    rewrite !insert_insert_eq. by rewrite H1.
  - mrun. rewrite H1. by rewrite !insert_insert_eq.
Qed.

(** X7.  [makeShared] / [allocateShared] with storage from the allocator
    and a pointee constructor that returns: the handle owns a new
    embedded block, [use_count()] is 1, [get()] and [operator->] agree
    on the address of the embedded object, no other block is touched and
    nothing is destroyed. For a pointee with the mixin the block counts
    the object's [weak_this] as one Non-owning Handle, and
    [shared_from_this] on the new object gives a second owner. *)
Theorem make_shared_spec (a : Z) (s : State) :
  heap s !! a = None →
  ∃ h s',
    makeShared (Some a) true s = Ok h s' ∧
    allocateShared (Some a) true s = Ok h s' ∧
    control_block h = Some a ∧
    SharedPtr_get h = Some (embedded_obj a) ∧
    SharedPtr_arrow h s' = Ok (SharedPtr_get h) s' ∧
    SharedPtr_use_count h s' = Ok 1 s' ∧
    heap s' !! a = Some (Block (mkBlock 1 mix ControlBlockEmbeded)) ∧
    (∀ b, b ≠ a → heap s' !! b = heap s !! b) ∧
    trace s' = trace s ∧
    (mixin = true →
       ∃ h2 s2,
         shared_from_this (embedded_obj a) s' = Ok h2 s2 ∧
         control_block h2 = Some a ∧
         SharedPtr_get h2 = SharedPtr_get h ∧
         SharedPtr_use_count h2 s2 = Ok 2 s2).
Proof.
  intros Ha. eexists _, _. split; [by apply make_shared_state|].
  split; [by apply make_shared_state|].
  match goal with |- context [mkState ?hh ?oo ?tt] => set (s' := mkState hh oo tt) end.
  assert (Hb : heap s' !! a = Some (Block (mkBlock 1 mix ControlBlockEmbeded))).
  { subst s'. cbn [heap]. apply lookup_insert_eq. }
  split; [done|]. split; [done|].
  split.
  { unfold SharedPtr_arrow. cbn [control_block]. mcbv.
    by rewrite (get_pointer_live s' a _ Hb). }
  split; [by rewrite (use_count_live (mkShared (Some a) _) s' a _ eq_refl Hb)|].
  split; [done|].
  split.
  { intros b Hne. subst s'. cbn [heap]. by rewrite lookup_insert_ne. }
  split; [done|].
  intros Hm.
  destruct (shared_from_this_live (embedded_obj a) s' a
              (mkBlock 1 mix ControlBlockEmbeded))
    as (s2 & blk2 & Hs & Hb2 & Hc2 & Hv2).
  { subst s'. cbn [objects]. rewrite Hm. apply lookup_insert_eq. }
  { done. }
  { cbn [shared_count]. lia. }
  { done. }
  eexists _, s2. split; [exact Hs|]. split; [done|]. split; [done|].
  rewrite (use_count_live _ s2 a blk2) by done. by rewrite Hc2.
Qed.

(** * Further properties of the Non-owning Handle *)

(** ** Construction from an Owning Handle *)

Lemma put_cell_back b blk blk' s :
  heap s !! b = Some (Block blk) →
  shared_count blk' = shared_count blk → weak_count blk' = weak_count blk →
  variant blk' = variant blk →
  ∀ c, put_cell b (Block blk') (put_cell b c s) = s.
Proof.
  intros Hb H1 H2 H3 c. rewrite put_cell_put_cell.
  destruct blk' as [S W v]. cbn [shared_count weak_count variant] in *. subst.
  by apply put_cell_same.
Qed.

(** X8.  [WeakPtr(SharedPtr)] and [operator=(const SharedPtr&)]. The
    argument of the constructor is passed by value, so the constructor
    copies and destroys an Owning Handle around its one statement; what
    is left is one more in [weak_count], with [shared_count] as before.
    The new handle is not expired, and destroying it gives back the
    store. Assigned to an empty [WeakPtr] the result is the
    constructor's; assigned to a [WeakPtr] on the same block the store
    does not change. *)
Theorem weak_from_shared_spec (arg : SharedPtr) (s : State) (b : Z) (blk : BaseControlBlock) :
  control_block arg = Some b → heap s !! b = Some (Block blk) →
  0 < shared_count blk < 2 ^ 64 - 1 → 0 ≤ weak_count blk < 2 ^ 64 - 1 →
  ∃ s',
    s' = put_cell b (Block (mkBlock (shared_count blk) (weak_count blk + 1)
                                    (variant blk))) s ∧
    WeakPtr_from_shared arg s = Ok (mkWeak (Some b)) s' ∧
    SharedPtr_use_count arg s' = Ok (shared_count blk) s' ∧
    WeakPtr_expired (mkWeak (Some b)) s' = Ok false s' ∧
    unlink_weak_pointer_from_the_control_block (mkWeak (Some b)) s' = Ok empty_weak s ∧
    (∀ this, weak_block this = None →
       WeakPtr_assign_shared this arg s = Ok (mkWeak (Some b)) s') ∧
    (∀ this, weak_block this = Some b →
       WeakPtr_assign_shared this arg s = Ok (mkWeak (Some b)) s).
Proof.
  intros Hc Hb HS HW. eexists. split; [reflexivity|].
  set (blk' := mkBlock (shared_count blk) (weak_count blk + 1) (variant blk)).
  pose proof (heap_put_cell b (Block blk') s) as Hb'.
  assert (Hfrom : WeakPtr_from_shared arg s = Ok (mkWeak (Some b)) (put_cell b (Block blk') s)).
  { rewrite (weak_from_shared_live arg s b blk) by (done || lia).
    by rewrite pre_incr_small by lia. }
  assert (Hback : ∀ w, weak_block w = Some b →
            unlink_weak_pointer_from_the_control_block w (put_cell b (Block blk') s) =
              Ok empty_weak s).
  { intros w Hw. rewrite (unlink_weak_live w _ b blk') by done.
    unfold after_unlink_weak. cbn [shared_count weak_count variant blk'].
    destruct (Z.eqb_spec (shared_count blk) 0); [lia|]. cbn [andb].
    rewrite pre_decr_small by lia.
    by rewrite (put_cell_back b blk) by (done || cbn; lia). }
  split; [done|].
  split; [by rewrite (use_count_live arg _ b blk')|].
  split.
  { rewrite (expired_live _ _ b blk') by done. cbn [shared_count blk'].
    by destruct (Z.eqb_spec (shared_count blk) 0); [lia|]. }
  split; [by apply Hback|].
  split.
  - intros this Hw. unfold WeakPtr_assign_shared. rewrite bind_eq, Hfrom.
    unfold WeakPtr_swap. cbn [weak_block]. rewrite bind_eq.
    by rewrite unlink_weak_null by done.
  - intros this Hw. unfold WeakPtr_assign_shared. rewrite bind_eq, Hfrom.
    unfold WeakPtr_swap. cbn [weak_block]. rewrite bind_eq.
    by rewrite Hback by done.
Qed.

(** ** Copying a Non-owning Handle *)

(** X9.  [WeakPtr(const WeakPtr&)] and [operator=(const WeakPtr&)]. The
    copy adds one to [weak_count] and to nothing else, whether or not
    the block still has owners; the copy is expired exactly when the
    source is, and destroying it gives back the store. An assignment
    between two handles of one block leaves the store alone, and so does
    a self-assignment, which the guard answers. *)
Theorem weak_copy_spec (other : WeakPtr) (s : State) (b : Z) (blk : BaseControlBlock) :
  weak_block other = Some b → heap s !! b = Some (Block blk) →
  0 < weak_count blk < 2 ^ 64 - 1 →
  ∃ s',
    s' = put_cell b (Block (mkBlock (shared_count blk) (weak_count blk + 1)
                                    (variant blk))) s ∧
    WeakPtr_copy other s = Ok (mkWeak (Some b)) s' ∧
    WeakPtr_expired other s = Ok (shared_count blk =? 0) s ∧
    WeakPtr_expired (mkWeak (Some b)) s' = Ok (shared_count blk =? 0) s' ∧
    unlink_weak_pointer_from_the_control_block (mkWeak (Some b)) s' = Ok empty_weak s ∧
    (∀ this, weak_block this = None →
       WeakPtr_assign false this other s = Ok (mkWeak (Some b)) s') ∧
    (∀ this, weak_block this = Some b →
       WeakPtr_assign false this other s = Ok (mkWeak (Some b)) s) ∧
    (∀ this, WeakPtr_assign true this other s = Ok this s).
Proof.
  intros Hc Hb HW. eexists. split; [reflexivity|].
  set (blk' := mkBlock (shared_count blk) (weak_count blk + 1) (variant blk)).
  pose proof (heap_put_cell b (Block blk') s) as Hb'.
  assert (Hcopy : WeakPtr_copy other s = Ok (mkWeak (Some b)) (put_cell b (Block blk') s)).
  { rewrite (weak_copy_live other s b blk) by done. by rewrite pre_incr_small by lia. }
  assert (Hback : ∀ w, weak_block w = Some b →
            unlink_weak_pointer_from_the_control_block w (put_cell b (Block blk') s) =
              Ok empty_weak s).
  { intros w Hw. rewrite (unlink_weak_live w _ b blk') by done.
    unfold after_unlink_weak. cbn [shared_count weak_count variant blk'].
    rewrite pre_decr_small by lia.
    destruct (Z.eqb_spec (weak_count blk + 1 - 1) 0); [lia|].
    rewrite andb_false_r.
    by rewrite (put_cell_back b blk) by (done || cbn; lia). }
  split; [done|].
  split; [by apply (expired_live other s b blk)|].
  split; [by rewrite (expired_live _ _ b blk')|].
  split; [by apply Hback|].
  split; [|split; [|done]].
  - intros this Hw. unfold WeakPtr_assign, WeakPtr_assign_conv. rewrite bind_eq, Hcopy.
    unfold WeakPtr_swap. cbn [weak_block]. rewrite bind_eq.
    by rewrite unlink_weak_null by done.
  - intros this Hw. unfold WeakPtr_assign, WeakPtr_assign_conv. rewrite bind_eq, Hcopy.
    unfold WeakPtr_swap. cbn [weak_block]. rewrite bind_eq.
    by rewrite Hback by done.
Qed.

(** ** Empty Non-owning Handles *)

(** X10.  What an empty [WeakPtr] allows. [expired()], [lock()],
    [reset()] and the destructor test for the null block. The copy
    constructor does not: it increments through the null pointer, and
    with it every copy assignment from an empty handle other than a
    self-assignment. [use_count()], [operator->] and [operator*]
    dereference the null block as well. *)
Theorem empty_weak_access (w : WeakPtr) (s : State) :
  weak_block w = None →
  WeakPtr_copy w s = Undefined NullDeref ∧
  (∀ this, WeakPtr_assign false this w s = Undefined NullDeref) ∧
  WeakPtr_assign true w w s = Ok w s ∧
  WeakPtr_use_count w s = Undefined NullDeref ∧
  WeakPtr_arrow w s = Undefined NullDeref ∧
  WeakPtr_expired w s = Ok true s ∧
  WeakPtr_lock w s = Ok empty_shared s ∧
  WeakPtr_reset w s = Ok w s ∧
  unlink_weak_pointer_from_the_control_block w s = Ok w s.
Proof.
  intros Hw.
  split; [by apply weak_copy_null|].
  split.
  { intros this. unfold WeakPtr_assign, WeakPtr_assign_conv. rewrite bind_eq.
    by rewrite weak_copy_null. }
  split; [done|].
  split; [by unfold WeakPtr_use_count; rewrite Hw|].
  split; [by unfold WeakPtr_arrow; rewrite Hw|].
  split; [by apply expired_null|].
  split; [by apply lock_expired, expired_null|].
  split; by apply unlink_weak_null.
Qed.

(** ** Moving a Non-owning Handle *)

(** X11.  The move constructor and move assignment of [WeakPtr]. Moving
    leaves the store untouched, hands the block to the new handle and
    empties the source, so every block keeps its number of weak handles.
    Move assignment between two different handles then releases what the
    target held; a handle move-assigned to itself keeps what it holds. *)
Theorem weak_move_spec :
  (∀ j m other,
     weak m !! j = Some other →
     ∃ m',
       step_handle (WeakMove j) m = Done m' ∧
       m' = mkMachine (store m) (owning m)
              (<[j := empty_weak]> (weak m) ++ [mkWeak (weak_block other)]) ∧
       ∀ b, weak_vars b m' = weak_vars b m) ∧
  (∀ i j m this other,
     i ≠ j → weak m !! i = Some this → weak m !! j = Some other →
     step_handle (WeakMoveAssign i j) m =
       exec (unlink_weak_pointer_from_the_control_block this) m (λ _ s',
         Done (mkMachine s' (owning m)
                 (<[i := mkWeak (weak_block other)]> (<[j := empty_weak]> (weak m)))))) ∧
  (∀ i m this,
     weak m !! i = Some this → step_handle (WeakMoveAssign i i) m = Done m).
Proof.
  split; [|split].
  - intros j m other Hj. eexists. split; [|split; [reflexivity|]].
    + cbn [step_handle]. unfold with_weak. rewrite Hj. done.
    + intros b. unfold weak_vars. cbn [weak].
      rewrite refs_fmap_snoc, (refs_fmap_insert weak_block b _ j _ other Hj).
      cbn [weak_block empty_weak]. rewrite hit_null. lia.
  - intros i j m this other Hne Hi Hj. cbn [step_handle].
    rewrite decide_False by done.
    unfold weak_move_assign_conv, with_weak. rewrite Hj.
    unfold WeakPtr_move. cbn [owning store weak].
    rewrite list_lookup_insert_ne by done. rewrite Hi.
    unfold WeakPtr_swap, exec. cbn [store owning weak weak_block].
    destruct this as [c]. cbn [weak_block].
    destruct (unlink_weak_pointer_from_the_control_block _ _) as [x s1|e s1|u] eqn:E;
      try done.
    exfalso. revert E. apply (throws_unlink_weak (λ _, False)).
  - intros i m this Hi. cbn [step_handle]. rewrite decide_True by done.
    unfold with_weak. by rewrite Hi.
Qed.

(** ** Releasing a Non-owning Handle *)

(** X12.  [~WeakPtr] and [WeakPtr::reset()] on a handle with a block.
    The handle becomes empty and [weak_count] goes down by one. The
    block is released exactly when no owner is left and this was the
    last weak handle; otherwise it stays. No pointee is destroyed, no
    [weak_this] is touched and no other block changes. *)
Theorem unlink_weak_spec (this : WeakPtr) (s : State) (b : Z) (blk : BaseControlBlock) :
  weak_block this = Some b → heap s !! b = Some (Block blk) →
  0 < weak_count blk < 2 ^ 64 →
  ∃ s',
    unlink_weak_pointer_from_the_control_block this s = Ok empty_weak s' ∧
    WeakPtr_reset this s = Ok empty_weak s' ∧
    (∀ b', destroy_count b' (trace s') = destroy_count b' (trace s)) ∧
    objects s' = objects s ∧
    (∀ b', b' ≠ b → heap s' !! b' = heap s !! b') ∧
    (if (shared_count blk =? 0) && (weak_count blk =? 1)
     then heap s' !! b = None ∧ trace s' = Deallocate b :: trace s
     else heap s' !! b = Some (Block (mkBlock (shared_count blk) (weak_count blk - 1)
                                              (variant blk))) ∧
          trace s' = trace s).
Proof.
  intros Hw Hb HW. exists (after_unlink_weak b blk s).
  pose proof (unlink_weak_live this s b blk Hw Hb) as Hu.
  split; [done|]. split; [done|].
  unfold after_unlink_weak. rewrite pre_decr_small by lia.
  replace (weak_count blk - 1 =? 0) with (weak_count blk =? 1)
    by (destruct (Z.eqb_spec (weak_count blk) 1), (Z.eqb_spec (weak_count blk - 1) 0);
        done || lia).
  destruct ((shared_count blk =? 0) && (weak_count blk =? 1));
    unfold drop_cell, log, put_cell; cbn [heap objects trace].
  - split; [done|]. split; [done|]. split.
    + intros b' Hne. by rewrite lookup_delete_ne, lookup_insert_ne.
    + by rewrite lookup_delete_eq.
  - split; [done|]. split; [done|]. split.
    + intros b' Hne. by rewrite lookup_insert_ne.
    + by rewrite lookup_insert_eq.
Qed.

(** ** Dereferencing a Non-owning Handle *)

(** X13.  [WeakPtr::operator->] and [operator*] answer the block's
    [get_pointer()] and never look at [shared_count]. On an expired
    handle whose block is kept for the weak handles they still return
    the address of the pointee, which has been destroyed: after
    [makeShared], one [WeakPtr] and the destruction of the owner,
    [expired()] is true and [operator->] returns the embedded object's
    address. *)
Theorem weak_arrow_spec :
  (∀ w s b blk,
     weak_block w = Some b → heap s !! b = Some (Block blk) →
     WeakPtr_arrow w s = Ok (block_pointee b blk) s ∧
     WeakPtr_expired w s = Ok (shared_count blk =? 0) s) ∧
  (∀ a,
     ∃ m w,
       run [MakeShared (Some a) true; Handle (WeakFromShared 0); Handle (Destroy 0)]
         empty_machine = Done m ∧
       owning m = [empty_shared] ∧ weak m = [w] ∧
       WeakPtr_expired w (store m) = Ok true (store m) ∧
       WeakPtr_lock w (store m) = Ok empty_shared (store m) ∧
       WeakPtr_arrow w (store m) = Ok (Some (embedded_obj a)) (store m) ∧
       destroy_count a (trace (store m)) = 1 ∧
       objects (store m) !! embedded_obj a = None).
Proof.
  split.
  - intros w s b blk Hw Hb. split; [|by apply (expired_live w s b blk)].
    unfold WeakPtr_arrow. rewrite Hw. mcbv. by apply get_pointer_live.
  - intros a.
    exists (mkMachine (lifecycle_state a ControlBlockEmbeded 0 1) [empty_shared]
              [mkWeak (Some a)]), (mkWeak (Some a)).
    assert (Hexp : lifecycle_state a ControlBlockEmbeded 0 1 =
              mkState {[a := Block (mkBlock 0 1 ControlBlockEmbeded)]} ∅
                      [DestroyObject a 1]) by (by apply lifecycle_expired).
    split.
    { cbn [run]. rewrite step_make_shared. unfold made. cbn [step step_handle].
      unfold with_owning, exec. cbn [owning store weak lookup list_lookup].
      rewrite (lifecycle_weak_from_shared a _ 1 0) by (done || lia).
      cbn [store owning weak lookup list_lookup app].
      rewrite (lifecycle_unlink_shared a _ 1 (0 + 1)) by (done || lia).
      done. }
    split; [done|]. split; [done|]. cbn [store]. rewrite Hexp.
    split; [by erewrite expired_live by (done || apply lookup_singleton_eq)|].
    split.
    { apply lock_expired.
      by erewrite expired_live by (done || apply lookup_singleton_eq). }
    split.
    { unfold WeakPtr_arrow. cbn [weak_block]. mcbv.
      by erewrite get_pointer_live by (cbn [heap]; apply lookup_singleton_eq). }
    split; [|done]. cbn [trace destroy_count]. by rewrite decide_True.
Qed.

(** ** Swapping Non-owning Handles *)

(** X14.  [WeakPtr::swap] exchanges the blocks of two Non-owning Handles
    and changes neither the store nor the number of weak handles of any
    block; swapping again gives back the machine. *)
Theorem weak_swap_spec (i j : nat) (m : Machine) (wi wj : WeakPtr) :
  weak m !! i = Some wi → weak m !! j = Some wj →
  ∃ m',
    step_handle (WeakSwap i j) m = Done m' ∧
    store m' = store m ∧ owning m' = owning m ∧
    weak m' !! i = Some wj ∧ weak m' !! j = Some wi ∧
    (∀ n, n ≠ i → n ≠ j → weak m' !! n = weak m !! n) ∧
    (∀ b, weak_vars b m' = weak_vars b m) ∧
    step_handle (WeakSwap i j) m' = Done m.
Proof.
  intros Hi Hj.
  exists (mkMachine (store m) (owning m) (<[i := wj]> (<[j := wi]> (weak m)))).
  destruct (lookup_swapped (weak m) i j wi wj Hi Hj) as [Hi' Hj'].
  split.
  { cbn [step_handle]. unfold with_weak. rewrite Hi, Hj. unfold WeakPtr_swap.
    by destruct wi, wj. }
  split; [done|]. split; [done|]. split; [done|]. split; [done|].
  split.
  { intros n Hni Hnj. cbn [weak]. by rewrite !list_lookup_insert_ne by done. }
  split.
  { intros b. unfold weak_vars. cbn [weak]. by apply refs_swapped. }
  cbn [step_handle]. unfold with_weak. cbn [owning store weak].
  rewrite Hi', Hj'. unfold WeakPtr_swap.
  destruct wi as [ci], wj as [cj]. cbn [weak_block].
  rewrite insert_swap_back by done. by destruct m.
Qed.

(** ** One raw pointer, two handles *)

(** X15.  The raw-pointer constructor never looks for a block that
    manages the pointee already. Two Owning Handles built from one raw
    pointer get a block each, both blocks answer the same address and
    both report a [use_count()] of 1; when the two handles are destroyed
    the deleter is run once for each block, hence twice on that address. *)
Theorem raw_pointer_twice (p : ptr) (del : Deleter) (a1 a2 : Z) :
  mixin = false → a1 ≠ a2 →
  ∃ m h1 h2,
    run [FromRaw p del (Some a1); FromRaw p del (Some a2)] empty_machine =
      Done m ∧
    owning m = [h1; h2] ∧
    control_block h1 = Some a1 ∧ control_block h2 = Some a2 ∧
    SharedPtr_use_count h1 (store m) = Ok 1 (store m) ∧
    SharedPtr_use_count h2 (store m) = Ok 1 (store m) ∧
    SharedPtr_arrow h1 (store m) = Ok p (store m) ∧
    SharedPtr_arrow h2 (store m) = Ok p (store m) ∧
    ∃ m',
      run [Handle (Destroy 0); Handle (Destroy 1)] m = Done m' ∧
      trace (store m') =
        [Deallocate a2; DestroyObject a2 1; Deallocate a1; DestroyObject a1 1] ∧
      block_live a1 (store m') = false ∧ block_live a2 (store m') = false.
Proof.
  intros Hm Hne.
  set (B := Block (mkBlock 1 0 (ControlBlockFromPointer del p))).
  set (s1 := put_cell a1 B empty_state).
  set (s2 := put_cell a2 B s1).
  assert (H1 : heap s2 !! a1 = Some B).
  { subst s2 s1. cbn [put_cell heap]. rewrite lookup_insert_ne by done.
    apply lookup_insert_eq. }
  assert (H2 : heap s2 !! a2 = Some B) by apply heap_put_cell.
  exists (mkMachine s2 [mkShared (Some a1) p; mkShared (Some a2) p] []),
    (mkShared (Some a1) p), (mkShared (Some a2) p).
  split.
  { cbn [run step]. unfold exec. cbn [store empty_machine owning weak].
    rewrite (from_raw_plain p del a1 empty_state Hm) by apply lookup_empty.
    cbn [store owning weak app].
    rewrite (from_raw_plain p del a2 _ Hm); [done|].
    cbn [put_cell heap empty_state]. rewrite lookup_insert_ne by done. apply lookup_empty. }
  split; [done|]. split; [done|]. split; [done|]. cbn [store].
  split; [by rewrite (use_count_live (mkShared (Some a1) p) s2 a1 _ eq_refl H1)|].
  split; [by rewrite (use_count_live (mkShared (Some a2) p) s2 a2 _ eq_refl H2)|].
  split.
  { unfold SharedPtr_arrow. cbn [control_block]. mcbv.
    by rewrite (get_pointer_live s2 a1 _ H1). }
  split.
  { unfold SharedPtr_arrow. cbn [control_block]. mcbv.
    by rewrite (get_pointer_live s2 a2 _ H2). }
  assert (Hz : pre_decr 1 = 0) by (apply (pre_decr_small 1); lia).
  subst B. eexists. split.
  { cbn [run step step_handle]. unfold with_owning, exec.
    cbn [store owning weak lookup list_lookup].
    rewrite (unlink_shared_last (mkShared (Some a1) p) s2 a1 _ eq_refl H1)
      by (cbn [shared_count]; lia).
    rewrite (destroy_object_plain a1 s2 _ Hm H1). cbn [log heap]. rewrite H1.
    unfold after_last_owner. cbn [shared_count weak_count variant Z.eqb]. rewrite Hz.
    cbn [store owning weak lookup list_lookup insert list_insert].
    match goal with
    | |- context [unlink_shared_pointer_from_the_control_block _ ?s] => set (s3 := s)
    end.
    assert (H3 : heap s3 !! a2 =
              Some (Block (mkBlock 1 0 (ControlBlockFromPointer del p)))).
    { subst s3. cbn [drop_cell log put_cell heap].
      by rewrite lookup_delete_ne, lookup_insert_ne by done. }
    rewrite (unlink_shared_last (mkShared (Some a2) p) s3 a2 _ eq_refl H3)
      by (cbn [shared_count]; lia).
    rewrite (destroy_object_plain a2 s3 _ Hm H3). cbn [log heap]. rewrite H3.
    unfold after_last_owner. cbn [shared_count weak_count variant Z.eqb]. rewrite Hz.
    reflexivity. }
  cbn [store]. split; [done|].
  unfold block_live. cbn [drop_cell log put_cell heap].
  split.
  - rewrite lookup_delete_ne, lookup_insert_ne by done. by rewrite lookup_delete_eq.
  - by rewrite lookup_delete_eq.
Qed.

(** * Programs on many blocks *)

Lemma hit_other x b : x ≠ b → hit x (Some b) = 0.
Proof. intros H. unfold hit. rewrite decide_False; [done|]. intros [=]. done. Qed.

Lemma balance_destroy_same b n t : balance b (DestroyObject b n :: t) = balance b t + 1.
Proof. unfold balance. cbn [destroy_count free_count]. rewrite decide_True by done. lia. Qed.

Lemma balance_destroy_other x b n t :
  x ≠ b → balance x (DestroyObject b n :: t) = balance x t.
Proof.
  intros H. unfold balance. cbn [destroy_count free_count].
  rewrite decide_False by done. lia.
Qed.

Lemma balance_free_same b t : balance b (Deallocate b :: t) = balance b t - 1.
Proof. unfold balance. cbn [destroy_count free_count]. rewrite decide_True by done. lia. Qed.

Lemma balance_free_other x b t : x ≠ b → balance x (Deallocate b :: t) = balance x t.
Proof.
  intros H. unfold balance. cbn [destroy_count free_count].
  rewrite decide_False by done. lia.
Qed.

Lemma embedded_obj_ne x b : x ≠ b → embedded_obj b ≠ embedded_obj x.
Proof. unfold embedded_obj. lia. Qed.

(** ** The last owner and the private constructor, for a pointee with
    the mixin *)

Lemma destroy_object_mix b s blk :
  mixin = true → heap s !! b = Some (Block blk) → variant blk = ControlBlockEmbeded →
  objects s !! embedded_obj b = Some (mkWeak (Some b)) →
  shared_count blk ≠ 0 → 0 < weak_count blk < 2 ^ 64 →
  destroy_object b s =
    Ok tt (drop_object (embedded_obj b)
             (put_cell b (Block (mkBlock (shared_count blk) (weak_count blk - 1)
                                         ControlBlockEmbeded))
                (log (DestroyObject b (shared_count blk)) s))).
Proof.
  intros Hm Hb Hv Ho Hs Hw. unfold destroy_object. rewrite bind_eq.
  unfold read_block. rewrite Hb. rewrite bind_eq. unfold emit. rewrite Hv.
  unfold destroy_pointee. rewrite Hm. rewrite bind_eq.
  unfold read_weak_this. cbn [log objects]. rewrite Ho. rewrite bind_eq.
  rewrite (unlink_weak_live _ _ b blk) by done.
  unfold after_unlink_weak. rewrite (proj2 (Z.eqb_neq _ _) Hs). cbn [andb].
  rewrite pre_decr_small by lia. by rewrite Hv.
Qed.

Lemma attach_mix b s blk :
  mixin = true → heap s !! b = Some (Block blk) →
  objects s !! embedded_obj b = Some (mkWeak (Some b)) →
  0 < shared_count blk < 2 ^ 64 - 2 → 0 < weak_count blk < 2 ^ 64 - 1 →
  SharedPtr_attach (Some (embedded_obj b)) (Some b) s =
    Ok (mkShared (Some b) (Some (embedded_obj b)))
       (put_cell b (Block (mkBlock (shared_count blk + 1) (weak_count blk)
                                   (variant blk))) s).
Proof.
  intros Hm Hb Ho Hs Hw. destruct s as [h o t]. cbn [heap objects] in *.
  unfold SharedPtr_attach, WeakPtr_assign_shared. rewrite Hm. mrun.
  rewrite pre_incr_small by lia.
  erewrite weak_from_shared_live;
    [| done | cbn [heap]; apply lookup_insert_eq | cbn [shared_count]; lia].
  mrun.
  erewrite unlink_weak_live;
    [| done | cbn [heap]; rewrite insert_insert_eq; apply lookup_insert_eq].
  unfold after_unlink_weak. mrun.
  destruct (Z.eqb_spec (shared_count blk + 1) 0); [lia|]. cbn [andb]. mrun.
  rewrite !insert_insert_eq.
  rewrite pre_incr_small by lia. rewrite pre_decr_small by lia.
  replace (weak_count blk + 1 - 1) with (weak_count blk) by lia.
  unfold put_cell. cbn [heap objects trace]. by rewrite (insert_id o _ _ Ho).
Qed.

(** ** The invariant under the library's calls *)

Lemma tally_ext s cs cw cs' cw' :
  tally s cs cw → (∀ x, cs' x = cs x) → (∀ x, cw' x = cw x) → tally s cs' cw'.
Proof. intros Ht Hs Hw x. rewrite Hs, Hw. apply Ht. Qed.

Lemma tally_at s s' cs cw cs' cw' b :
  tally s cs cw →
  (∀ x, x ≠ b → heap s' !! x = heap s !! x) →
  (∀ x, x ≠ b → objects s' !! embedded_obj x = objects s !! embedded_obj x) →
  (∀ x, x ≠ b → balance x (trace s') = balance x (trace s)) →
  (∀ x, x ≠ b → cs' x = cs x ∧ cw' x = cw x) →
  cell_counts b (heap s' !! b) (objects s' !! embedded_obj b) (cs' b) (cw' b)
    (balance b (trace s')) →
  tally s' cs' cw'.
Proof.
  intros Ht Hh Ho Hbal Hc Hb x. destruct (decide (x = b)) as [->|Hne]; [done|].
  rewrite Hh, Ho, Hbal by done. destruct (Hc x Hne) as [-> ->]. apply Ht.
Qed.

Lemma tally_block s cs cw b :
  tally s cs cw → 0 < cs b + cw b →
  ∃ blk, heap s !! b = Some (Block blk) ∧ shared_count blk = cs b ∧
         weak_count blk = cw b + (if cs b =? 0 then 0 else mix) ∧
         balance b (trace s) = (if cs b =? 0 then 1 else 0) ∧
         (mixin = true →
            variant blk = ControlBlockEmbeded ∧
            objects s !! embedded_obj b =
              (if cs b =? 0 then None else Some (mkWeak (Some b)))).
Proof.
  intros Ht Hp. specialize (Ht b).
  destruct (heap s !! b) as [[|blk]|]; cbn in Ht; [done| |lia].
  exists blk. by destruct Ht as (-> & -> & _ & -> & ?).
Qed.

Lemma tally_fresh s cs cw a :
  tally s cs cw → heap s !! a = None →
  cs a = 0 ∧ cw a = 0 ∧ balance a (trace s) = 0 ∧
  (mixin = true → objects s !! embedded_obj a = None).
Proof. intros Ht Ha. specialize (Ht a). by rewrite Ha in Ht. Qed.

Ltac eqb_cases :=
  repeat match goal with
         | |- context [?x =? ?y] =>
             let E := fresh "E" in
             destruct (x =? y) eqn:E; rewrite ?E in *;
             [apply Z.eqb_eq in E | apply Z.eqb_neq in E]
         | H : context [?x =? ?y] |- _ =>
             let E := fresh "E" in
             destruct (x =? y) eqn:E; rewrite ?E in *;
             [apply Z.eqb_eq in E | apply Z.eqb_neq in E]
         end.

Ltac eqb_lia := eqb_cases; first [done | lia].

(** Closes the cell of the block a call worked on; [HM] is what the
    invariant said about the mixin before the call. *)
Ltac cell_solve HM :=
  cbn [cell_counts shared_count weak_count variant]; rewrite ?hit_same;
  pose proof mix_range;
  split; [eqb_lia|]; split; [eqb_lia|]; split; [eqb_lia|]; split; [eqb_lia|];
  let Hm := fresh "Hm" in
  intros Hm; destruct (HM Hm) as [? ?]; split; [done|]; eqb_lia.

Ltac cell_gone HM :=
  cbn [cell_counts]; rewrite ?hit_same; pose proof mix_range;
  split; [eqb_lia|]; split; [eqb_lia|]; split; [eqb_lia|];
  let Hm := fresh "Hm" in
  intros Hm; destruct (HM Hm) as [? ?]; eqb_lia.

(** The ways a library call changes the cell of block [b]. *)
Ltac tally_put Ht b :=
  apply (tally_at _ _ _ _ _ _ b Ht);
  [ intros x Hne; cbn [put_cell log heap]; by rewrite lookup_insert_ne
  | intros x Hne; cbn [put_cell log objects]; done
  | intros x Hne; cbn [put_cell log trace];
    rewrite ?balance_destroy_other by done; done
  | intros x Hne; rewrite hit_other by done; split; first [done | lia]
  | cbn [put_cell log heap objects trace];
    rewrite lookup_insert_eq, ?balance_destroy_same ].

Ltac tally_drop Ht b :=
  apply (tally_at _ _ _ _ _ _ b Ht);
  [ intros x Hne; cbn [drop_cell put_cell log heap];
    by rewrite lookup_delete_ne, lookup_insert_ne
  | intros x Hne; cbn [drop_cell put_cell log objects]; done
  | intros x Hne; cbn [drop_cell put_cell log trace];
    rewrite ?balance_free_other, ?balance_destroy_other by done; done
  | intros x Hne; rewrite hit_other by done; split; first [done | lia]
  | cbn [drop_cell put_cell log heap objects trace];
    rewrite lookup_delete_eq, balance_free_same, ?balance_destroy_same ].

Lemma tally_copy N conv other s cs cw :
  N + 2 < 2 ^ 64 → tally s cs cw → in_range N cs → in_range N cw →
  (∀ x, hit x (control_block other) ≤ cs x) →
  ∃ s', copy_ctor conv other s = Ok (fst (move_ctor conv other)) s' ∧
        tally s' (λ x, cs x + hit x (control_block other)) cw.
Proof.
  intros HN Ht Hs Hw Hh. destruct (control_block other) as [b|] eqn:Hc.
  - pose proof (Hh b) as Hb. rewrite hit_same in Hb.
    pose proof (Hs b) as Hsb. pose proof (Hw b) as Hwb.
    destruct (tally_block _ _ _ b Ht) as (blk & Hblk & HS & HW & HB & HM); [lia|].
    eexists. split; [by apply (copy_ctor_live conv other s b blk)|].
    tally_put Ht b. rewrite HB, pre_incr_small by lia. cell_solve HM.
  - exists s. split; [by apply copy_ctor_null|].
    apply (tally_ext _ cs cw); [done| |done]. intros x. rewrite hit_null. lia.
Qed.

Lemma tally_unlink N this s cs cw :
  N + 2 < 2 ^ 64 → tally s cs cw → in_range N cs → in_range N cw →
  (∀ x, hit x (control_block this) ≤ cs x) →
  ∃ s', unlink_shared_pointer_from_the_control_block this s = Ok (released this) s' ∧
        tally s' (λ x, cs x - hit x (control_block this)) cw.
Proof.
  intros HN Ht Hs Hw Hh. unfold released.
  destruct (control_block this) as [b|] eqn:Hc.
  - pose proof (Hh b) as Hb. rewrite hit_same in Hb.
    pose proof (Hs b) as Hsb. pose proof (Hw b) as Hwb. pose proof mix_range as Hmix.
    destruct (tally_block _ _ _ b Ht) as (blk & Hblk & HS & HW & HB & HM); [lia|].
    destruct (Z.ltb_spec 1 (shared_count blk)) as [Hmany|Hone].
    + eexists. split; [by apply (unlink_shared_many this s b blk)|].
      tally_put Ht b. rewrite HB, pre_decr_small by lia. cell_solve HM.
    + rewrite (unlink_shared_last this s b blk) by (done || lia).
      assert (Hz : pre_decr (shared_count blk) = 0).
      { rewrite pre_decr_small by lia. lia. }
      assert (Hnz : (cs b =? 0) = false) by (apply Z.eqb_neq; lia).
      rewrite Hnz in HW, HB, HM.
      destruct mixin eqn:Hmx.
      * destruct (HM eq_refl) as [Hv Ho].
        assert (Hmix1 : mix = 1) by (unfold mix; by rewrite Hmx).
        rewrite Hmix1 in HW.
        rewrite (destroy_object_mix b s blk) by (done || lia).
        cbn [drop_object put_cell log heap]. rewrite lookup_insert_eq.
        eexists. split; [reflexivity|].
        unfold after_last_owner. cbn [shared_count weak_count variant].
        rewrite Hz.
        destruct (Z.eqb_spec (weak_count blk - 1) 0) as [Hw0|Hw0].
        -- apply (tally_at _ _ _ _ _ _ b Ht).
           ++ intros x Hne. cbn [drop_cell drop_object put_cell log heap].
              by rewrite lookup_delete_ne, !lookup_insert_ne.
           ++ intros x Hne. cbn [drop_cell drop_object put_cell log objects].
              by rewrite lookup_delete_ne by (by apply embedded_obj_ne).
           ++ intros x Hne. cbn [drop_cell drop_object put_cell log trace].
              by rewrite balance_free_other, balance_destroy_other.
           ++ intros x Hne. rewrite hit_other by done. split; [lia|done].
           ++ cbn [drop_cell drop_object put_cell log heap objects trace].
              rewrite !lookup_delete_eq, balance_free_same, balance_destroy_same.
              cbn [cell_counts]. rewrite hit_same, HB. repeat split; lia || done.
        -- apply (tally_at _ _ _ _ _ _ b Ht).
           ++ intros x Hne. cbn [drop_object put_cell log heap].
              by rewrite !lookup_insert_ne.
           ++ intros x Hne. cbn [drop_object put_cell log objects].
              by rewrite lookup_delete_ne by (by apply embedded_obj_ne).
           ++ intros x Hne. cbn [drop_object put_cell log trace].
              by rewrite balance_destroy_other.
           ++ intros x Hne. rewrite hit_other by done. split; [lia|done].
           ++ cbn [drop_object put_cell log heap objects trace].
              rewrite lookup_insert_eq, lookup_delete_eq, balance_destroy_same.
              cbn [cell_counts shared_count weak_count variant]. rewrite hit_same, HB.
              replace (cs b - 1) with 0 by lia. cbn [Z.eqb].
              repeat split; lia || done.
      * assert (Hmix0 : mix = 0) by (unfold mix; by rewrite Hmx).
        rewrite Hmix0 in HW.
        rewrite (destroy_object_plain b s blk Hmx Hblk).
        cbn [log heap]. rewrite Hblk. eexists. split; [reflexivity|].
        unfold after_last_owner. rewrite Hz.
        destruct (Z.eqb_spec (weak_count blk) 0) as [Hw0|Hw0].
        -- tally_drop Ht b. rewrite HB. cbn [cell_counts]. rewrite hit_same.
           repeat split; lia || congruence.
        -- tally_put Ht b. rewrite HB.
           cbn [cell_counts shared_count weak_count variant]. rewrite hit_same.
           replace (cs b - 1) with 0 by lia. cbn [Z.eqb].
           repeat split; lia || congruence.
  - exists s. split; [by apply unlink_shared_null|].
    apply (tally_ext _ cs cw); [done| |done]. intros x. rewrite hit_null. lia.
Qed.

Lemma tally_unlink_weak N this s cs cw :
  N + 2 < 2 ^ 64 → tally s cs cw → in_range N cs → in_range N cw →
  (∀ x, hit x (weak_block this) ≤ cw x) →
  ∃ s', unlink_weak_pointer_from_the_control_block this s = Ok (released_weak this) s' ∧
        tally s' cs (λ x, cw x - hit x (weak_block this)).
Proof.
  intros HN Ht Hs Hw Hh. unfold released_weak. destruct (weak_block this) as [b|] eqn:Hc.
  - pose proof (Hh b) as Hb. rewrite hit_same in Hb.
    pose proof (Hs b) as Hsb. pose proof (Hw b) as Hwb. pose proof mix_range as Hmix.
    destruct (tally_block _ _ _ b Ht) as (blk & Hblk & HS & HW & HB & HM); [lia|].
    eexists. split; [by apply (unlink_weak_live this s b blk)|].
    unfold after_unlink_weak.
    rewrite pre_decr_small by (destruct (cs b =? 0); lia).
    destruct (Z.eqb_spec (shared_count blk) 0) as [Hs0|Hs0];
      destruct (Z.eqb_spec (weak_count blk - 1) 0) as [Hw0|Hw0]; cbn [andb].
    1: { tally_drop Ht b. rewrite HB. cell_gone HM. }
    all: tally_put Ht b; rewrite HB; cell_solve HM.
  - exists s. split; [by apply unlink_weak_null|].
    apply (tally_ext _ cs cw); [done|done|]. intros x. rewrite hit_null. lia.
Qed.

Lemma tally_weak_copy N other s cs cw b :
  N + 2 < 2 ^ 64 → tally s cs cw → in_range N cs → in_range N cw →
  weak_block other = Some b → 0 < cw b →
  ∃ s', WeakPtr_copy other s = Ok (mkWeak (Some b)) s' ∧
        tally s' cs (λ x, cw x + hit x (Some b)).
Proof.
  intros HN Ht Hs Hw Hc Hb.
  pose proof (Hs b) as Hsb. pose proof (Hw b) as Hwb. pose proof mix_range as Hmix.
  destruct (tally_block _ _ _ b Ht) as (blk & Hblk & HS & HW & HB & HM); [lia|].
  eexists. split; [by apply (weak_copy_live other s b blk)|].
  tally_put Ht b. rewrite HB.
  rewrite pre_incr_small by (destruct (cs b =? 0); lia). cell_solve HM.
Qed.

Lemma tally_weak_from_shared N arg s cs cw b :
  N + 2 < 2 ^ 64 → tally s cs cw → in_range N cs → in_range N cw →
  control_block arg = Some b → 0 < cs b →
  ∃ s', WeakPtr_from_shared arg s = Ok (mkWeak (Some b)) s' ∧
        tally s' cs (λ x, cw x + hit x (Some b)).
Proof.
  intros HN Ht Hs Hw Hc Hb.
  pose proof (Hs b) as Hsb. pose proof (Hw b) as Hwb. pose proof mix_range as Hmix.
  destruct (tally_block _ _ _ b Ht) as (blk & Hblk & HS & HW & HB & HM); [lia|].
  eexists. split; [apply (weak_from_shared_live arg s b blk); done || lia|].
  tally_put Ht b. rewrite HB.
  rewrite pre_incr_small by (destruct (cs b =? 0); lia). cell_solve HM.
Qed.

Lemma tally_lock N w s cs cw :
  N + 2 < 2 ^ 64 → tally s cs cw → in_range N cs → in_range N cw →
  (∀ x, hit x (weak_block w) ≤ cw x) →
  ∃ h s', WeakPtr_lock w s = Ok h s' ∧
          tally s' (λ x, cs x + hit x (control_block h)) cw.
Proof.
  intros HN Ht Hs Hw Hh.
  assert (Hnone : tally s (λ x, cs x + hit x (control_block empty_shared)) cw).
  { apply (tally_ext _ cs cw); [done| |done]. intros x. cbn [control_block empty_shared].
    rewrite hit_null. lia. }
  destruct (weak_block w) as [b|] eqn:Hc.
  - pose proof (Hh b) as Hb. rewrite hit_same in Hb.
    pose proof (Hs b) as Hsb. pose proof (Hw b) as Hwb. pose proof mix_range as Hmix.
    destruct (tally_block _ _ _ b Ht) as (blk & Hblk & HS & HW & HB & HM); [lia|].
    destruct (Z.eqb_spec (shared_count blk) 0) as [Hz|Hz].
    + exists empty_shared, s. split; [|done]. apply lock_expired.
      rewrite (expired_live w s b blk) by done. by rewrite Hz.
    + assert (Hnz : (cs b =? 0) = false) by (apply Z.eqb_neq; lia).
      assert (Hattach : SharedPtr_attach (block_pointee b blk) (Some b) s =
                Ok (mkShared (Some b) (block_pointee b blk))
                   (put_cell b (Block (mkBlock (shared_count blk + 1) (weak_count blk)
                                               (variant blk))) s)).
      { destruct mixin eqn:Hmx.
        - destruct (HM eq_refl) as [Hv Ho]. rewrite Hnz in Ho, HW.
          assert (Hmix1 : mix = 1) by (unfold mix; by rewrite Hmx).
          unfold block_pointee. rewrite Hv.
          rewrite (attach_mix b s blk) by (done || lia). by rewrite Hv.
        - rewrite (attach_plain (block_pointee b blk) b s blk Hmx Hblk).
          by rewrite pre_incr_small by lia. }
      eexists _, _. split.
      { unfold WeakPtr_lock. mcbv. rewrite (expired_live w s b blk) by done.
        rewrite (proj2 (Z.eqb_neq _ _) Hz).
        rewrite Hc. rewrite (get_pointer_live s b blk) by done. exact Hattach. }
      cbn [control_block].
      tally_put Ht b. rewrite HB. cell_solve HM.
  - exists empty_shared, s. split; [|done]. by apply lock_expired, expired_null.
Qed.

Lemma tally_make_shared answer ok s cs cw :
  tally s cs cw →
  match makeShared answer ok s with
  | Ok h s' => tally s' (λ x, cs x + hit x (control_block h)) cw
  | Throw _ _ => True
  | Undefined f => f = AllocatorMisuse
  end.
Proof.
  intros Ht. destruct answer as [a|]; [|done].
  destruct (heap s !! a) as [c|] eqn:Ha.
  { unfold makeShared, allocateShared. rewrite bind_eq. unfold allocate. by rewrite Ha. }
  destruct ok.
  - rewrite (make_shared_state a s Ha). cbn [control_block].
    destruct (tally_fresh _ _ _ a Ht Ha) as (Hs0 & Hw0 & Hb0 & Ho0).
    apply (tally_at _ _ _ _ _ _ a Ht).
    + intros x Hne. cbn [heap]. by rewrite lookup_insert_ne.
    + intros x Hne. cbn [objects]. destruct mixin; [|done].
      by rewrite lookup_insert_ne by (by apply embedded_obj_ne).
    + done.
    + intros x Hne. rewrite hit_other by done. split; [lia|done].
    + cbn [heap objects trace]. rewrite lookup_insert_eq, Hb0.
      cbn [cell_counts shared_count weak_count variant]. rewrite hit_same, Hs0, Hw0.
      change (0 + 1) with 1. cbn [Z.eqb].
      split; [done|]. split; [lia|]. split; [lia|]. split; [done|].
      intros Hm. split; [done|]. rewrite Hm. by rewrite lookup_insert_eq.
  - unfold makeShared, allocateShared. rewrite bind_eq. unfold allocate. by rewrite Ha.
Qed.

Lemma tally_from_raw gp del answer s cs cw :
  mixin = false → tally s cs cw →
  match SharedPtr_from_raw gp del answer s with
  | Ok h s' => tally s' (λ x, cs x + hit x (control_block h)) cw
  | Throw _ _ => True
  | Undefined f => f = AllocatorMisuse
  end.
Proof.
  intros Hplain Ht. destruct answer as [a|].
  2:{ unfold SharedPtr_from_raw. by rewrite Hplain. }
  destruct (heap s !! a) as [c|] eqn:Ha.
  { unfold SharedPtr_from_raw. rewrite Hplain, bind_eq. unfold allocate. by rewrite Ha. }
  rewrite (from_raw_plain gp del a s Hplain Ha). cbn [control_block].
  destruct (tally_fresh _ _ _ a Ht Ha) as (Hs0 & Hw0 & Hb0 & Ho0).
  tally_put Ht a. rewrite Hb0.
  cbn [cell_counts shared_count weak_count variant]. rewrite hit_same, Hs0, Hw0.
  change (0 + 1) with 1. cbn [Z.eqb]. unfold mix. rewrite Hplain.
  split; [done|]. split; [lia|]. split; [lia|]. split; [done|]. congruence.
Qed.

Lemma tally_shared_from_this N p s cs cw :
  N + 2 < 2 ^ 64 → mixin = true → tally s cs cw → in_range N cs → in_range N cw →
  match shared_from_this p s with
  | Ok h s' => tally s' (λ x, cs x + hit x (control_block h)) cw
  | Throw _ _ => True
  | Undefined f => f = DeadObject
  end.
Proof.
  intros HN Hm Ht Hs Hw. unfold shared_from_this. rewrite bind_eq.
  unfold read_weak_this. destruct (objects s !! p) as [w|] eqn:Hp; [|done].
  set (b := p - obj_offset).
  assert (Hpb : p = embedded_obj b) by (unfold embedded_obj, b; lia).
  pose proof (Ht b) as Hcell. rewrite <- Hpb, Hp in Hcell.
  pose proof (Hs b) as Hsb. pose proof (Hw b) as Hwb.
  destruct (heap s !! b) as [[|blk]|] eqn:Hblk; cbn [cell_counts] in Hcell; [done| |].
  2:{ destruct Hcell as (_ & _ & _ & Ho). by specialize (Ho Hm). }
  destruct Hcell as (HS & HW & Hpos & HB & HM). destruct (HM Hm) as [Hv Ho].
  destruct (Z.eqb_spec (cs b) 0) as [Hz|Hz]; [done|]. injection Ho as ->.
  assert (Hmix1 : mix = 1) by (unfold mix; by rewrite Hm). rewrite Hmix1 in HW.
  rewrite bind_eq, (expired_live _ s b blk) by done.
  rewrite (proj2 (Z.eqb_neq _ _)) by lia.
  unfold WeakPtr_lock. rewrite bind_eq, (expired_live _ s b blk) by done.
  rewrite (proj2 (Z.eqb_neq _ _)) by lia.
  cbn [weak_block]. mcbv. rewrite (get_pointer_live s b blk) by done.
  unfold block_pointee. rewrite Hv.
  rewrite Hpb in Hp.
  rewrite (attach_mix b s blk) by (done || lia). cbn [control_block].
  tally_put Ht b. rewrite HB.
  cbn [cell_counts shared_count weak_count variant]. rewrite hit_same, Hp.
  rewrite (proj2 (Z.eqb_neq (cs b + 1) 0)) by lia.
  rewrite Hmix1. repeat split; lia || done.
Qed.

Lemma refs_range {A} (f : A → ptr) (l : list A) n :
  Z.of_nat (length l) ≤ n → in_range n (λ b, refs b (f <$> l)).
Proof.
  intros H x. pose proof (refs_nonneg x (f <$> l)).
  pose proof (refs_le_length x (f <$> l)) as Hl. rewrite length_fmap in Hl. lia.
Qed.

Lemma in_range_add n f p : in_range n f → in_range (n + 1) (λ x, f x + hit x p).
Proof. intros H x. specialize (H x). pose proof (hit_range x p). lia. Qed.

Lemma in_range_mono n n' f : n ≤ n' → in_range n f → in_range n' f.
Proof. intros Hn H x. specialize (H x). lia. Qed.

Lemma counted_mono n n' m : n ≤ n' → counted n m → counted n' m.
Proof. intros Hn [Ht Hs]. split; [done|lia]. Qed.

Lemma lookup_insert_hit {A} (f : A → ptr) (l : list A) i j p x y :
  f p = None → l !! j = Some y → <[j := p]> l !! i = Some x →
  ∀ b, hit b (f x) ≤ refs b (f <$> l) ∧
       refs b (f <$> <[j := p]> l) = refs b (f <$> l) - hit b (f y).
Proof.
  intros Hp Hj Hi b.
  pose proof (refs_fmap_insert f b l j p y Hj) as Hr. rewrite Hp, hit_null in Hr.
  pose proof (refs_fmap_hit_le f b _ i x Hi). pose proof (hit_range b (f y)).
  split; lia.
Qed.

Ltac stuck_done := cbn [step_counted]; auto.

Lemma step_handle_counted n m op :
  n + 3 < 2 ^ 64 → counted n m → step_counted n (step_handle op m).
Proof.
  intros Hn Hc. pose proof Hc as [Ht Hsz]. destruct m as [s os ws].
  unfold owners, weak_vars in Ht. cbn [store owning weak] in *.
  assert (Hos : in_range n (λ b, refs b (control_block <$> os))) by (apply refs_range; lia).
  assert (Hws : in_range n (λ b, refs b (weak_block <$> ws))) by (apply refs_range; lia).
  assert (Hn2 : n + 2 < 2 ^ 64) by lia.
  assert (Hn3 : n + 1 + 2 < 2 ^ 64) by lia.
  destruct op as [i conv|i conv|i j conv|i j conv|i|i|i j|i|j|j|i j|i j|j i|j|j|i j|j];
    cbn [step_handle].
  - (* Copy *)
    unfold with_owning. cbn [owning]. destruct (os !! i) as [other|] eqn:Hi; [|stuck_done].
    destruct (tally_copy n conv other s _ _ Hn2 Ht Hos Hws) as (s' & Hcp & Ht').
    { intros x. by apply (refs_fmap_hit_le control_block x os i). }
    unfold exec. cbn [store]. rewrite Hcp. cbn [step_counted]. split.
    + unfold owners, weak_vars. cbn [store owning weak].
      apply (tally_ext _ _ _ _ _ Ht'); [|done]. intros x.
      by rewrite refs_fmap_snoc, control_block_move.
    + cbn [owning weak]. rewrite length_app. cbn [length]. lia.
  - (* Move *)
    unfold with_owning. cbn [owning]. destruct (os !! i) as [other|] eqn:Hi; [|stuck_done].
    rewrite move_ctor_eq. cbn [step_counted]. split.
    + unfold owners, weak_vars. cbn [store owning weak].
      apply (tally_ext _ _ _ _ _ Ht); [|done]. intros x.
      rewrite refs_fmap_snoc, (refs_fmap_insert control_block x os i _ other Hi).
      cbn [control_block empty_shared]. rewrite hit_null. lia.
    + cbn [owning weak]. rewrite length_app, length_insert. cbn [length]. lia.
  - (* CopyAssign *)
    unfold with_owning. cbn [owning]. destruct (os !! i) as [this|] eqn:Hi; [|stuck_done].
    destruct (os !! j) as [other|] eqn:Hj; [|stuck_done].
    unfold exec. cbn [store]. rewrite copy_assign_unfold.
    destruct (match conv with None => bool_decide (i = j) | Some _ => false end).
    { cbn [step_counted]. rewrite list_insert_id by done. by apply (counted_mono n); [lia|]. }
    destruct (tally_copy n conv other s _ _ Hn2 Ht Hos Hws) as (s1 & Hcp & Ht1).
    { intros x. by apply (refs_fmap_hit_le control_block x os j). }
    rewrite Hcp.
    destruct (tally_unlink (n + 1) this s1 _ _ Hn3 Ht1) as (s2 & Hun & Ht2).
    { by apply in_range_add. }
    { by apply (in_range_mono n); [lia|]. }
    { intros x. pose proof (refs_fmap_hit_le control_block x os i this Hi).
      pose proof (hit_range x (control_block other)). lia. }
    rewrite Hun. cbn [step_counted]. split.
    + unfold owners, weak_vars. cbn [store owning weak].
      apply (tally_ext _ _ _ _ _ Ht2); [|done]. intros x.
      rewrite (refs_fmap_insert control_block x os i _ this Hi), control_block_move. lia.
    + cbn [owning weak]. rewrite length_insert. lia.
  - (* MoveAssign *)
    assert (Hbody : step_counted n (move_assign_conv conv i j (mkMachine s os ws))).
    { unfold move_assign_conv, with_owning. cbn [owning store weak].
      destruct (os !! j) as [other|] eqn:Hj; [|stuck_done].
      rewrite move_ctor_eq. cbn [owning store weak].
      destruct (<[j := empty_shared]> os !! i) as [this|] eqn:Hi; [|stuck_done].
      unfold SharedPtr_swap, exec. cbn [store owning weak control_block pointer].
      pose proof (lookup_insert_hit control_block os i j empty_shared this other
                    eq_refl Hj Hi) as Hl.
      destruct (tally_unlink n (mkShared (control_block this) (pointer this)) s _ _
                  Hn2 Ht Hos Hws) as (s' & Hun & Ht').
      { intros x. cbn [control_block]. apply Hl. }
      rewrite Hun. cbn [step_counted]. split.
      + unfold owners, weak_vars. cbn [store owning weak].
        apply (tally_ext _ _ _ _ _ Ht'); [|done]. intros x. cbn [control_block].
        rewrite (refs_fmap_insert control_block x _ i _ this Hi).
        destruct (Hl x) as [_ ->]. cbn [control_block]. lia.
      + cbn [owning weak]. rewrite !length_insert. lia. }
    unfold move_assign. destruct conv as [d|]; [done|].
    destruct (decide (i = j)) as [->|Hne]; [|done].
    unfold with_owning. cbn [owning]. destruct (os !! j); [|stuck_done].
    cbn [step_counted]. by apply (counted_mono n); [lia|].
  - (* Reset *)
    unfold with_owning. cbn [owning]. destruct (os !! i) as [this|] eqn:Hi; [|stuck_done].
    destruct (tally_unlink n this s _ _ Hn2 Ht Hos Hws) as (s' & Hun & Ht').
    { intros x. by apply (refs_fmap_hit_le control_block x os i). }
    unfold exec, SharedPtr_reset. cbn [store]. rewrite Hun. cbn [step_counted]. split.
    + unfold owners, weak_vars. cbn [store owning weak].
      apply (tally_ext _ _ _ _ _ Ht'); [|done]. intros x.
      rewrite (refs_fmap_insert control_block x os i _ this Hi), control_block_released.
      rewrite hit_null. lia.
    + cbn [owning weak]. rewrite length_insert. lia.
  - (* Destroy *)
    unfold with_owning. cbn [owning]. destruct (os !! i) as [this|] eqn:Hi; [|stuck_done].
    destruct (tally_unlink n this s _ _ Hn2 Ht Hos Hws) as (s' & Hun & Ht').
    { intros x. by apply (refs_fmap_hit_le control_block x os i). }
    unfold exec. cbn [store]. rewrite Hun. cbn [step_counted]. split.
    + unfold owners, weak_vars. cbn [store owning weak].
      apply (tally_ext _ _ _ _ _ Ht'); [|done]. intros x.
      rewrite (refs_fmap_insert control_block x os i _ this Hi), control_block_released.
      rewrite hit_null. lia.
    + cbn [owning weak]. rewrite length_insert. lia.
  - (* Swap *)
    unfold with_owning. cbn [owning]. destruct (os !! i) as [this|] eqn:Hi; [|stuck_done].
    destruct (os !! j) as [other|] eqn:Hj; [|stuck_done].
    unfold SharedPtr_swap. destruct this as [c1 p1], other as [c2 p2].
    cbn [control_block pointer step_counted]. split.
    + unfold owners, weak_vars. cbn [store owning weak].
      apply (tally_ext _ _ _ _ _ Ht); [|done]. intros x.
      by apply (refs_swapped control_block x os i j).
    + cbn [owning weak]. rewrite !length_insert. lia.
  - (* WeakFromShared *)
    unfold with_owning. cbn [owning]. destruct (os !! i) as [arg|] eqn:Hi; [|stuck_done].
    unfold exec. cbn [store].
    destruct (control_block arg) as [b|] eqn:Hb;
      [|rewrite weak_from_shared_null by done; stuck_done].
    destruct (tally_weak_from_shared n arg s _ _ b Hn2 Ht Hos Hws Hb) as (s' & Hw & Ht').
    { by apply (refs_fmap_pos control_block b os i arg). }
    rewrite Hw. cbn [step_counted]. split.
    + unfold owners, weak_vars. cbn [store owning weak].
      apply (tally_ext _ _ _ _ _ Ht'); [done|]. intros x.
      by rewrite refs_fmap_snoc.
    + cbn [owning weak]. rewrite length_app. cbn [length]. lia.
  - (* WeakCopy *)
    unfold with_weak. cbn [weak]. destruct (ws !! j) as [other|] eqn:Hj; [|stuck_done].
    unfold exec. cbn [store].
    destruct (weak_block other) as [b|] eqn:Hb;
      [|rewrite weak_copy_null by done; stuck_done].
    destruct (tally_weak_copy n other s _ _ b Hn2 Ht Hos Hws Hb) as (s' & Hw & Ht').
    { by apply (refs_fmap_pos weak_block b ws j other). }
    rewrite Hw. cbn [step_counted]. split.
    + unfold owners, weak_vars. cbn [store owning weak].
      apply (tally_ext _ _ _ _ _ Ht'); [done|]. intros x.
      by rewrite refs_fmap_snoc.
    + cbn [owning weak]. rewrite length_app. cbn [length]. lia.
  - (* WeakMove *)
    unfold with_weak. cbn [weak]. destruct (ws !! j) as [other|] eqn:Hj; [|stuck_done].
    unfold WeakPtr_move. cbn [step_counted]. split.
    + unfold owners, weak_vars. cbn [store owning weak].
      apply (tally_ext _ _ _ _ _ Ht); [done|]. intros x.
      rewrite refs_fmap_snoc, (refs_fmap_insert weak_block x ws j _ other Hj).
      cbn [weak_block]. rewrite hit_null. lia.
    + cbn [owning weak]. rewrite length_app, length_insert. cbn [length]. lia.
  - (* WeakCopyAssign *)
    unfold with_weak. cbn [weak]. destruct (ws !! i) as [this|] eqn:Hi; [|stuck_done].
    destruct (ws !! j) as [other|] eqn:Hj; [|stuck_done].
    unfold exec, WeakPtr_assign. cbn [store].
    destruct (bool_decide (i = j)).
    { cbv [mret M_ret]. cbn [step_counted]. rewrite list_insert_id by done.
      by apply (counted_mono n); [lia|]. }
    unfold WeakPtr_assign_conv. rewrite bind_eq.
    destruct (weak_block other) as [b|] eqn:Hb;
      [|rewrite weak_copy_null by done; stuck_done].
    destruct (tally_weak_copy n other s _ _ b Hn2 Ht Hos Hws Hb) as (s1 & Hw & Ht1).
    { by apply (refs_fmap_pos weak_block b ws j other). }
    rewrite Hw. unfold WeakPtr_swap. cbn [weak_block]. rewrite bind_eq.
    destruct (tally_unlink_weak (n + 1) (mkWeak (weak_block this)) s1 _ _ Hn3 Ht1)
      as (s2 & Hun & Ht2).
    { by apply (in_range_mono n); [lia|]. }
    { by apply in_range_add. }
    { intros x. cbn [weak_block].
      pose proof (refs_fmap_hit_le weak_block x ws i this Hi).
      pose proof (hit_range x (Some b)). lia. }
    rewrite Hun. cbv [mret M_ret]. cbn [step_counted]. split.
    + unfold owners, weak_vars. cbn [store owning weak].
      apply (tally_ext _ _ _ _ _ Ht2); [done|]. intros x. cbn [weak_block].
      rewrite (refs_fmap_insert weak_block x ws i _ this Hi). cbn [weak_block]. lia.
    + cbn [owning weak]. rewrite length_insert. lia.
  - (* WeakMoveAssign *)
    destruct (decide (i = j)) as [->|Hne].
    { unfold with_weak. cbn [weak]. destruct (ws !! j); [|stuck_done].
      cbn [step_counted]. by apply (counted_mono n); [lia|]. }
    unfold weak_move_assign_conv, with_weak. cbn [owning store weak].
    destruct (ws !! j) as [other|] eqn:Hj; [|stuck_done].
    unfold WeakPtr_move. cbn [owning store weak].
    destruct (<[j := mkWeak nullptr]> ws !! i) as [this|] eqn:Hi; [|stuck_done].
    unfold WeakPtr_swap, exec. cbn [store owning weak weak_block].
    pose proof (lookup_insert_hit weak_block ws i j (mkWeak nullptr) this other
                  eq_refl Hj Hi) as Hl.
    destruct (tally_unlink_weak n (mkWeak (weak_block this)) s _ _ Hn2 Ht Hos Hws)
      as (s' & Hun & Ht').
    { intros x. cbn [weak_block]. apply Hl. }
    rewrite Hun. cbn [step_counted]. split.
    + unfold owners, weak_vars. cbn [store owning weak].
      apply (tally_ext _ _ _ _ _ Ht'); [done|]. intros x. cbn [weak_block].
      rewrite (refs_fmap_insert weak_block x _ i _ this Hi).
      destruct (Hl x) as [_ ->]. cbn [weak_block]. lia.
    + cbn [owning weak]. rewrite !length_insert. lia.
  - (* WeakAssignShared *)
    unfold with_weak, with_owning. cbn [owning weak].
    destruct (ws !! j) as [this|] eqn:Hj; [|stuck_done].
    destruct (os !! i) as [other|] eqn:Hi; [|stuck_done].
    unfold exec, WeakPtr_assign_shared. cbn [store]. rewrite bind_eq.
    destruct (control_block other) as [b|] eqn:Hb;
      [|rewrite weak_from_shared_null by done; stuck_done].
    destruct (tally_weak_from_shared n other s _ _ b Hn2 Ht Hos Hws Hb) as (s1 & Hw & Ht1).
    { by apply (refs_fmap_pos control_block b os i other). }
    rewrite Hw. unfold WeakPtr_swap. cbn [weak_block]. rewrite bind_eq.
    destruct (tally_unlink_weak (n + 1) (mkWeak (weak_block this)) s1 _ _ Hn3 Ht1)
      as (s2 & Hun & Ht2).
    { by apply (in_range_mono n); [lia|]. }
    { by apply in_range_add. }
    { intros x. cbn [weak_block].
      pose proof (refs_fmap_hit_le weak_block x ws j this Hj).
      pose proof (hit_range x (Some b)). lia. }
    rewrite Hun. cbv [mret M_ret]. cbn [step_counted]. split.
    + unfold owners, weak_vars. cbn [store owning weak].
      apply (tally_ext _ _ _ _ _ Ht2); [done|]. intros x. cbn [weak_block].
      rewrite (refs_fmap_insert weak_block x ws j _ this Hj). cbn [weak_block]. lia.
    + cbn [owning weak]. rewrite length_insert. lia.
  - (* WeakReset *)
    unfold with_weak. cbn [weak]. destruct (ws !! j) as [this|] eqn:Hj; [|stuck_done].
    destruct (tally_unlink_weak n this s _ _ Hn2 Ht Hos Hws) as (s' & Hun & Ht').
    { intros x. by apply (refs_fmap_hit_le weak_block x ws j). }
    unfold exec, WeakPtr_reset. cbn [store]. rewrite Hun. cbn [step_counted]. split.
    + unfold owners, weak_vars. cbn [store owning weak].
      apply (tally_ext _ _ _ _ _ Ht'); [done|]. intros x.
      rewrite (refs_fmap_insert weak_block x ws j _ this Hj), weak_block_released.
      rewrite hit_null. lia.
    + cbn [owning weak]. rewrite length_insert. lia.
  - (* WeakDestroy *)
    unfold with_weak. cbn [weak]. destruct (ws !! j) as [this|] eqn:Hj; [|stuck_done].
    destruct (tally_unlink_weak n this s _ _ Hn2 Ht Hos Hws) as (s' & Hun & Ht').
    { intros x. by apply (refs_fmap_hit_le weak_block x ws j). }
    unfold exec. cbn [store]. rewrite Hun. cbn [step_counted]. split.
    + unfold owners, weak_vars. cbn [store owning weak].
      apply (tally_ext _ _ _ _ _ Ht'); [done|]. intros x.
      rewrite (refs_fmap_insert weak_block x ws j _ this Hj), weak_block_released.
      rewrite hit_null. lia.
    + cbn [owning weak]. rewrite length_insert. lia.
  - (* WeakSwap *)
    unfold with_weak. cbn [weak]. destruct (ws !! i) as [this|] eqn:Hi; [|stuck_done].
    destruct (ws !! j) as [other|] eqn:Hj; [|stuck_done].
    unfold WeakPtr_swap. destruct this as [c1], other as [c2].
    cbn [weak_block step_counted]. split.
    + unfold owners, weak_vars. cbn [store owning weak].
      apply (tally_ext _ _ _ _ _ Ht); [done|]. intros x.
      by apply (refs_swapped weak_block x ws i j).
    + cbn [owning weak]. rewrite !length_insert. lia.
  - (* Lock *)
    unfold with_weak. cbn [weak]. destruct (ws !! j) as [this|] eqn:Hj; [|stuck_done].
    destruct (tally_lock n this s _ _ Hn2 Ht Hos Hws) as (h & s' & Hl & Ht').
    { intros x. by apply (refs_fmap_hit_le weak_block x ws j). }
    unfold exec. cbn [store]. rewrite Hl. cbn [step_counted]. split.
    + unfold owners, weak_vars. cbn [store owning weak].
      apply (tally_ext _ _ _ _ _ Ht'); [|done]. intros x.
      by rewrite refs_fmap_snoc.
    + cbn [owning weak]. rewrite length_app. cbn [length]. lia.
Qed.

Lemma step_counted_op n m op :
  supported op → n + 3 < 2 ^ 64 → counted n m → step_counted n (step op m).
Proof.
  intros Hop Hn Hc.
  destruct op as [h|p|answer ok|p del answer|i p answer|p];
    cbn [step supported] in *.
  - by apply step_handle_counted.
  - rewrite Hop. cbn [step_counted]. by apply (counted_mono n); [lia|].
  - destruct Hc as [Ht Hsz]. destruct m as [s os ws].
    unfold owners, weak_vars in Ht. cbn [store owning weak] in *.
    pose proof (tally_make_shared answer ok s _ _ Ht) as H.
    unfold exec. cbn [store].
    destruct (makeShared answer ok s) as [h s'|e s'|f]; cbn [step_counted]; [|done|auto].
    split.
    + unfold owners, weak_vars. cbn [store owning weak].
      apply (tally_ext _ _ _ _ _ H); [|done]. intros x. by rewrite refs_fmap_snoc.
    + cbn [owning weak]. rewrite length_app. cbn [length]. lia.
  - destruct Hc as [Ht Hsz]. destruct m as [s os ws].
    unfold owners, weak_vars in Ht. cbn [store owning weak] in *.
    pose proof (tally_from_raw p del answer s _ _ Hop Ht) as H.
    unfold exec. cbn [store].
    destruct (SharedPtr_from_raw p del answer s) as [h s'|e s'|f];
      cbn [step_counted]; [|done|auto].
    split.
    + unfold owners, weak_vars. cbn [store owning weak].
      apply (tally_ext _ _ _ _ _ H); [|done]. intros x. by rewrite refs_fmap_snoc.
    + cbn [owning weak]. rewrite length_app. cbn [length]. lia.
  - destruct Hc as [Ht Hsz]. destruct m as [s os ws].
    unfold owners, weak_vars in Ht. cbn [store owning weak] in *.
    assert (Hos : in_range n (λ b, refs b (control_block <$> os)))
      by (apply refs_range; lia).
    assert (Hws : in_range n (λ b, refs b (weak_block <$> ws)))
      by (apply refs_range; lia).
    unfold reset_to, with_owning. cbn [owning].
    destruct (os !! i) as [this|] eqn:Hi; [|cbn [step_counted]; auto].
    unfold exec at 1. cbn [store]. unfold SharedPtr_from_raw_default.
    pose proof (tally_from_raw p default_delete answer s _ _ Hop Ht) as H.
    destruct (SharedPtr_from_raw p default_delete answer s) as [temp s1|e s1|f];
      cbn [step_counted]; [|done|auto].
    unfold SharedPtr_move, SharedPtr_swap. cbn [control_block pointer].
    unfold exec at 1. cbn [store owning weak].
    destruct (tally_unlink (n + 1) (mkShared (control_block this) (pointer this)) s1 _ _
                ltac:(lia) H) as (s2 & Hun & Ht2).
    { by apply in_range_add. }
    { by apply (in_range_mono n); [lia|]. }
    { intros x. cbn [control_block].
      pose proof (refs_fmap_hit_le control_block x os i this Hi).
      pose proof (hit_range x (control_block temp)). lia. }
    rewrite Hun. unfold exec. cbn [store owning weak].
    rewrite unlink_shared_null by done. cbn [step_counted]. split.
    + unfold owners, weak_vars. cbn [store owning weak].
      apply (tally_ext _ _ _ _ _ Ht2); [|done]. intros x. cbn [control_block].
      rewrite (refs_fmap_insert control_block x os i _ this Hi). cbn [control_block]. lia.
    + cbn [owning weak]. rewrite length_insert. lia.
  - destruct Hc as [Ht Hsz]. destruct m as [s os ws].
    unfold owners, weak_vars in Ht. cbn [store owning weak] in *.
    assert (Hos : in_range n (λ b, refs b (control_block <$> os)))
      by (apply refs_range; lia).
    assert (Hws : in_range n (λ b, refs b (weak_block <$> ws)))
      by (apply refs_range; lia).
    pose proof (tally_shared_from_this n p s _ _ ltac:(lia) Hop Ht Hos Hws) as H.
    unfold exec. cbn [store].
    destruct (shared_from_this p s) as [h s'|e s'|f]; cbn [step_counted]; [|done|auto].
    split.
    + unfold owners, weak_vars. cbn [store owning weak].
      apply (tally_ext _ _ _ _ _ H); [|done]. intros x. by rewrite refs_fmap_snoc.
    + cbn [owning weak]. rewrite length_app. cbn [length]. lia.
Qed.

Lemma run_counted ops n m :
  Forall supported ops → counted n m →
  n + Z.of_nat (length ops) + 3 < 2 ^ 64 →
  match run ops m with
  | Done m' => counted (n + Z.of_nat (length ops)) m'
  | Raised _ _ => True
  | Stuck f =>
      f = NullDeref ∨ f = NoSuchHandle ∨ f = AllocatorMisuse ∨
      (f = DeadObject ∧ mixin = true)
  end.
Proof.
  intros Hops. revert n m.
  induction Hops as [|op ops Hop Hops IH]; intros n m Hc Hn.
  - cbn [run length]. by rewrite Z.add_0_r.
  - cbn [run]. cbn [length] in Hn.
    pose proof (step_counted_op n m op Hop ltac:(lia) Hc) as Hstep.
    destruct (step op m) as [m1|e m1|f]; cbn [step_counted] in Hstep; try done.
    specialize (IH (n + 1) m1 Hstep ltac:(lia)).
    destruct (run ops m1); try done.
    replace (n + Z.of_nat (length (op :: ops))) with (n + 1 + Z.of_nat (length ops))
      by (cbn [length]; lia).
    done.
Qed.

Lemma counted_empty : counted 0 empty_machine.
Proof.
  split; [|cbn; lia]. intros b. cbn [empty_machine store empty_state heap objects trace].
  by rewrite !lookup_empty.
Qed.

(** X16.  Take any program of the library's operations on any number of
    blocks: the factory, copies, moves, assignments, swaps, resets,
    destructions, weak handles and [lock]; for a pointee type without
    the mixin also the raw-pointer constructors and [reset(p)], for one
    with the mixin also [shared_from_this].  In every state it reaches,
    [use_count()] of a non-empty Owning Handle is the number of Owning
    Handle variables that share its block, and for a pointee with the
    mixin the [weak_this] of the owned object names that block; the
    block of a non-empty [WeakPtr] is still allocated, its [use_count()]
    is that same number and [expired()] is true exactly when it is 0; a
    block is allocated exactly while some handle variable names it; and
    at every block address the calls of [destroy_object] are as many as
    the releases of a block there, plus one exactly when a block is
    there whose owners are gone.  The counts are per block, not per
    pointee: two blocks built around one raw pointer each destroy it.
    The program never reads a released block: it can only stop on a
    null handle, on a handle that was never declared, on an allocator
    that hands out storage in use, or on [shared_from_this] called on an
    object that is not alive. *)
Theorem counts_are_exact (ops : list Op) :
  Forall supported ops →
  Z.of_nat (length ops) + 3 < 2 ^ 64 →
  match run ops empty_machine with
  | Done m =>
      (∀ i h b,
         owning m !! i = Some h → control_block h = Some b →
         0 < owners b m ∧
         SharedPtr_use_count h (store m) = Ok (owners b m) (store m) ∧
         (mixin = true →
            objects (store m) !! embedded_obj b = Some (mkWeak (Some b)))) ∧
      (∀ j w b,
         weak m !! j = Some w → weak_block w = Some b →
         block_live b (store m) = true ∧
         WeakPtr_use_count w (store m) = Ok (owners b m) (store m) ∧
         WeakPtr_expired w (store m) = Ok (owners b m =? 0) (store m)) ∧
      (∀ b, block_live b (store m) = negb (owners b m + weak_vars b m =? 0)) ∧
      (∀ b, destroy_count b (trace (store m)) =
              free_count b (trace (store m)) +
              (if block_live b (store m) && (owners b m =? 0) then 1 else 0))
  | Raised _ _ => True
  | Stuck f =>
      f = NullDeref ∨ f = NoSuchHandle ∨ f = AllocatorMisuse ∨
      (f = DeadObject ∧ mixin = true)
  end.
Proof.
  intros Hops Hn.
  pose proof (run_counted ops 0 empty_machine Hops counted_empty ltac:(lia)) as Hrun.
  destruct (run ops empty_machine) as [m|e m|f]; [|done|done].
  destruct Hrun as [Ht Hsz].
  assert (Hnn : ∀ b, 0 ≤ owners b m ∧ 0 ≤ weak_vars b m).
  { intros b. split; apply refs_nonneg. }
  split; [|split; [|split]].
  - intros i h b Hi Hb.
    assert (Hpos : 0 < owners b m) by (by apply (refs_fmap_pos control_block b _ i h)).
    destruct (tally_block _ _ _ b Ht) as (blk & Hblk & HS & HW & HB & HM).
    { cbn beta. destruct (Hnn b). lia. }
    split; [done|]. split.
    + rewrite (use_count_live h _ b blk) by done. by rewrite HS.
    + intros Hm. destruct (HM Hm) as [_ Ho]. cbn beta in Ho.
      by rewrite (proj2 (Z.eqb_neq _ _)) in Ho by lia.
  - intros j w b Hj Hb.
    assert (Hpos : 0 < weak_vars b m) by (by apply (refs_fmap_pos weak_block b _ j w)).
    destruct (tally_block _ _ _ b Ht) as (blk & Hblk & HS & HW & HB & HM).
    { cbn beta. destruct (Hnn b). lia. }
    split; [by unfold block_live; rewrite Hblk|].
    rewrite (weak_use_count_live w _ b blk), (expired_live w _ b blk) by done.
    by rewrite HS.
  - intros b. specialize (Ht b). cbn beta in Ht. unfold block_live.
    destruct (Hnn b).
    destruct (heap (store m) !! b) as [[|blk]|]; cbn [cell_counts] in Ht; [done| |].
    + destruct (Z.eqb_spec (owners b m + weak_vars b m) 0); [lia|done].
    + destruct Ht as (-> & -> & _). done.
  - intros b. specialize (Ht b). cbn beta in Ht. unfold block_live, balance in *.
    destruct (heap (store m) !! b) as [[|blk]|]; cbn [cell_counts andb] in Ht; [done| |].
    + destruct Ht as (_ & _ & _ & Hd & _). cbn [andb]. lia.
    + destruct Ht as (_ & _ & Hd & _). cbn [andb]. lia.
Qed.

(** ** [shared_from_this] *)

Lemma shared_from_this_throw p s e s' :
  shared_from_this p s = Throw e s' →
  e = bad_weak_ptr ∧ s' = s ∧
  ∃ w, objects s !! p = Some w ∧
       (weak_block w = None ∨
        ∃ b blk, weak_block w = Some b ∧ heap s !! b = Some (Block blk) ∧
                 shared_count blk = 0).
Proof.
  unfold shared_from_this. rewrite bind_eq. unfold read_weak_this.
  destruct (objects s !! p) as [w|] eqn:Ho; [|discriminate].
  rewrite bind_eq. destruct (weak_block w) as [b|] eqn:Hw.
  - unfold WeakPtr_expired. rewrite Hw, bind_eq. unfold read_block.
    destruct (heap s !! b) as [[|blk]|] eqn:Hb; try discriminate.
    cbn [mret M_ret]. destruct (Z.eqb_spec (shared_count blk) 0) as [Hz|Hz].
    + intros [= <- <-]. split; [done|]. split; [done|]. exists w. split; [done|].
      right. by exists b, blk.
    + intros H. exfalso. revert H. apply (throws_lock (λ _, False)).
  - rewrite (expired_null w s Hw). intros [= <- <-].
    split; [done|]. split; [done|]. exists w. split; [done|]. by left.
Qed.

Lemma new_object_unbound p m :
  mixin = true →
  let m' := mkMachine (put_object p empty_weak (store m)) (owning m) (weak m) in
  step (NewObject p) m = Done m' ∧ step (SharedFromThis p) m' = Raised bad_weak_ptr m'.
Proof.
  intros Hm. cbn [step]. rewrite Hm. split; [done|].
  unfold exec, shared_from_this. cbn [store]. mcbv. by rewrite lookup_insert_eq.
Qed.

Lemma owned_self_handle ops m i h b :
  mixin = true → Forall supported ops → Z.of_nat (length ops) + 3 < 2 ^ 64 →
  run ops empty_machine = Done m →
  owning m !! i = Some h → control_block h = Some b →
  ∃ blk, heap (store m) !! b = Some (Block blk) ∧
         shared_count blk = owners b m ∧ 0 < owners b m < 2 ^ 64 - 2 ∧
         variant blk = ControlBlockEmbeded ∧
         objects (store m) !! embedded_obj b = Some (mkWeak (Some b)).
Proof.
  intros Hm Hops Hn Hrun Hi Hb.
  pose proof (run_counted ops 0 empty_machine Hops counted_empty ltac:(lia)) as Hc.
  rewrite Hrun in Hc. destruct Hc as [Ht Hsz].
  assert (Hpos : 0 < owners b m) by (by apply (refs_fmap_pos control_block b _ i h)).
  pose proof (refs_nonneg b (weak_block <$> weak m)) as HW.
  pose proof (refs_le_length b (control_block <$> owning m)) as Hle.
  rewrite length_fmap in Hle. fold (owners b m) in Hle.
  destruct (tally_block _ _ _ b Ht) as (blk & Hblk & HS & _ & _ & HM).
  { cbn beta. unfold weak_vars. lia. }
  destruct (HM Hm) as [Hv Ho]. cbn beta in Ho.
  rewrite (proj2 (Z.eqb_neq _ _)) in Ho by lia.
  exists blk. split; [done|]. split; [done|]. split; [lia|]. done.
Qed.


End Library.

(** * Concrete runs *)

(** A small program over one [makeShared]: copy the handle, take a weak
    handle, drop both owners, try to lock, drop the weak handle. *)
Definition sample_program : list HandleOp :=
  [Copy 0 None; WeakFromShared 0; Destroy 0; Destroy 1; Lock 0; WeakDestroy 0].

Definition sample_block : BaseControlBlock := mkBlock 1 0 ControlBlockEmbeded.

(** One owner, no weak handle, pointee without the mixin. *)
Definition sample_state : State := mkState {[100 := Block sample_block]} ∅ [].

Definition sample_handle : SharedPtr := mkShared (Some 100) (Some 124).


Lemma unlink_shared_spec_witness :
  control_block sample_handle = Some 100 ∧
  heap sample_state !! 100 = Some (Block sample_block) ∧
  0 < shared_count sample_block < 2 ^ 64 ∧
  destroy_object false 24 100 sample_state =
    Ok tt (log (DestroyObject 100 1) sample_state).
Proof.
  assert (H1 : control_block sample_handle = Some 100) by reflexivity.
  assert (H2 : heap sample_state !! 100 = Some (Block sample_block))
    by (vm_compute; reflexivity).
  assert (H3 : 0 < shared_count sample_block < 2 ^ 64) by (vm_compute; split; reflexivity).
  split; [exact H1|]. split; [exact H2|]. split; [exact H3|].
  apply (unlink_shared_spec false 24 sample_handle sample_state 100 sample_block H1 H2 H3);
    reflexivity.
Defined.

Lemma lock_spec_witness :
  weak_block (mkWeak (Some 100)) = Some 100 ∧
  heap sample_state !! 100 = Some (Block sample_block) ∧
  0 < shared_count sample_block < 2 ^ 64 - 2 ∧
  wired_ok false (block_pointee 24 100 sample_block) sample_state ∧
  ∃ h s',
    WeakPtr_lock false 24 (mkWeak (Some 100)) sample_state = Ok h s' ∧
    control_block h = weak_block (mkWeak (Some 100)) ∧
    WeakPtr_use_count (mkWeak (Some 100)) sample_state =
      Ok (shared_count sample_block) sample_state ∧
    SharedPtr_use_count h s' = Ok (shared_count sample_block + 1) s' ∧
    WeakPtr_use_count (mkWeak (Some 100)) s' = Ok (shared_count sample_block + 1) s'.
Proof.
  assert (H1 : weak_block (mkWeak (Some 100)) = Some 100) by reflexivity.
  assert (H2 : heap sample_state !! 100 = Some (Block sample_block))
    by (vm_compute; reflexivity).
  assert (H3 : 0 < shared_count sample_block < 2 ^ 64 - 2)
    by (vm_compute; split; reflexivity).
  assert (H4 : wired_ok false (block_pointee 24 100 sample_block) sample_state)
    by (intros H; discriminate H).
  split; [exact H1|]. split; [exact H2|]. split; [exact H3|]. split; [exact H4|].
  exact (proj1 (lock_spec false 24 (mkWeak (Some 100)) sample_state)
           100 sample_block H1 H2 H3 H4).
Defined.

(** After [makeShared] and one weak handle taken from the owner. *)
Definition sample_observed : Machine :=
  mkMachine (lifecycle_state true 24 100 ControlBlockEmbeded 1 1)
    [mkShared (Some 100) (Some 124)] [mkWeak (Some 100)].

Lemma expired_spec_witness :
  creation true 100 ControlBlockEmbeded (MakeShared (Some 100) true) ∧
  Z.of_nat (length [WeakFromShared 0]) + 5 < 2 ^ 64 ∧
  run true 24 (MakeShared (Some 100) true :: (Handle <$> [WeakFromShared 0]))
    empty_machine = Done sample_observed ∧
  weak sample_observed !! 0%nat = Some (mkWeak (Some 100)) ∧
  weak_block (mkWeak (Some 100)) = Some 100 ∧
  WeakPtr_expired (mkWeak (Some 100)) (store sample_observed) =
    Ok (owners 100 sample_observed =? 0) (store sample_observed) ∧
  block_live 100 (store sample_observed) = true ∧
  ∀ i h,
    owning sample_observed !! i = Some h → control_block h = Some 100 →
    owners 100 sample_observed = 1 →
    ∃ m',
      step_handle true 24 (Destroy i) sample_observed = Done m' ∧
      weak m' !! 0%nat = Some (mkWeak (Some 100)) ∧
      WeakPtr_expired (mkWeak (Some 100)) (store sample_observed) =
        Ok false (store sample_observed) ∧
      WeakPtr_expired (mkWeak (Some 100)) (store m') = Ok true (store m') ∧
      block_live 100 (store m') = true ∧
      free_count 100 (trace (store m')) = 0.
Proof.
  assert (H1 : Z.of_nat (length [WeakFromShared 0]) + 5 < 2 ^ 64)
    by (vm_compute; reflexivity).
  assert (H2 : run true 24
                 (MakeShared (Some 100) true :: (Handle <$> [WeakFromShared 0]))
                 empty_machine = Done sample_observed) by (vm_compute; reflexivity).
  assert (H3 : weak sample_observed !! 0%nat = Some (mkWeak (Some 100))) by reflexivity.
  assert (H4 : weak_block (mkWeak (Some 100)) = Some 100) by reflexivity.
  assert (H0 : creation true 100 ControlBlockEmbeded (MakeShared (Some 100) true))
    by reflexivity.
  split; [exact H0|].
  split; [exact H1|]. split; [exact H2|]. split; [exact H3|]. split; [exact H4|].
  exact (proj2 (proj2 (proj2 (expired_spec true 24)))
           100 ControlBlockEmbeded (MakeShared (Some 100) true) [WeakFromShared 0]
           sample_observed 0%nat (mkWeak (Some 100)) H0 H1 H2 H3 H4).
Defined.

Lemma allocation_failure_spec_witness :
  (heap empty_state !! 100 = None ∧
   makeShared true 24 (Some 100) false empty_state =
     Throw constructor_failure (put_cell 100 RawStorage empty_state)) ∧
  (false = false ∧
   SharedPtr_from_raw false (Some 7) default_delete None empty_state =
     Throw bad_alloc empty_state).
Proof.
  assert (H1 : heap empty_state !! 100 = None) by (vm_compute; reflexivity).
  assert (H2 : false = false) by reflexivity.
  split.
  - split; [exact H1|].
    exact (proj2 (proj2 (proj2 (proj2 (proj2 (proj2 (proj2
             (allocation_failure_spec true 24))))))) 100 empty_state H1).
  - split; [exact H2|].
    exact (proj1 (proj2 (proj2 (allocation_failure_spec false 24))) H2
             (Some 7) default_delete empty_state).
Defined.

Definition sample_two_owners : Machine :=
  mkMachine (lifecycle_state false 24 100 ControlBlockEmbeded 2 0)
    [mkShared (Some 100) (Some 124); mkShared (Some 100) (Some 124)] [].

Lemma null_invariant_witness :
  run false 24 [MakeShared (Some 100) true; Handle (Copy 0 None)] empty_machine =
    Done sample_two_owners ∧
  Forall (λ h, control_block h = None → pointer h = None) (owning sample_two_owners) ∧
  (Forall raw_nonnull [MakeShared (Some 100) true; Handle (Copy 0 None)] →
   Forall (λ h, control_block h = None ↔ pointer h = None) (owning sample_two_owners)).
Proof.
  assert (H1 : run false 24 [MakeShared (Some 100) true; Handle (Copy 0 None)]
                 empty_machine = Done sample_two_owners) by (vm_compute; reflexivity).
  split; [exact H1|].
  pose proof (null_invariant false 24 _ _ H1) as (Ha & Hb & _).
  split; [exact Ha|exact Hb].
Defined.

Lemma move_spec_witness :
  (0 ≠ 1)%nat ∧
  owning sample_two_owners !! 0%nat = Some (mkShared (Some 100) (Some 124)) ∧
  owning sample_two_owners !! 1%nat = Some (mkShared (Some 100) (Some 124)) ∧
  step_handle false 24 (MoveAssign 0 1 None) sample_two_owners =
    exec (unlink_shared_pointer_from_the_control_block false 24
            (mkShared (Some 100) (Some 124)))
      sample_two_owners
      (λ _ s',
         Done (mkMachine s'
                 (<[0%nat := mkShared (Some 100) (convert None (Some 124))]>
                    (<[1%nat := empty_shared]> (owning sample_two_owners)))
                 (weak sample_two_owners))).
Proof.
  assert (H1 : (0 ≠ 1)%nat) by (intros H; discriminate H).
  assert (H2 : owning sample_two_owners !! 0%nat = Some (mkShared (Some 100) (Some 124)))
    by reflexivity.
  assert (H3 : owning sample_two_owners !! 1%nat = Some (mkShared (Some 100) (Some 124)))
    by reflexivity.
  split; [exact H1|]. split; [exact H2|]. split; [exact H3|].
  exact (proj1 (proj2 (move_spec false 24)) 0%nat 1%nat None sample_two_owners
           (mkShared (Some 100) (Some 124)) (mkShared (Some 100) (Some 124)) H1 H2 H3).
Defined.

Lemma arrow_spec_witness :
  control_block sample_handle = Some 100 ∧
  heap sample_state !! 100 = Some (Block sample_block) ∧
  block_pointee 24 100 sample_block = Some 124 ∧
  pointer sample_handle = Some 124 ∧
  8 ≠ 0 ∧
  (let h := fst (SharedPtr_move_conv 8 sample_handle) in
   SharedPtr_arrow 24 h sample_state = Ok (Some 124) sample_state ∧
   SharedPtr_get h = Some (124 + 8) ∧
   SharedPtr_get h ≠ Some 124).
Proof.
  assert (H1 : control_block sample_handle = Some 100) by reflexivity.
  assert (H2 : heap sample_state !! 100 = Some (Block sample_block))
    by (vm_compute; reflexivity).
  assert (H3 : block_pointee 24 100 sample_block = Some 124) by reflexivity.
  assert (H4 : pointer sample_handle = Some 124) by reflexivity.
  assert (H5 : 8 ≠ 0) by (intros H; discriminate H).
  split; [exact H1|]. split; [exact H2|]. split; [exact H3|]. split; [exact H4|].
  split; [exact H5|].
  exact (proj2 (proj2 (proj2 (arrow_spec 24)) sample_handle sample_state 100 sample_block
                  124 8 H1 H2 H3 H4 H5)).
Defined.

(** * Where the code departs from a sentence of the spec *)

(** The pointee of the last owner is destroyed while [shared_count]
    still reads 1: the destructor does not see a decremented counter. *)
Lemma destruction_sees_undecremented_count :
  ¬ (∀ (mixin : bool) (obj_offset : Z) (this : SharedPtr) (s : State) (b : Z)
       (blk : BaseControlBlock) (h : SharedPtr) (s' : State) (n : Z),
       control_block this = Some b →
       heap s !! b = Some (Block blk) →
       unlink_shared_pointer_from_the_control_block mixin obj_offset this s = Ok h s' →
       In (DestroyObject b n) (trace s') →
       ¬ In (DestroyObject b n) (trace s) →
       n = pre_decr (shared_count blk)).
Proof.
  intros H.
  specialize (H false 24 sample_handle sample_state 100 sample_block empty_shared
                (mkState ∅ ∅ [Deallocate 100; DestroyObject 100 1]) 1).
  assert (Hn : 1 = pre_decr (shared_count sample_block)).
  { apply H.
    - reflexivity.
    - vm_compute; reflexivity.
    - vm_compute; reflexivity.
    - right. left. reflexivity.
    - intros []. }
  vm_compute in Hn. discriminate Hn.
Qed.

(** With the order of the sentence, releasing the only owner of a
    pointee that carries the mixin would free the block from inside the
    pointee's destructor and then read it again; the order of the source
    completes. *)
Lemma decrement_first_faults :
  unlink_shared_pointer_from_the_control_block true 24
    (mkShared (Some 100) (Some 124)) (lifecycle_state true 24 100 ControlBlockEmbeded 1 0) =
    Ok empty_shared (lifecycle_state true 24 100 ControlBlockEmbeded 0 0) ∧
  unlink_decrement_first true 24
    (mkShared (Some 100) (Some 124)) (lifecycle_state true 24 100 ControlBlockEmbeded 1 0) =
    Undefined DanglingBlock.
Proof. split; vm_compute; reflexivity. Qed.

(** A failing pointee constructor leaves the allocated storage behind. *)
Lemma constructor_failure_keeps_storage :
  ¬ (∀ (mixin : bool) (obj_offset : Z) (answer : option Z) (ok : bool)
       (s : State) (e : Exn) (s' : State),
       makeShared mixin obj_offset answer ok s = Throw e s' → s' = s).
Proof.
  intros H.
  specialize (H false 24 (Some 100) false empty_state constructor_failure
                (put_cell 100 RawStorage empty_state)).
  assert (Hs : put_cell 100 RawStorage empty_state = empty_state)
    by (apply H; vm_compute; reflexivity).
  apply (f_equal (λ s, heap s !! 100)) in Hs. vm_compute in Hs. discriminate Hs.
Qed.

(** A handle built around a null raw pointer has a block and a null
    pointer. *)
Lemma null_raw_pointer_breaks_iff :
  ¬ (∀ (mixin : bool) (obj_offset : Z) (ops : list Op) (m : Machine),
       run mixin obj_offset ops empty_machine = Done m →
       Forall (λ h, control_block h = None ↔ pointer h = None) (owning m)).
Proof.
  intros H.
  specialize (H false 24 [FromRaw None default_delete (Some 100)]
                (mkMachine
                   (mkState {[100 := Block (mkBlock 1 0
                                              (ControlBlockFromPointer default_delete None))]}
                            ∅ [])
                   [mkShared (Some 100) None] [])).
  assert (Hrun : run false 24 [FromRaw None default_delete (Some 100)]
                   empty_machine =
                 Done (mkMachine
                   (mkState {[100 := Block (mkBlock 1 0
                                              (ControlBlockFromPointer default_delete None))]}
                            ∅ [])
                   [mkShared (Some 100) None] [])) by (vm_compute; reflexivity).
  specialize (H Hrun). inversion H as [|h l [_ Hh] _]; subst.
  specialize (Hh eq_refl). discriminate Hh.
Qed.

(** Move-assigning a handle to itself leaves it as it was. *)
Lemma self_move_assign_keeps_handle :
  ¬ (∀ (mixin : bool) (obj_offset : Z) (i j : nat) (conv : option Z)
       (m m' : Machine) (other : SharedPtr),
       owning m !! j = Some other →
       step_handle mixin obj_offset (MoveAssign i j conv) m = Done m' →
       owning m' !! j = Some empty_shared).
Proof.
  intros H.
  specialize (H false 24 0%nat 0%nat None (made false 24 100 ControlBlockEmbeded) (made false 24 100 ControlBlockEmbeded)
                (mkShared (Some 100) (Some 124)) eq_refl eq_refl).
  discriminate H.
Qed.

(** * Concrete runs of the further operations *)

(** One owner and one weak handle on the block at 100. *)
Definition sample_weak_block : BaseControlBlock := mkBlock 1 1 ControlBlockEmbeded.

Definition sample_weak_state : State := mkState {[100 := Block sample_weak_block]} ∅ [].

(** Two Owning and two Non-owning Handle variables, one of each empty. *)
Definition sample_handles : Machine :=
  mkMachine sample_weak_state [sample_handle; empty_shared] [mkWeak (Some 100); empty_weak].

(** The store after the last owner of the block at 100 is gone. *)
Definition sample_released : State := mkState ∅ ∅ [Deallocate 100; DestroyObject 100 1].

(** Two objects with the mixin from the factory.  The second owner of
    the first comes from [shared_from_this]; the second object loses its
    only owner by an assignment while a weak handle observes it. *)
Definition sample_shared_objects : list Op :=
  [MakeShared (Some 100) true; MakeShared (Some 200) true; SharedFromThis 124;
   Handle (WeakFromShared 1); Handle (CopyAssign 1 0 None); Handle (Lock 0);
   Handle (Destroy 0); Handle (Swap 1 2)].

Lemma copy_ctor_spec_witness :
  (control_block sample_handle = Some 100) ∧
  (heap sample_state !! 100 = Some (Block sample_block)) ∧
  (0 < shared_count sample_block < 2 ^ 64 - 1) ∧
  (∃ (h : SharedPtr) (s' : State),
   copy_ctor None sample_handle sample_state = Ok h s'
   ∧ control_block h = Some 100
     ∧ pointer h = convert None (pointer sample_handle)
       ∧ s' =
         put_cell 100
           (Block
              {|
                shared_count := shared_count sample_block + 1;
                weak_count := weak_count sample_block;
                variant := variant sample_block
              |})
           sample_state
         ∧ SharedPtr_use_count sample_handle s' =
           Ok (shared_count sample_block + 1) s'
           ∧ SharedPtr_use_count h s' = Ok (shared_count sample_block + 1) s'
             ∧ unlink_shared_pointer_from_the_control_block false 24 h s' =
               Ok empty_shared sample_state).
Proof.
  assert (H1 : control_block sample_handle = Some 100) by reflexivity.
  assert (H2 : heap sample_state !! 100 = Some (Block sample_block)) by (vm_compute; reflexivity).
  assert (H3 : 0 < shared_count sample_block < 2 ^ 64 - 1) by (vm_compute; split; reflexivity).
  split; [exact H1|].
  split; [exact H2|].
  split; [exact H3|].
  exact (proj2 (copy_ctor_spec false 24 None sample_handle sample_state) 100 sample_block H1 H2 H3).
Defined.

Lemma copy_assign_spec_witness :
  (control_block sample_handle = Some 100) ∧
  (control_block sample_handle = Some 100) ∧
  (heap sample_state !! 100 = Some (Block sample_block)) ∧
  (0 < shared_count sample_block < 2 ^ 64 - 1) ∧
  (SharedPtr_assign_conv false 24 None sample_handle sample_handle sample_state =
   Ok
     {|
       control_block := Some 100; pointer := convert None (pointer sample_handle)
     |} sample_state).
Proof.
  assert (H1 : control_block sample_handle = Some 100) by reflexivity.
  assert (H2 : control_block sample_handle = Some 100) by reflexivity.
  assert (H3 : heap sample_state !! 100 = Some (Block sample_block)) by (vm_compute; reflexivity).
  assert (H4 : 0 < shared_count sample_block < 2 ^ 64 - 1) by (vm_compute; split; reflexivity).
  split; [exact H1|].
  split; [exact H2|].
  split; [exact H3|].
  split; [exact H4|].
  exact (proj1 (proj2 (proj2 (copy_assign_spec false 24))) None sample_handle sample_handle sample_state 100 sample_block H1 H2 H3 H4).
Defined.

Lemma empty_shared_access_witness :
  (control_block empty_shared = None) ∧
  (SharedPtr_use_count empty_shared sample_state = Undefined NullDeref
   ∧ SharedPtr_arrow 24 empty_shared sample_state = Undefined NullDeref
     ∧ WeakPtr_from_shared false 24 empty_shared sample_state = Undefined NullDeref
       ∧ (∀ w : WeakPtr,
            WeakPtr_assign_shared false 24 w empty_shared sample_state =
            Undefined NullDeref)
         ∧ SharedPtr_get empty_shared = pointer empty_shared
           ∧ (∀ conv : option Z,
                ∃ h' : SharedPtr,
                  copy_ctor conv empty_shared sample_state = Ok h' sample_state
                  ∧ control_block h' = None)
             ∧ SharedPtr_reset false 24 empty_shared sample_state =
               Ok empty_shared sample_state
               ∧ unlink_shared_pointer_from_the_control_block false 24 empty_shared
                   sample_state =
                 Ok empty_shared sample_state).
Proof.
  assert (H1 : control_block empty_shared = None) by reflexivity.
  split; [exact H1|].
  exact (empty_shared_access false 24 empty_shared sample_state H1).
Defined.

Lemma release_twice_witness :
  (unlink_shared_pointer_from_the_control_block false 24 sample_handle sample_state = Ok empty_shared sample_released) ∧
  (control_block empty_shared = None
   ∧ unlink_shared_pointer_from_the_control_block false 24 empty_shared sample_released =
     Ok empty_shared sample_released
     ∧ SharedPtr_reset false 24 empty_shared sample_released =
       Ok empty_shared sample_released).
Proof.
  assert (H1 : unlink_shared_pointer_from_the_control_block false 24 sample_handle sample_state = Ok empty_shared sample_released) by (vm_compute; reflexivity).
  split; [exact H1|].
  exact (proj1 (release_twice false 24) sample_handle sample_state empty_shared sample_released H1).
Defined.

Lemma swap_spec_witness :
  (owning sample_handles !! 0%nat = Some sample_handle) ∧
  (owning sample_handles !! 1%nat = Some empty_shared) ∧
  (∃ m' : Machine,
   step_handle false 24 (Swap 0 1) sample_handles = Done m'
   ∧ store m' = store sample_handles
     ∧ weak m' = weak sample_handles
       ∧ owning m' !! 0%nat = Some empty_shared
         ∧ owning m' !! 1%nat = Some sample_handle
           ∧ (∀ n : nat,
                n ≠ 0%nat → n ≠ 1%nat → owning m' !! n = owning sample_handles !! n)
             ∧ (∀ b : Z, owners b m' = owners b sample_handles)
               ∧ step_handle false 24 (Swap 0 1) m' = Done sample_handles).
Proof.
  assert (H1 : owning sample_handles !! 0%nat = Some sample_handle) by reflexivity.
  assert (H2 : owning sample_handles !! 1%nat = Some empty_shared) by reflexivity.
  split; [exact H1|].
  split; [exact H2|].
  exact (swap_spec false 24 0 1 sample_handles sample_handle empty_shared H1 H2).
Defined.

Lemma reset_to_spec_witness :
  (owning sample_handles !! 1%nat = Some empty_shared) ∧
  ((false = false
    → step false 24 (ResetTo 1 (Some 7) None) sample_handles =
      Raised bad_alloc sample_handles)
   ∧ ∀ a : Z,
       false = false
       → heap (store sample_handles) !! a = None
         → ∃ (h : SharedPtr) (s1 : State),
             h = {| control_block := Some a; pointer := Some 7 |}
             ∧ s1 =
               put_cell a
                 (Block
                    {|
                      shared_count := 1;
                      weak_count := 0;
                      variant := ControlBlockFromPointer default_delete (Some 7)
                    |})
                 (store sample_handles)
               ∧ SharedPtr_use_count h s1 = Ok 1 s1
                 ∧ step false 24 (ResetTo 1 (Some 7) (Some a)) sample_handles =
                   exec
                     (unlink_shared_pointer_from_the_control_block false 24 empty_shared)
                     {|
                       store := s1;
                       owning := <[1%nat:=h]> (owning sample_handles);
                       weak := weak sample_handles
                     |}
                     (λ (_ : SharedPtr) (s2 : State),
                        Done
                          {|
                            store := s2;
                            owning := <[1%nat:=h]> (owning sample_handles);
                            weak := weak sample_handles
                          |})
                   ∧ (control_block empty_shared = None
                      → step false 24 (ResetTo 1 (Some 7) (Some a)) sample_handles =
                        Done
                          {|
                            store := s1;
                            owning := <[1%nat:=h]> (owning sample_handles);
                            weak := weak sample_handles
                          |})).
Proof.
  assert (H1 : owning sample_handles !! 1%nat = Some empty_shared) by reflexivity.
  split; [exact H1|].
  exact (reset_to_spec false 24 1 (Some 7) sample_handles empty_shared H1).
Defined.

Lemma make_shared_spec_witness :
  (heap sample_state !! 200 = None) ∧
  (∃ (h : SharedPtr) (s' : State),
   makeShared true 24 (Some 200) true sample_state = Ok h s'
   ∧ allocateShared true 24 (Some 200) true sample_state = Ok h s'
     ∧ control_block h = Some 200
       ∧ SharedPtr_get h = Some (embedded_obj 24 200)
         ∧ SharedPtr_arrow 24 h s' = Ok (SharedPtr_get h) s'
           ∧ SharedPtr_use_count h s' = Ok 1 s'
             ∧ heap s' !! 200 =
               Some
                 (Block
                    {|
                      shared_count := 1;
                      weak_count := mix true;
                      variant := ControlBlockEmbeded
                    |})
               ∧ (∀ b : Z, b ≠ 200 → heap s' !! b = heap sample_state !! b)
                 ∧ trace s' = trace sample_state
                   ∧ (true = true
                      → ∃ (h2 : SharedPtr) (s2 : State),
                          shared_from_this true 24 (embedded_obj 24 200) s' = Ok h2 s2
                          ∧ control_block h2 = Some 200
                            ∧ SharedPtr_get h2 = SharedPtr_get h
                              ∧ SharedPtr_use_count h2 s2 = Ok 2 s2)).
Proof.
  assert (H1 : heap sample_state !! 200 = None) by (vm_compute; reflexivity).
  split; [exact H1|].
  exact (make_shared_spec true 24 200 sample_state H1).
Defined.

Lemma weak_from_shared_spec_witness :
  (control_block sample_handle = Some 100) ∧
  (heap sample_state !! 100 = Some (Block sample_block)) ∧
  (0 < shared_count sample_block < 2 ^ 64 - 1) ∧
  (0 <= weak_count sample_block < 2 ^ 64 - 1) ∧
  (∃ s' : State,
   s' =
   put_cell 100
     (Block
        {|
          shared_count := shared_count sample_block;
          weak_count := weak_count sample_block + 1;
          variant := variant sample_block
        |})
     sample_state
   ∧ WeakPtr_from_shared false 24 sample_handle sample_state =
     Ok {| weak_block := Some 100 |} s'
     ∧ SharedPtr_use_count sample_handle s' = Ok (shared_count sample_block) s'
       ∧ WeakPtr_expired {| weak_block := Some 100 |} s' = Ok false s'
         ∧ unlink_weak_pointer_from_the_control_block
             {| weak_block := Some 100 |} s' =
           Ok empty_weak sample_state
           ∧ (∀ this : WeakPtr,
                weak_block this = None
                → WeakPtr_assign_shared false 24 this sample_handle sample_state =
                  Ok {| weak_block := Some 100 |} s')
             ∧ ∀ this : WeakPtr,
                 weak_block this = Some 100
                 → WeakPtr_assign_shared false 24 this sample_handle sample_state =
                   Ok {| weak_block := Some 100 |} sample_state).
Proof.
  assert (H1 : control_block sample_handle = Some 100) by reflexivity.
  assert (H2 : heap sample_state !! 100 = Some (Block sample_block)) by (vm_compute; reflexivity).
  assert (H3 : 0 < shared_count sample_block < 2 ^ 64 - 1) by (vm_compute; split; reflexivity).
  assert (H4 : 0 <= weak_count sample_block < 2 ^ 64 - 1) by (vm_compute; split; [intros H; discriminate H | reflexivity]).
  split; [exact H1|].
  split; [exact H2|].
  split; [exact H3|].
  split; [exact H4|].
  exact (weak_from_shared_spec false 24 sample_handle sample_state 100 sample_block H1 H2 H3 H4).
Defined.

Lemma weak_copy_spec_witness :
  (weak_block {| weak_block := Some 100 |} = Some 100) ∧
  (heap sample_weak_state !! 100 = Some (Block sample_weak_block)) ∧
  (0 < weak_count sample_weak_block < 2 ^ 64 - 1) ∧
  (∃ s' : State,
   s' =
   put_cell 100
     (Block
        {|
          shared_count := shared_count sample_weak_block;
          weak_count := weak_count sample_weak_block + 1;
          variant := variant sample_weak_block
        |})
     sample_weak_state
   ∧ WeakPtr_copy {| weak_block := Some 100 |} sample_weak_state =
     Ok {| weak_block := Some 100 |} s'
     ∧ WeakPtr_expired {| weak_block := Some 100 |} sample_weak_state =
       Ok (shared_count sample_weak_block =? 0) sample_weak_state
       ∧ WeakPtr_expired {| weak_block := Some 100 |} s' =
         Ok (shared_count sample_weak_block =? 0) s'
         ∧ unlink_weak_pointer_from_the_control_block {| weak_block := Some 100 |}
             s' =
           Ok empty_weak sample_weak_state
           ∧ (∀ this : WeakPtr,
                weak_block this = None
                → WeakPtr_assign false this {| weak_block := Some 100 |}
                    sample_weak_state =
                  Ok {| weak_block := Some 100 |} s')
             ∧ (∀ this : WeakPtr,
                  weak_block this = Some 100
                  → WeakPtr_assign false this {| weak_block := Some 100 |}
                      sample_weak_state =
                    Ok {| weak_block := Some 100 |} sample_weak_state)
               ∧ ∀ this : WeakPtr,
                   WeakPtr_assign true this {| weak_block := Some 100 |}
                     sample_weak_state =
                   Ok this sample_weak_state).
Proof.
  assert (H1 : weak_block {| weak_block := Some 100 |} = Some 100) by reflexivity.
  assert (H2 : heap sample_weak_state !! 100 = Some (Block sample_weak_block)) by (vm_compute; reflexivity).
  assert (H3 : 0 < weak_count sample_weak_block < 2 ^ 64 - 1) by (vm_compute; split; reflexivity).
  split; [exact H1|].
  split; [exact H2|].
  split; [exact H3|].
  exact (weak_copy_spec (mkWeak (Some 100)) sample_weak_state 100 sample_weak_block H1 H2 H3).
Defined.

Lemma empty_weak_access_witness :
  (weak_block empty_weak = None) ∧
  (WeakPtr_copy empty_weak sample_state = Undefined NullDeref
   ∧ (∀ this : WeakPtr,
        WeakPtr_assign false this empty_weak sample_state = Undefined NullDeref)
     ∧ WeakPtr_assign true empty_weak empty_weak sample_state =
       Ok empty_weak sample_state
       ∧ WeakPtr_use_count empty_weak sample_state = Undefined NullDeref
         ∧ WeakPtr_arrow 24 empty_weak sample_state = Undefined NullDeref
           ∧ WeakPtr_expired empty_weak sample_state = Ok true sample_state
             ∧ WeakPtr_lock false 24 empty_weak sample_state =
               Ok empty_shared sample_state
               ∧ WeakPtr_reset empty_weak sample_state = Ok empty_weak sample_state
                 ∧ unlink_weak_pointer_from_the_control_block empty_weak sample_state =
                   Ok empty_weak sample_state).
Proof.
  assert (H1 : weak_block empty_weak = None) by reflexivity.
  split; [exact H1|].
  exact (empty_weak_access false 24 empty_weak sample_state H1).
Defined.

Lemma weak_move_spec_witness :
  (1%nat ≠ 0%nat) ∧
  (weak sample_handles !! 1%nat = Some empty_weak) ∧
  (weak sample_handles !! 0%nat = Some {| weak_block := Some 100 |}) ∧
  (step_handle false 24 (WeakMoveAssign 1 0) sample_handles =
   exec (unlink_weak_pointer_from_the_control_block empty_weak) sample_handles
     (λ (_ : WeakPtr) (s' : State),
        Done
          {|
            store := s';
            owning := owning sample_handles;
            weak :=
              <[1%nat:={| weak_block := weak_block {| weak_block := Some 100 |} |}]>
                (<[0%nat:=empty_weak]> (weak sample_handles))
          |})).
Proof.
  assert (H1 : 1%nat ≠ 0%nat) by (intros H; discriminate H).
  assert (H2 : weak sample_handles !! 1%nat = Some empty_weak) by reflexivity.
  assert (H3 : weak sample_handles !! 0%nat = Some {| weak_block := Some 100 |}) by reflexivity.
  split; [exact H1|].
  split; [exact H2|].
  split; [exact H3|].
  exact (proj1 (proj2 (weak_move_spec false 24)) 1%nat 0%nat sample_handles empty_weak (mkWeak (Some 100)) H1 H2 H3).
Defined.

Lemma unlink_weak_spec_witness :
  (weak_block {| weak_block := Some 100 |} = Some 100) ∧
  (heap sample_weak_state !! 100 = Some (Block sample_weak_block)) ∧
  (0 < weak_count sample_weak_block < 2 ^ 64) ∧
  (∃ s' : State,
   unlink_weak_pointer_from_the_control_block {| weak_block := Some 100 |}
     sample_weak_state =
   Ok empty_weak s'
   ∧ WeakPtr_reset {| weak_block := Some 100 |} sample_weak_state =
     Ok empty_weak s'
     ∧ (∀ b' : Z,
          destroy_count b' (trace s') = destroy_count b' (trace sample_weak_state))
       ∧ objects s' = objects sample_weak_state
         ∧ (∀ b' : Z, b' ≠ 100 → heap s' !! b' = heap sample_weak_state !! b')
           ∧ (if
               (shared_count sample_weak_block =? 0) &&
               (weak_count sample_weak_block =? 1)
              then
               heap s' !! 100 = None
               ∧ trace s' = Deallocate 100 :: trace sample_weak_state
              else
               heap s' !! 100 =
               Some
                 (Block
                    {|
                      shared_count := shared_count sample_weak_block;
                      weak_count := weak_count sample_weak_block - 1;
                      variant := variant sample_weak_block
                    |})
               ∧ trace s' = trace sample_weak_state)).
Proof.
  assert (H1 : weak_block {| weak_block := Some 100 |} = Some 100) by reflexivity.
  assert (H2 : heap sample_weak_state !! 100 = Some (Block sample_weak_block)) by (vm_compute; reflexivity).
  assert (H3 : 0 < weak_count sample_weak_block < 2 ^ 64) by (vm_compute; split; reflexivity).
  split; [exact H1|].
  split; [exact H2|].
  split; [exact H3|].
  exact (unlink_weak_spec (mkWeak (Some 100)) sample_weak_state 100 sample_weak_block H1 H2 H3).
Defined.

Lemma weak_arrow_spec_witness :
  (weak_block {| weak_block := Some 100 |} = Some 100) ∧
  (heap sample_weak_state !! 100 = Some (Block sample_weak_block)) ∧
  (WeakPtr_arrow 24 {| weak_block := Some 100 |} sample_weak_state =
   Ok (block_pointee 24 100 sample_weak_block) sample_weak_state
   ∧ WeakPtr_expired {| weak_block := Some 100 |} sample_weak_state =
     Ok (shared_count sample_weak_block =? 0) sample_weak_state).
Proof.
  assert (H1 : weak_block {| weak_block := Some 100 |} = Some 100) by reflexivity.
  assert (H2 : heap sample_weak_state !! 100 = Some (Block sample_weak_block)) by (vm_compute; reflexivity).
  split; [exact H1|].
  split; [exact H2|].
  exact (proj1 (weak_arrow_spec false 24) (mkWeak (Some 100)) sample_weak_state 100 sample_weak_block H1 H2).
Defined.

Lemma weak_swap_spec_witness :
  (weak sample_handles !! 0%nat = Some {| weak_block := Some 100 |}) ∧
  (weak sample_handles !! 1%nat = Some empty_weak) ∧
  (∃ m' : Machine,
   step_handle false 24 (WeakSwap 0 1) sample_handles = Done m'
   ∧ store m' = store sample_handles
     ∧ owning m' = owning sample_handles
       ∧ weak m' !! 0%nat = Some empty_weak
         ∧ weak m' !! 1%nat = Some {| weak_block := Some 100 |}
           ∧ (∀ n : nat,
                n ≠ 0%nat → n ≠ 1%nat → weak m' !! n = weak sample_handles !! n)
             ∧ (∀ b : Z, weak_vars b m' = weak_vars b sample_handles)
               ∧ step_handle false 24 (WeakSwap 0 1) m' = Done sample_handles).
Proof.
  assert (H1 : weak sample_handles !! 0%nat = Some {| weak_block := Some 100 |}) by reflexivity.
  assert (H2 : weak sample_handles !! 1%nat = Some empty_weak) by reflexivity.
  split; [exact H1|].
  split; [exact H2|].
  exact (weak_swap_spec false 24 0 1 sample_handles (mkWeak (Some 100)) empty_weak H1 H2).
Defined.

Lemma raw_pointer_twice_witness :
  (false = false) ∧
  (100 ≠ 200) ∧
  (∃ (m : Machine) (h1 h2 : SharedPtr),
   run false 24
     [FromRaw (Some 7) default_delete (Some 100);
      FromRaw (Some 7) default_delete (Some 200)]
     empty_machine =
   Done m
   ∧ owning m = [h1; h2]
     ∧ control_block h1 = Some 100
       ∧ control_block h2 = Some 200
         ∧ SharedPtr_use_count h1 (store m) = Ok 1 (store m)
           ∧ SharedPtr_use_count h2 (store m) = Ok 1 (store m)
             ∧ SharedPtr_arrow 24 h1 (store m) = Ok (Some 7) (store m)
               ∧ SharedPtr_arrow 24 h2 (store m) = Ok (Some 7) (store m)
                 ∧ ∃ m' : Machine,
                     run false 24 [Handle (Destroy 0); Handle (Destroy 1)] m =
                     Done m'
                     ∧ trace (store m') =
                       [Deallocate 200; DestroyObject 200 1; 
                        Deallocate 100; DestroyObject 100 1]
                       ∧ block_live 100 (store m') = false
                         ∧ block_live 200 (store m') = false).
Proof.
  assert (H1 : false = false) by reflexivity.
  assert (H2 : 100 ≠ 200) by (intros H; discriminate H).
  split; [exact H1|].
  split; [exact H2|].
  exact (raw_pointer_twice false 24 (Some 7) default_delete 100 200 H1 H2).
Defined.

Lemma counts_are_exact_witness :
  (Forall (supported true) sample_shared_objects) ∧
  (Z.of_nat (length sample_shared_objects) + 3 < 2 ^ 64) ∧
  (match run true 24 sample_shared_objects empty_machine with
   | Done m =>
       (∀ (i : nat) (h : SharedPtr) (b : Z),
          owning m !! i = Some h
          → control_block h = Some b
            → 0 < owners b m
              ∧ SharedPtr_use_count h (store m) = Ok (owners b m) (store m)
                ∧ (true = true
                   → objects (store m) !! embedded_obj 24 b =
                     Some {| weak_block := Some b |}))
       ∧ (∀ (j : nat) (w : WeakPtr) (b : Z),
            weak m !! j = Some w
            → weak_block w = Some b
              → block_live b (store m) = true
                ∧ WeakPtr_use_count w (store m) = Ok (owners b m) (store m)
                  ∧ WeakPtr_expired w (store m) = Ok (owners b m =? 0) (store m))
         ∧ (∀ b : Z, block_live b (store m) = negb (owners b m + weak_vars b m =? 0))
           ∧ ∀ b : Z,
               destroy_count b (trace (store m)) =
               free_count b (trace (store m)) +
               (if block_live b (store m) && (owners b m =? 0) then 1 else 0)
   | Raised _ _ => True
   | Stuck f =>
       f = NullDeref
       ∨ f = NoSuchHandle ∨ f = AllocatorMisuse ∨ f = DeadObject ∧ true = true
   end).
Proof.
  assert (H1 : Forall (supported true) sample_shared_objects) by (repeat constructor).
  assert (H2 : Z.of_nat (length sample_shared_objects) + 3 < 2 ^ 64) by (vm_compute; reflexivity).
  split; [exact H1|].
  split; [exact H2|].
  exact (counts_are_exact true 24 sample_shared_objects H1 H2).
Defined.


(** * Raw pointers and self-handles *)

(** A pointee with the mixin at address 7, built by the caller. *)
Definition sample_object_state : State := mkState ∅ {[7 := mkWeak None]} [].

Lemma from_raw_spec_witness :
  (false = false ∧
   heap empty_state !! 50 = None ∧
   ∃ h s' blk,
     SharedPtr_from_raw false (Some 7) default_delete (Some 50) empty_state = Ok h s' ∧
     control_block h = Some 50 ∧
     pointer h = Some 7 ∧
     heap s' = <[50 := Block blk]> (heap empty_state) ∧
     objects s' = objects empty_state ∧
     trace s' = trace empty_state ∧
     variant blk = ControlBlockFromPointer default_delete (Some 7) ∧
     shared_count blk = 1 ∧
     weak_count blk = 0 ∧
     SharedPtr_use_count h s' = Ok 1 s' ∧
     SharedPtr_arrow 24 h s' = Ok (Some 7) s') ∧
  (true = true ∧
   SharedPtr_from_raw true (Some 7) default_delete (Some 50) sample_object_state =
     Undefined IllFormed).
Proof.
  assert (H1 : false = false) by reflexivity.
  assert (H2 : heap empty_state !! 50 = None) by (vm_compute; reflexivity).
  assert (H3 : true = true) by reflexivity.
  split.
  - split; [exact H1|]. split; [exact H2|].
    exact (proj1 (from_raw_spec false 24 (Some 7) default_delete) H1 50 empty_state H2).
  - split; [exact H3|].
    exact (proj1 (proj2 (from_raw_spec true 24 (Some 7) default_delete) H3)
             (Some 50) sample_object_state).
Defined.

(** Two owners of a pointee with the mixin: [makeShared], then a copy of
    the handle. *)
Definition sample_two_wired : Machine :=
  mkMachine (lifecycle_state true 24 100 ControlBlockEmbeded 2 0)
    [sample_handle; sample_handle] [].


(** The store [makeShared<Der2>()] leaves for a pointee type that
    inherits the mixin through a base class,
    [Der2 : Base2 : EnableSharedFromThis<Base2>]: [is_base_of_v] of
    [EnableSharedFromThis<Der2>] and [Der2] is false, so the private
    constructor leaves the [weak_this] of the new object as it was
    built, unbound. *)
Definition sample_inherited : Machine :=
  mkMachine (mkState {[100 := Block sample_block]} {[124 := empty_weak]} [])
    [sample_handle] [].

(** It is the store the factory makes for a pointee type that fails
    the test, together with the [weak_this] member the inherited base
    gives the new object. *)
Lemma sample_inherited_reached :
  ∃ m, run false 24 [MakeShared (Some 100) true] empty_machine = Done m ∧
       owning m = owning sample_inherited ∧ weak m = weak sample_inherited ∧
       begin_object 124 (store m) = Ok tt (store sample_inherited).
Proof.
  eexists. split; [vm_compute; reflexivity|]. split; [reflexivity|]. split; [reflexivity|].
  vm_compute. reflexivity.
Qed.

(** A pointee with the mixin from the factory, and at 300 a second
    object built as a copy of it, [Widget other = *h]; no handle was ever
    made for the copy. *)
Definition sample_copied : Machine :=
  mkMachine (mkState {[100 := Block (mkBlock 1 2 ControlBlockEmbeded)]}
               {[124 := mkWeak (Some 100); 300 := mkWeak (Some 100)]} [])
    [sample_handle] [].

Lemma sample_copied_reached :
  ∃ m, run true 24 [MakeShared (Some 100) true] empty_machine = Done m ∧
       owning m = owning sample_copied ∧ weak m = weak sample_copied ∧
       EnableSharedFromThis_copy 300 124 (store m) = Ok tt (store sample_copied).
Proof.
  eexists. split; [vm_compute; reflexivity|]. split; [reflexivity|]. split; [reflexivity|].
  vm_compute. reflexivity.
Qed.

